(** * GENIE cross-section comparison utilities: a shallow embedding

    This development embeds the plotting utility [gxscomp]
    (src/Apps/gXSecComp.cxx) and the NuValidator graph aggregator
    [MultiGraph] (src/NuValidator/DBUtils/MultiGraph.cxx) and proves
    properties of their trimming, ratio, styling and command-line code.

    Conventions of the embedding:
    - a C++ [double] that is finite is the rational ([Q]) it stands for;
      where the code multiplies or divides doubles and a branch depends on
      the result ([TrimGraph]), the result is rounded as binary64 rounds
      it (see [round53]);
    - an [int] used as an array index or a counter is a [nat], an [int]
      that may be negative is a [Z], an [unsigned int] is an [N] with the
      wrap-around modulo 2^32 written out;
    - a nullable pointer is an [option];
    - a call that can end the process or has no defined behaviour returns
      an [outcome]. *)

From Stdlib Require Import ZArith NArith QArith Qround Qabs Qpower Qminmax Lqa String Ascii List Lia.
From stdpp Require Import base option list gmap strings.

Local Open Scope string_scope.
Local Open Scope list_scope.
Local Open Scope nat_scope.

(** ** Outcomes of a call *)

Inductive outcome (A : Type) : Type :=
| Ret (a : A)            (* the call returns normally *)
| Exit (status : Z)      (* the process ends through exit(status) *)
| Abort                  (* a failed assert or an exception nothing catches ends
                            the process *)
| Undef                  (* no defined behaviour: a read outside an array, a null
                            dereference, an integer division by zero *)
| OutOfFuel.             (* the bound given to an unbounded loop was reached *)

Arguments Ret {A} a.
Arguments Exit {A} status.
Arguments Abort {A}.
Arguments Undef {A}.
Arguments OutOfFuel {A}.

#[global] Instance outcome_ret : MRet outcome := @Ret.
#[global] Instance outcome_bind : MBind outcome := fun A B f m =>
  match m with
  | Ret a => f a
  | Exit s => Exit s
  | Abort => Abort
  | Undef => Undef
  | OutOfFuel => OutOfFuel
  end.

(** Reading element [i] of an array. *)
Definition index {A : Type} (l : list A) (i : nat) : outcome A :=
  match l !! i with
  | Some a => Ret a
  | None => Undef
  end.

(** ** Curves *)

(** A [TGraph] holds [fNpoints] pairs (fX[i], fY[i]). *)
Abbreviation TGraph := (list (Q * Q)).

Definition GetN (gr : TGraph) : nat := length gr.
Definition GetX (gr : TGraph) (i : nat) : outcome Q := p ← index gr i; Ret p.1.
Definition GetY (gr : TGraph) (i : nat) : outcome Q := p ← index gr i; Ret p.2.

(** [a < b] and [a != 0.] on doubles. *)
Definition Qlt_bool (a b : Q) : bool := negb (Qle_bool b a).
Definition Qnonzero (a : Q) : bool := negb (Qeq_bool a 0).

(** ** Arithmetic of doubles

    A finite double is a rational [m * 2^e] with [|m| < 2^53].  The result
    of an operation is the exact result rounded to the nearest such value,
    ties to the even [m].  The range of the exponent is left out: where it
    is used below, an operand is an abscissa of a graph or an [int], no
    result is subnormal and inexact, and a product beyond the largest
    double (which the code holds as an infinity) is here a value beyond
    the largest double, which compares with every finite double as the
    infinity does. *)

Definition pow2 (e : Z) : Q := (2 ^ e)%Q.

(** The exponent of the binade of [x > 0]: [2^k <= x < 2^(k+1)]. *)
Definition ilog2 (x : Q) : Z :=
  let k := (Z.log2 (Qnum x) - Z.log2 (Zpos (Qden x)))%Z in
  if Qle_bool (pow2 k) x then k else (k - 1)%Z.

(** The nearest integer, ties to even. *)
Definition rne (q : Q) : Z :=
  let f := Qfloor q in
  match Qcompare (q - inject_Z f) (1 # 2) with
  | Lt => f
  | Gt => (f + 1)%Z
  | Eq => if Z.even f then f else (f + 1)%Z
  end.

(** Rounding to 53 significant bits. *)
Definition round53 (x : Q) : Q :=
  if Qeq_bool x 0 then 0%Q
  else
    let e := (ilog2 (Qabs x) - 52)%Z in
    (inject_Z (rne (x / pow2 e)) * pow2 e)%Q.

(** [a * b] and [a / b] on doubles. *)
Definition mul_double (a b : Q) : Q := round53 (a * b).
Definition div_double (a b : Q) : Q := round53 (a / b).

(** The double that a decimal literal of the value [q] denotes. *)
Definition double (q : Q) : Q := round53 q.

(** [TMath::FloorNint(x)] is [Nint(Floor(x))]: the floor, which [Nint]
    leaves as it is. *)
Definition FloorNint (x : Q) : Z := Qfloor x.

(** * gXSecComp.cxx *)

Module gXSecComp.

(** ** TrimGraph *)

(** The first [for] loop of the [while(1)] body: starting at [i = fp] it
    clears [remv[i]], records [lp = i], counts the points inside
    (xmin, xmax] and stops after the first point beyond [xmax].  [n] is the
    number of indices left before [i] reaches [np]. *)
Fixpoint scan_decade (gr : TGraph) (xmin xmax : Q) (n i : nat)
    (remv : list bool) (lp ndec : nat) : outcome (list bool * nat * nat) :=
  match n with
  | O => Ret (remv, lp, ndec)
  | S n' =>
      let remv := <[i := false]> remv in
      let lp := i in
      x ← GetX gr i;
      let ndec := if Qlt_bool xmin x && Qle_bool x xmax then S ndec else ndec in
      if Qlt_bool xmax x then Ret (remv, lp, ndec)
      else scan_decade gr xmin xmax n' (S i) remv lp ndec
  end.

(** [ithrow % keep_rate] on ints: truncated remainder, undefined for a zero
    divisor. *)
Definition int_rem (a b : Z) : outcome Z :=
  if (b =? 0)%Z then Undef else Ret (Z.rem a b).

(** [keep_rate = TMath::FloorNint(1./keep_prob)] with
    [keep_prob = (double)max_np_per_decade / (double)ndec]: two divisions
    of doubles, each rounded.  With [max_np_per_decade = 0] the quotient
    1./keep_prob is infinite and its conversion to [int] is undefined; with
    [ndec = 0] (and a negative maximum) keep_prob is infinite, keep_rate is
    0 and the remainder taken next is undefined. *)
Definition keep_rate_of (max_np_per_decade : Z) (ndec : nat) : outcome Z :=
  if (max_np_per_decade =? 0)%Z || (ndec =? 0) then Undef
  else
    let keep_prob :=
      div_double (inject_Z max_np_per_decade) (inject_Z (Z.of_nat ndec)) in
    Ret (FloorNint (div_double 1 keep_prob)).

(** The second [for] loop: [i] runs from [fp] to [lp], [n] counts the
    indices left. *)
Fixpoint throw_points (keep_rate : Z) (n i : nat) (ithrow : Z)
    (remv : list bool) : outcome (list bool) :=
  match n with
  | O => Ret remv
  | S n' =>
      r ← int_rem ithrow keep_rate;
      let remv := if (r =? 0)%Z then remv else <[i := true]> remv in
      throw_points keep_rate n' (S i) (ithrow + 1)%Z remv
  end.

(** The [while(1)] loop.  Each round reads [gr->GetX()[fp]], so [np >= 1]
    whenever the exit test [lp == np-1] is reached. *)
Fixpoint trim_loop (fuel : nat) (gr : TGraph) (max_np_per_decade : Z)
    (fp lp : nat) (remv : list bool) : outcome (list bool) :=
  match fuel with
  | O => OutOfFuel
  | S fuel' =>
      let np := GetN gr in
      xmin ← GetX gr fp;
      let xmax := mul_double 10 xmin in
      '(remv, lp, ndec) ← scan_decade gr xmin xmax (np - fp) fp remv lp 0;
      remv ← (if (Z.of_nat ndec >? max_np_per_decade)%Z then
                keep_rate ← keep_rate_of max_np_per_decade ndec;
                throw_points keep_rate (S lp - fp) fp 0%Z remv
              else Ret remv);
      if lp =? np - 1 then Ret remv
      else trim_loop fuel' gr max_np_per_decade (S lp) lp remv
  end.

(** The removal flags after the [while(1)] loop. *)
Definition trim_flags (gr : TGraph) (max_np_per_decade : Z) : outcome (list bool) :=
  let np := GetN gr in
  trim_loop (S np) gr max_np_per_decade 0 0 (replicate np false).

(** The two final loops: the points whose flag is clear, in order. *)
Fixpoint kept_points (gr : TGraph) (remv : list bool) : TGraph :=
  match gr, remv with
  | p :: gr', r :: remv' =>
      if r then kept_points gr' remv' else p :: kept_points gr' remv'
  | _, _ => []
  end.

Definition TrimGraph (gr : option TGraph) (max_np_per_decade : Z)
    : outcome (option TGraph) :=
  match gr with
  | None => Ret None
  | Some gr =>
      remv ← trim_flags gr max_np_per_decade;
      Ret (Some (kept_points gr remv))
  end.

(** ** What the program takes from ROOT and from the rest of GENIE *)

(** ROOT services used by the program: the interpolation [TGraph::Eval],
    the axis ranges of a graph, the access test of [gSystem] (which answers
    [false] for an accessible path) and the content of the ROOT files. *)
Class RootSystem : Type := {
  Eval : TGraph -> Q -> Q;
  GetXaxis_GetXmin : TGraph -> Q;
  GetXaxis_GetXmax : TGraph -> Q;
  GetYaxis_GetXmin : TGraph -> Q;
  GetYaxis_GetXmax : TGraph -> Q;
  AccessPathName : string -> bool;
  OpenFile : string -> list (string * gmap string TGraph)
}.

(** Framework/ParticleData/PDGCodes.h and PDGUtils.h are not among the
    sources: the six neutrino codes and the two tests are taken as given. *)
Class PDGLibrary : Type := {
  kPdgNuE : Z;
  kPdgAntiNuE : Z;
  kPdgNuMu : Z;
  kPdgAntiNuMu : Z;
  kPdgNuTau : Z;
  kPdgAntiNuTau : Z;
  IsNeutrino : Z -> bool;
  IsAntiNeutrino : Z -> bool
}.

(** The command line as [CmdLnArgParser] presents it. *)
Record CmdLnArgParser : Type := {
  OptionExists : ascii -> bool;
  ArgAsString : ascii -> string
}.

(** [Form(fmt, ...)] with string arguments: each "%s" takes the next one. *)
Fixpoint Form (fmt : string) (args : list string) : string :=
  match fmt with
  | String "%" (String "s" rest) =>
      match args with
      | a :: args' => a +:+ Form rest args'
      | [] => Form rest []
      end
  | String c rest => String c (Form rest args)
  | EmptyString => EmptyString
  end.

(** [s.find(pat)]: the first position of [pat] in [s]; [None] is
    [string::npos]. *)
Definition find (s pat : string) : option nat := String.index 0 pat s.

Definition contains (s pat : string) : bool := bool_decide (is_Some (find s pat)).

(** [s.find(pat) + k] in [size_t]: [npos + k] wraps around to [k - 1]. *)
Definition find_plus (s pat : string) (k : nat) : nat :=
  match find s pat with
  | Some pos => pos + k
  | None => k - 1
  end.

(** [s.substr(pos, n)]: throws [std::out_of_range], which nothing catches,
    when [pos] exceeds the size. *)
Definition substr (s : string) (pos n : nat) : outcome string :=
  if String.length s <? pos then Abort else Ret (String.substring pos n s).

(** Modelled from the spec: [utils::str::Split] (Framework/Utils/StringUtils)
    is not among the sources; the spec expects exactly one comma-separated
    split of "source,label", so the input is cut at every delimiter. *)
Fixpoint Split (input : string) (delimiter : ascii) : list string :=
  match input with
  | EmptyString => [EmptyString]
  | String c rest =>
      let parts := Split rest delimiter in
      if Ascii.eqb c delimiter then EmptyString :: parts
      else
        match parts with
        | p :: ps => String c p :: ps
        | [] => [String c EmptyString]
        end
  end.

(** ** The globals of the program *)

Abbreviation TDirectory := (gmap string TGraph).
Abbreviation TFile := (list (string * TDirectory)).

(** [file->Get(name)] *)
Definition TFile_Get (f : TFile) (name : string) : option TDirectory :=
  snd <$> List.find (fun kv => String.eqb kv.1 name) f.

Inductive TPad : Type := gPadTitle | gPadXSecs | gPadRatio.

(** What the canvas and the PostScript file receive, in order.  The objects
    made by [Init] (canvas, pads, legend, output file) exist whenever the
    drawing code runs. *)
Inductive RenderEvent : Type :=
| EvCd (p : TPad)
| EvFrontPage (lines : list string)
| EvHeader (title : option string)
| EvFormat (gr : option TGraph) (lcol lsty lwid mcol msty : Z) (msiz : Q)
| EvFrame (p : TPad) (xmin xmax ymin ymax : Q) (xt yt : string)
| EvDraw (gr : TGraph) (opt : string)
| EvLegend (entries : list (option TGraph * string * string))
| EvUpdate
| EvNewPage
| EvClose.

(** command-line arguments and the two labels set with them *)
Record CmdLine : Type := mkCmdLine {
  gOptXSecFilename_curr : string;
  gOptXSecFilename_ref0 : string;
  gOptOutputFilename : string;
  gOptHaveRef : bool;
  gLabelCurr : string;
  gLabelRef0 : string
}.

Record Probe : Type := mkProbe {
  gCurrProbeLbl : string;
  gCurrProbePdg : Z;
  gCurrProbeIsNu : bool;
  gCurrProbeIsNuBar : bool
}.

Record Target : Type := mkTarget {
  gCurrTargetLbl : string;
  gCurrTargetHasP : bool;
  gCurrTargetHasN : bool;
  gCurrTargetIsFreeNuc : bool
}.

Record Globals : Type := mkGlobals {
  gOpt : CmdLine;
  gXSecFile_curr : option TFile;
  gXSecFile_ref0 : option TFile;
  gDirCurr : option TDirectory;
  gDirRef0 : option TDirectory;
  gDirName : string;
  gCurrProbe : Probe;
  gCurrTarget : Target;
  gPS : list RenderEvent;        (* the output so far *)
  gLog : list string             (* the messages of DrawRatio so far *)
}.

Definition initial_CmdLine : CmdLine := mkCmdLine "" "" "" false "" "".

Definition initial_Globals (opt : CmdLine) : Globals :=
  mkGlobals opt None None None None "" (mkProbe "" 0 false false)
    (mkTarget "" false false false) [] [].

Definition emit (evs : list RenderEvent) (g : Globals) : Globals :=
  mkGlobals (gOpt g) (gXSecFile_curr g) (gXSecFile_ref0 g) (gDirCurr g)
    (gDirRef0 g) (gDirName g) (gCurrProbe g) (gCurrTarget g)
    (gPS g ++ evs) (gLog g).

Definition log (msgs : list string) (g : Globals) : Globals :=
  mkGlobals (gOpt g) (gXSecFile_curr g) (gXSecFile_ref0 g) (gDirCurr g)
    (gDirRef0 g) (gDirName g) (gCurrProbe g) (gCurrTarget g)
    (gPS g) (gLog g ++ msgs).

(** The number of pages started in an output. *)
Definition is_NewPage (e : RenderEvent) : bool :=
  match e with
  | EvNewPage => true
  | _ => false
  end.

Definition pages (evs : list RenderEvent) : nat :=
  length (List.filter is_NewPage evs).

(** ** DrawRatio *)

Section Ratio.
Context `{RootSystem}.

(** The body of the loop of [DrawRatio] at the abscissa [x]. *)
Definition ratio_at (gr0 gr1 : TGraph) (x : Q) : Q :=
  if Qnonzero (Eval gr0 x) && Qnonzero (Eval gr1 x) then
    (Eval gr0 x / Eval gr1 x)%Q
  else if Qnonzero (Eval gr0 x) then (-1)%Q
  else 1%Q.

(** [DrawRatio] returns the new graph (or null) and what it sent to the
    messenger. *)
Definition DrawRatio (gr0 gr1 : option TGraph) : option TGraph * list string :=
  match gr0 with
  | None => (None, [])
  | Some g0 =>
      match gr1 with
      | None => (None, [])
      | Some g1 =>
          (Some (map (fun p => (p.1, ratio_at g0 g1 p.1)) g0),
           ["Drawing ratio..."%string])
      end
  end.

End Ratio.

(** ** DirNameToProbe, DirNameToTarget *)

Section Directories.
Context `{PDGLibrary}.

Definition DirNameToProbe (dirname : string) : Probe :=
  let '(label, pdg) :=
    if contains dirname "nu_e_bar" then ("#bar{#nu_{e}}"%string, kPdgAntiNuE)
    else if contains dirname "nu_e" then ("#nu_{e}"%string, kPdgNuE)
    else if contains dirname "nu_mu_bar" then ("#bar{#nu_{#mu}}"%string, kPdgAntiNuMu)
    else if contains dirname "nu_mu" then ("#nu_{#mu}"%string, kPdgNuMu)
    else if contains dirname "nu_tau_bar" then ("#bar{#nu_{#tau}}"%string, kPdgAntiNuTau)
    else if contains dirname "nu_tau" then ("#nu_{#tau}"%string, kPdgNuTau)
    else (""%string, 0%Z) in
  mkProbe label pdg (IsNeutrino pdg) (IsAntiNeutrino pdg).

Definition DirNameToTarget (dirname : string) (pdg : Z) : outcome Target :=
  let len := String.length dirname in
  label ←
    (if (pdg =? kPdgAntiNuE)%Z then substr dirname (find_plus dirname "nu_e_bar" 9) len
     else if (pdg =? kPdgNuE)%Z then substr dirname (find_plus dirname "nu_e" 5) len
     else if (pdg =? kPdgAntiNuMu)%Z then substr dirname (find_plus dirname "nu_mu_bar" 10) len
     else if (pdg =? kPdgNuMu)%Z then substr dirname (find_plus dirname "nu_mu" 6) len
     else if (pdg =? kPdgAntiNuTau)%Z then substr dirname (find_plus dirname "nu_tau_bar" 11) len
     else if (pdg =? kPdgNuTau)%Z then substr dirname (find_plus dirname "nu_tau" 7) len
     else Ret ""%string);
  let free_n := (String.length label =? 1) && contains label "n" in
  let free_p := (String.length label =? 2) && contains label "H1" in
  let free_nuc := free_p || free_n in
  Ret (mkTarget (if free_nuc then "" else "(" +:+ label +:+ ")")
         (if free_n then false else true)
         (if free_p then false else true)
         free_nuc).

End Directories.

(** ** The plots of one directory, in the order [MakePlotsCurrDir] asks for
    them: the name of the graph and the format of its title. *)
Definition MakePlotsCurrDir_calls (p : Probe) (t : Target) : list (string * string) :=
  (
  (if negb (gCurrTargetIsFreeNuc t) then
     [
      ("tot_cc", "%s + %s, TOT CC");
      ("tot_nc", "%s + %s, TOT NC") ]
   else []) ++
  (if gCurrTargetHasN t then
     [
      ("tot_cc_n", "%s + n %s, TOT CC");
      ("tot_nc_n", "%s + n %s, TOT NC") ] ++
     (if gCurrProbeIsNu p then
        [
         ("qel_cc_n", "%s + n %s, QEL CC") ]
      else []) ++
     [
      ("qel_nc_n", "%s + n %s, NCEL");
      ("res_cc_n", "%s + n %s, RES CC");
      ("res_nc_n", "%s + n %s, RES NC");
      ("res_cc_n_1232P33", "%s + n %s, RES CC, P33(1232)");
      ("res_cc_n_1535S11", "%s + n %s, RES CC, S11(1535)");
      ("res_cc_n_1520D13", "%s + n %s, RES CC, D13(1520)");
      ("res_cc_n_1650S11", "%s + n %s, RES CC, S11(1650)");
      ("res_cc_n_1700D13", "%s + n %s, RES CC, D13(1700)");
      ("res_cc_n_1675D15", "%s + n %s, RES CC, D15(1675)");
      ("res_cc_n_1620S31", "%s + n %s, RES CC, S31(1620)");
      ("res_cc_n_1700D33", "%s + n %s, RES CC, D33(1700)");
      ("res_cc_n_1440P11", "%s + n %s, RES CC, P11(1440)");
      ("res_cc_n_1720P13", "%s + n %s, RES CC, P13(1720)");
      ("res_cc_n_1680F15", "%s + n %s, RES CC, F15(1680)");
      ("res_cc_n_1910P31", "%s + n %s, RES CC, P31(1910)");
      ("res_cc_n_1920P33", "%s + n %s, RES CC, P33(1920)");
      ("res_cc_n_1905F35", "%s + n %s, RES CC, F35(1905)");
      ("res_cc_n_1950F37", "%s + n %s, RES CC, F37(1950)");
      ("res_cc_n_1710P11", "%s + n %s, RES CC, P11(1710)");
      ("res_nc_n_1232P33", "%s + n %s, RES NC, P33(1232)");
      ("res_nc_n_1535S11", "%s + n %s, RES NC, S11(1535)");
      ("res_nc_n_1520D13", "%s + n %s, RES NC, D13(1520)");
      ("res_nc_n_1650S11", "%s + n %s, RES NC, S11(1650)");
      ("res_nc_n_1700D13", "%s + n %s, RES NC, D13(1700)");
      ("res_nc_n_1675D15", "%s + n %s, RES NC, D15(1675)");
      ("res_nc_n_1620S31", "%s + n %s, RES NC, S31(1620)");
      ("res_nc_n_1700D33", "%s + n %s, RES NC, D33(1700)");
      ("res_nc_n_1440P11", "%s + n %s, RES NC, P11(1440)");
      ("res_nc_n_1720P13", "%s + n %s, RES NC, P13(1720)");
      ("res_nc_n_1680F15", "%s + n %s, RES NC, F15(1680)");
      ("res_nc_n_1910P31", "%s + n %s, RES NC, P31(1910)");
      ("res_nc_n_1920P33", "%s + n %s, RES NC, P33(1920)");
      ("res_nc_n_1905F35", "%s + n %s, RES NC, F35(1905)");
      ("res_nc_n_1950F37", "%s + n %s, RES NC, F37(1950)");
      ("res_nc_n_1710P11", "%s + n %s, RES NC, P11(1710)");
      ("dis_cc_n", "%s + n %s, DIS CC");
      ("dis_nc_n", "%s + n %s, DIS NC") ] ++
     (if gCurrProbeIsNu p then
        [
         ("dis_cc_n_ubarsea", "%s + n %s, DIS CC (#bar{u}_{sea})");
         ("dis_cc_n_dval", "%s + n %s, DIS CC (d_{val})");
         ("dis_cc_n_dsea", "%s + n %s, DIS CC (d_{sea})");
         ("dis_cc_n_ssea", "%s + n %s, DIS CC (s_{sea})") ]
      else []) ++
     (if gCurrProbeIsNuBar p then
        [
         ("dis_cc_n_sbarsea", "%s + n %s, DIS CC (#bar{s}_{sea})");
         ("dis_cc_n_dbarsea", "%s + n %s, DIS CC (#bar{d}_{val})");
         ("dis_cc_n_uval", "%s + n %s, DIS CC (u_{val})");
         ("dis_cc_n_usea", "%s + n %s, DIS CC (u_{sea})") ]
      else []) ++
     [
      ("dis_nc_n_sbarsea", "%s + n %s, DIS NC (#bar{s}_{sea})");
      ("dis_nc_n_ubarsea", "%s + n %s, DIS NC (#bar{u}_{sea})");
      ("dis_nc_n_dbarsea", "%s + n %s, DIS NC (#bar{d}_{sea})");
      ("dis_nc_n_dval", "%s + n %s, DIS NC (d_{val})");
      ("dis_nc_n_dsea", "%s + n %s, DIS NC (d_{sea})");
      ("dis_nc_n_uval", "%s + n %s, DIS NC (u_{val})");
      ("dis_nc_n_usea", "%s + n %s, DIS NC (u_{sea})");
      ("dis_nc_n_ssea", "%s + n %s, DIS NC (s_{sea})") ] ++
     (if gCurrProbeIsNu p then
        [
         ("dis_cc_n_dval_charm", "%s + n %s, DIS CC (d_{val} -> c)");
         ("dis_cc_n_dsea_charm", "%s + n %s, DIS CC (d_{sea} -> c)");
         ("dis_cc_n_ssea_charm", "%s + n %s, DIS CC (s_{sea} -> c)") ]
      else []) ++
     (if gCurrProbeIsNuBar p then
        [
         ("dis_cc_n_dbarsea_charm", "%s + n %s, DIS CC (#bar{d}_{sea} -> #bar{c})");
         ("dis_cc_n_sbarsea_charm", "%s + n %s, DIS CC (#bar{s}_{sea} -> #bar{c})") ]
      else [])
   else []) ++
  (if gCurrTargetHasP t then
     [
      ("tot_cc_p", "%s + p %s, TOT CC");
      ("tot_nc_p", "%s + p %s, TOT NC") ] ++
     (if gCurrProbeIsNuBar p then
        [
         ("qel_cc_p", "%s + p %s, QEL CC") ]
      else []) ++
     [
      ("qel_nc_p", "%s + p %s, NCEL");
      ("res_cc_p", "%s + p %s, RES CC");
      ("res_nc_p", "%s + p %s, RES NC");
      ("res_cc_p_1232P33", "%s + p %s, RES CC, P33(1232)");
      ("res_cc_p_1535S11", "%s + p %s, RES CC, S11(1535)");
      ("res_cc_p_1520D13", "%s + p %s, RES CC, D13(1520)");
      ("res_cc_p_1650S11", "%s + p %s, RES CC, S11(1650)");
      ("res_cc_p_1700D13", "%s + p %s, RES CC, D13(1700)");
      ("res_cc_p_1675D15", "%s + p %s, RES CC, D15(1675)");
      ("res_cc_p_1620S31", "%s + p %s, RES CC, S31(1620)");
      ("res_cc_p_1700D33", "%s + p %s, RES CC, D33(1700)");
      ("res_cc_p_1440P11", "%s + p %s, RES CC, P11(1440)");
      ("res_cc_p_1720P13", "%s + p %s, RES CC, P13(1720)");
      ("res_cc_p_1680F15", "%s + p %s, RES CC, F15(1680)");
      ("res_cc_p_1910P31", "%s + p %s, RES CC, P31(1910)");
      ("res_cc_p_1920P33", "%s + p %s, RES CC, P33(1920)");
      ("res_cc_p_1905F35", "%s + p %s, RES CC, F35(1905)");
      ("res_cc_p_1950F37", "%s + p %s, RES CC, F37(1950)");
      ("res_cc_p_1710P11", "%s + p %s, RES CC, P11(1710)");
      ("res_nc_p_1232P33", "%s + p %s, RES NC, P33(1232)");
      ("res_nc_p_1535S11", "%s + p %s, RES NC, S11(1535)");
      ("res_nc_p_1520D13", "%s + p %s, RES NC, D13(1520)");
      ("res_nc_p_1650S11", "%s + p %s, RES NC, S11(1650)");
      ("res_nc_p_1700D13", "%s + p %s, RES NC, D13(1700)");
      ("res_nc_p_1675D15", "%s + p %s, RES NC, D15(1675)");
      ("res_nc_p_1620S31", "%s + p %s, RES NC, S31(1620)");
      ("res_nc_p_1700D33", "%s + p %s, RES NC, D33(1700)");
      ("res_nc_p_1440P11", "%s + p %s, RES NC, P11(1440)");
      ("res_nc_p_1720P13", "%s + p %s, RES NC, P13(1720)");
      ("res_nc_p_1680F15", "%s + p %s, RES NC, F15(1680)");
      ("res_nc_p_1910P31", "%s + p %s, RES NC, P31(1910)");
      ("res_nc_p_1920P33", "%s + p %s, RES NC, P33(1920)");
      ("res_nc_p_1905F35", "%s + p %s, RES NC, F35(1905)");
      ("res_nc_p_1950F37", "%s + p %s, RES NC, F37(1950)");
      ("res_nc_p_1710P11", "%s + p %s, RES NC, P11(1710)");
      ("dis_cc_p", "%s + p %s, DIS CC");
      ("dis_nc_p", "%s + p %s, DIS NC") ] ++
     (if gCurrProbeIsNu p then
        [
         ("dis_cc_p_ubarsea", "%s + p %s, DIS CC (#bar{u}_{sea})");
         ("dis_cc_p_dval", "%s + p %s, DIS CC (d_{val})");
         ("dis_cc_p_dsea", "%s + p %s, DIS CC (d_{sea})");
         ("dis_cc_p_ssea", "%s + p %s, DIS CC (s_{sea})") ]
      else []) ++
     (if gCurrProbeIsNuBar p then
        [
         ("dis_cc_n_sbarsea", "%s + n %s, DIS CC (#bar{s}_{sea})");
         ("dis_cc_n_dbarsea", "%s + n %s, DIS CC (#bar{d}_{val})");
         ("dis_cc_n_uval", "%s + n %s, DIS CC (u_{val})");
         ("dis_cc_n_usea", "%s + n %s, DIS CC (u_{sea})") ]
      else []) ++
     [
      ("dis_nc_p_sbarsea", "%s + p %s, DIS NC (#bar{s}_{sea})");
      ("dis_nc_p_ubarsea", "%s + p %s, DIS NC (#bar{u}_{sea})");
      ("dis_nc_p_dbarsea", "%s + p %s, DIS NC (#bar{d}_{sea})");
      ("dis_nc_p_dval", "%s + p %s, DIS NC (d_{val})");
      ("dis_nc_p_dsea", "%s + p %s, DIS NC (d_{sea})");
      ("dis_nc_p_uval", "%s + p %s, DIS NC (u_{val})");
      ("dis_nc_p_usea", "%s + p %s, DIS NC (u_{sea})");
      ("dis_nc_p_ssea", "%s + p %s, DIS NC (s_{sea})") ] ++
     (if gCurrProbeIsNu p then
        [
         ("dis_cc_p_dval_charm", "%s + p %s, DIS CC (d_{val} -> charm)");
         ("dis_cc_p_dsea_charm", "%s + p %s, DIS CC (d_{sea} -> charm)");
         ("dis_cc_p_ssea_charm", "%s + p %s, DIS CC (s_{sea} -> charm)") ]
      else []) ++
     (if gCurrProbeIsNuBar p then
        [
         ("dis_cc_p_dbarsea_charm", "%s + p %s, DIS CC (#bar{d}_{sea} -> #bar{charm})");
         ("dis_cc_p_sbarsea_charm", "%s + p %s, DIS CC (#bar{s}_{sea} -> #bar{charm})") ]
      else [])
   else [])
  )%list.

(** ** Drawing *)

Section Drawing.
Context `{RootSystem} `{PDGLibrary}.

Definition DrawFrame_range (xmin xmax ymin ymax : Q) (p : option TPad)
    (xt yt : string) : list RenderEvent :=
  match p with
  | None => []
  | Some pad => [EvFrame pad xmin xmax ymin ymax xt yt]
  end.

Definition DrawFrame (gr0 gr1 : option TGraph) (p : option TPad)
    (xt yt : string) (yminsc ymaxsc : Q) : list RenderEvent :=
  let '(xmin, xmax, ymin, ymax) :=
    match gr0 with
    | Some g => (GetXaxis_GetXmin g, GetXaxis_GetXmax g,
                 GetYaxis_GetXmin g, GetYaxis_GetXmax g)
    | None => (1e-5, 1, 1e-5, 1)%Q
    end in
  let '(xmin, xmax, ymin, ymax) :=
    match gr1 with
    | Some g => (Qmin xmin (GetXaxis_GetXmin g), Qmax xmax (GetXaxis_GetXmax g),
                 Qmin ymin (GetYaxis_GetXmin g), Qmax ymax (GetYaxis_GetXmax g))
    | None => (xmin, xmax, ymin, ymax)
    end in
  let xmin := (xmin * 0.5)%Q in
  let xmax := (xmax * 1.5)%Q in
  let ymin := (ymin * yminsc)%Q in
  let ymax := (ymax * ymaxsc)%Q in
  let xmin := Qmax 0.1 xmin in
  DrawFrame_range xmin xmax ymin ymax p xt yt.

(** [Draw] of a graph with a drawing option: nothing for a null graph. *)
Definition Draw_graph (gr : option TGraph) (opt : string) : list RenderEvent :=
  match gr with
  | None => []
  | Some g => [EvDraw g opt]
  end.

(** [Draw] of the plot of a named category under a title. *)
Definition Draw (plot : string) (title : option string) (g : Globals)
    : outcome Globals :=
  let g := emit [EvCd gPadTitle; EvHeader title] g in
  let g := emit [EvCd gPadXSecs] g in
  dir ← from_option Ret Undef (gDirCurr g);
  let gr_curr : option TGraph := dir !! plot in
  let gr_ref0 : option TGraph :=
    match gDirRef0 g with
    | Some dir0 => dir0 !! plot
    | None => None
    end in
  if bool_decide (gr_curr = None) && bool_decide (gr_ref0 = None) then Ret g
  else if bool_decide (title = None) then Ret g
  else
    gr_ref0_trim ← TrimGraph gr_ref0 20;
    let g := emit [EvFormat gr_curr 1 1 1 1 1 1.0;
                   EvFormat gr_ref0_trim 1 1 1 2 4 0.7] g in
    let g := emit (DrawFrame gr_curr gr_ref0 (Some gPadXSecs) "E_{#nu} (GeV)"
                     "#sigma (10^{-38} cm^{2})" 0.5 1.5) g in
    let g := emit (Draw_graph gr_curr "L") g in
    let g := emit (Draw_graph gr_ref0_trim "P") g in
    let g := emit [EvLegend
                     ((gr_curr, gLabelCurr (gOpt g), "L"%string) ::
                      (if gOptHaveRef (gOpt g)
                       then [(gr_ref0_trim, gLabelRef0 (gOpt g), "P"%string)]
                       else []))] g in
    let g :=
      if gOptHaveRef (gOpt g) then
        let g := emit [EvCd gPadRatio] g in
        let '(gr_ratio, msgs) := DrawRatio gr_curr gr_ref0 in
        let g := log msgs g in
        let g := emit (DrawFrame gr_ratio None (Some gPadRatio) "E_{#nu} (GeV)"
                         (Form "%s / %s" [gLabelCurr (gOpt g); gLabelRef0 (gOpt g)])
                         0.9 1.1) g in
        emit (Draw_graph gr_ratio "L") g
      else g in
    let g := emit [EvUpdate] g in
    Ret (emit [EvNewPage] g).

(** A run of consecutive [Draw] calls, each title built by [Form] from the
    probe and target labels. *)
Fixpoint DrawAll (calls : list (string * string)) (probestr targetstr : string)
    (g : Globals) : outcome Globals :=
  match calls with
  | [] => Ret g
  | (plot, fmt) :: rest =>
      g ← Draw plot (Some (Form fmt [probestr; targetstr])) g;
      DrawAll rest probestr targetstr g
  end.

Definition OpenDir (g : Globals) : outcome Globals :=
  file ← from_option Ret Undef (gXSecFile_curr g);
  let dir_curr := TFile_Get file (gDirName g) in
  let dir_ref0 :=
    match gXSecFile_ref0 g with
    | Some file0 => TFile_Get file0 (gDirName g)
    | None => None
    end in
  Ret (mkGlobals (gOpt g) (gXSecFile_curr g) (gXSecFile_ref0 g) dir_curr
         dir_ref0 (gDirName g) (gCurrProbe g) (gCurrTarget g) (gPS g) (gLog g)).

Definition MakePlotsCurrDir (g : Globals) : outcome Globals :=
  g ← OpenDir g;
  let probe := DirNameToProbe (gDirName g) in
  target ← DirNameToTarget (gDirName g) (gCurrProbePdg probe);
  let g := mkGlobals (gOpt g) (gXSecFile_curr g) (gXSecFile_ref0 g) (gDirCurr g)
             (gDirRef0 g) (gDirName g) probe target (gPS g) (gLog g) in
  DrawAll (MakePlotsCurrDir_calls probe target)
    (gCurrProbeLbl probe) (gCurrTargetLbl target) g.

(** The loop of [MakePlots] over the directory names of the current file. *)
Fixpoint MakePlots_loop (dirs : list string) (g : Globals) : outcome Globals :=
  match dirs with
  | [] => Ret g
  | dir :: rest =>
      let g := mkGlobals (gOpt g) (gXSecFile_curr g) (gXSecFile_ref0 g)
                 (gDirCurr g) (gDirRef0 g) dir (gCurrProbe g) (gCurrTarget g)
                 (gPS g) (gLog g) in
      g ← MakePlotsCurrDir g;
      MakePlots_loop rest g
  end.

Definition MakePlots (g : Globals) : outcome Globals :=
  let file_curr := OpenFile (gOptXSecFilename_curr (gOpt g)) in
  let file_ref0 :=
    if gOptHaveRef (gOpt g)
    then Some (OpenFile (gOptXSecFilename_ref0 (gOpt g)))
    else None in
  let g := mkGlobals (gOpt g) (Some file_curr) file_ref0 (gDirCurr g)
             (gDirRef0 g) (gDirName g) (gCurrProbe g) (gCurrTarget g)
             (gPS g) (gLog g) in
  MakePlots_loop (map fst file_curr) g.

Definition Init (g : Globals) : Globals :=
  let opt := gOpt g in
  let g := emit [EvNewPage] g in
  let g := emit [EvFrontPage
                   (["GENIE cross sections"; " "; " "; "Plotting data from: ";
                     gOptXSecFilename_curr opt] ++
                    (if gOptHaveRef opt
                     then [" "; "Comparing with reference data (red circles) from: ";
                           gOptXSecFilename_ref0 opt]
                     else [" "]) ++
                    [" "; " "])] g in
  let g := emit [EvUpdate] g in
  emit [EvNewPage] g.

Definition End (g : Globals) : Globals := emit [EvClose] g.

(** ** GetCommandLineArgs *)

Definition CheckRootFilename (filename : string) : bool :=
  if String.length filename =? 0 then false
  else
    let is_accessible := negb (AccessPathName filename) in
    if negb is_accessible then false else true.

(** One "file[,label]" option: the file name and the label it yields.
    [assert(inpv.size()==2)] is active (no NDEBUG). *)
Definition file_and_label (inp default_label : string) : outcome (string * string) :=
  if contains inp "," then
    let inpv := Split inp ","%char in
    if negb (length inpv =? 2) then Abort
    else
      f ← index inpv 0;
      l ← index inpv 1;
      Ret (f, l)
  else Ret (inp, default_label).

Definition GetCommandLineArgs (parser : CmdLnArgParser) : outcome CmdLine :=
  let opt := initial_CmdLine in
  (* get input GENIE cross section file *)
  opt ←
    (if OptionExists parser "f" then
       let inp := ArgAsString parser "f" in
       '(f, l) ← file_and_label inp "current";
       let opt := mkCmdLine f (gOptXSecFilename_ref0 opt) (gOptOutputFilename opt)
                    (gOptHaveRef opt) l (gLabelRef0 opt) in
       let ok := CheckRootFilename (gOptXSecFilename_curr opt) in
       if negb ok then Exit 1 else Ret opt
     else Exit 1);
  (* get [reference] input GENIE cross section file *)
  opt ←
    (if OptionExists parser "r" then
       let inp := ArgAsString parser "r" in
       '(f, l) ← file_and_label inp "reference";
       let opt := mkCmdLine (gOptXSecFilename_curr opt) f (gOptOutputFilename opt)
                    (gOptHaveRef opt) (gLabelCurr opt) l in
       let ok := CheckRootFilename (gOptXSecFilename_ref0 opt) in
       if negb ok then Exit 1
       else Ret (mkCmdLine (gOptXSecFilename_curr opt) (gOptXSecFilename_ref0 opt)
                   (gOptOutputFilename opt) true (gLabelCurr opt) (gLabelRef0 opt))
     else Ret (mkCmdLine (gOptXSecFilename_curr opt) (gOptXSecFilename_ref0 opt)
                 (gOptOutputFilename opt) false (gLabelCurr opt) (gLabelRef0 opt)));
  (* get output filename *)
  Ret (mkCmdLine (gOptXSecFilename_curr opt) (gOptXSecFilename_ref0 opt)
         (if OptionExists parser "o" then ArgAsString parser "o" else "xsec.ps"%string)
         (gOptHaveRef opt) (gLabelCurr opt) (gLabelRef0 opt)).

(** [main]: the exit status is 0 when it returns. *)
Definition main (parser : CmdLnArgParser) : outcome Globals :=
  opt ← GetCommandLineArgs parser;
  let g := Init (initial_Globals opt) in
  g ← MakePlots g;
  Ret (End g).

End Drawing.

(** ** OutputFileName *)

(** [s.erase(pos, n)]: takes out the characters from [pos] on, [n] of them
    at most; throws [std::out_of_range] when [pos] exceeds the size. *)
Definition erase (s : string) (pos n : nat) : outcome string :=
  if String.length s <? pos then Abort
  else Ret (String.substring 0 pos s +:+
            String.substring (pos + n) (String.length s - (pos + n)) s).

Section Output.
(** [gSystem->BaseName] *)
Variable BaseName : string -> string.

(** [L] is an [unsigned int], so that [L-4] wraps around below 4; the
    comparison of [substr] is done on the unsigned values. *)
Definition OutputFileName (inpname : string) : outcome string :=
  let L := (N.of_nat (String.length inpname) mod 2 ^ 32)%N in
  let pos := ((L + 2 ^ 32 - 4) mod 2 ^ 32)%N in
  if (N.of_nat (String.length inpname) <? pos)%N then Abort
  else
    tail ← substr inpname (N.to_nat pos) (N.to_nat L);
    inpname ← (if contains tail "root"
               then erase inpname (N.to_nat pos) (N.to_nat L)
               else Ret inpname);
    Ret (BaseName (inpname +:+ "nuxsec_test.ps")).

End Output.

End gXSecComp.

(** * NuValidator/DBUtils/MultiGraph.cxx *)

Module MultiGraph.

(** A [TGraphAsymmErrors]: its points and the marker and line attributes
    that [FormatGraph] sets. *)
Record TGraphAsymmErrors : Type := mkGraph {
  fPoints : TGraph;
  fMarkerSize : Q;
  fMarkerColor : Z;
  fMarkerStyle : Z;
  fLineColor : Z;
  fLineWidth : Z;
  fLineStyle : Z
}.

(** Graphs live in a store and are handed around by address; [None] is the
    null pointer.  Two entries of a [MultiGraph] may hold the same address. *)
Abbreviation heap := (gmap positive TGraphAsymmErrors).
Abbreviation pointer := (option positive).

Record MultiGraph : Type := mkMultiGraph {
  _mgraph : list pointer;
  _legend_entries : list string
}.

(** The constructor leaves both vectors empty. *)
Definition new_MultiGraph : MultiGraph := mkMultiGraph [] [].

(** Conversion of a [size_t] to [unsigned int]. *)
Definition to_unsigned_int (n : N) : N := (n mod 2 ^ 32)%N.

Definition NGraphs (mg : MultiGraph) : N :=
  to_unsigned_int (N.of_nat (length (_mgraph mg))).

Definition GetGraph (mg : MultiGraph) (igraph : N) : outcome pointer :=
  if (igraph <? NGraphs mg)%N then index (_mgraph mg) (N.to_nat igraph)
  else Ret None.

Definition GetLegendEntry (mg : MultiGraph) (igraph : N) : outcome string :=
  if (igraph <? NGraphs mg)%N then index (_legend_entries mg) (N.to_nat igraph)
  else Ret "".

Definition n_colors : N := 10.
Definition colors : list Z := [1; 2; 4; 6; 7; 8; 9; 50; 38; 40]%Z.
Definition markers : list Z := [3; 4; 5; 8; 21; 22; 23; 24; 25; 26; 27; 28; 29; 30]%Z.

(** [p -> Set...(v)]: one attribute of the graph at [p] is overwritten. *)
Definition set_attribute (p : pointer) (f : TGraphAsymmErrors -> TGraphAsymmErrors)
    (h : heap) : outcome heap :=
  l ← from_option Ret Undef p;
  g ← from_option Ret Undef (h !! l);
  Ret (<[l := f g]> h).

Definition SetMarkerSize (v : Q) (g : TGraphAsymmErrors) : TGraphAsymmErrors :=
  mkGraph (fPoints g) v (fMarkerColor g) (fMarkerStyle g) (fLineColor g)
    (fLineWidth g) (fLineStyle g).
Definition SetMarkerColor (v : Z) (g : TGraphAsymmErrors) : TGraphAsymmErrors :=
  mkGraph (fPoints g) (fMarkerSize g) v (fMarkerStyle g) (fLineColor g)
    (fLineWidth g) (fLineStyle g).
Definition SetMarkerStyle (v : Z) (g : TGraphAsymmErrors) : TGraphAsymmErrors :=
  mkGraph (fPoints g) (fMarkerSize g) (fMarkerColor g) v (fLineColor g)
    (fLineWidth g) (fLineStyle g).
Definition SetLineColor (v : Z) (g : TGraphAsymmErrors) : TGraphAsymmErrors :=
  mkGraph (fPoints g) (fMarkerSize g) (fMarkerColor g) (fMarkerStyle g) v
    (fLineWidth g) (fLineStyle g).
Definition SetLineWidth (v : Z) (g : TGraphAsymmErrors) : TGraphAsymmErrors :=
  mkGraph (fPoints g) (fMarkerSize g) (fMarkerColor g) (fMarkerStyle g)
    (fLineColor g) v (fLineStyle g).
Definition SetLineStyle (v : Z) (g : TGraphAsymmErrors) : TGraphAsymmErrors :=
  mkGraph (fPoints g) (fMarkerSize g) (fMarkerColor g) (fMarkerStyle g)
    (fLineColor g) (fLineWidth g) v.

Definition FormatGraph (igraph : N) (mg : MultiGraph) (h : heap) : outcome heap :=
  let imarker := (igraph / n_colors)%N in
  let icolor := (igraph mod n_colors)%N in
  (* the LOG line reads colors[icolor] and markers[imarker] *)
  color ← index colors (N.to_nat icolor);
  marker ← index markers (N.to_nat imarker);
  p ← index (_mgraph mg) (N.to_nat igraph);
  h ← set_attribute p (SetMarkerSize 1) h;
  h ← set_attribute p (SetMarkerColor color) h;
  h ← set_attribute p (SetMarkerStyle marker) h;
  h ← set_attribute p (SetLineColor color) h;
  h ← set_attribute p (SetLineWidth 2) h;
  set_attribute p (SetLineStyle 1) h.

Definition AddGraph (legend_entry : string) (graph : pointer)
    (mg : MultiGraph) (h : heap) : outcome (MultiGraph * heap) :=
  let mg := mkMultiGraph (_mgraph mg ++ [graph])
              (_legend_entries mg ++ [legend_entry]) in
  h ← FormatGraph (to_unsigned_int (N.of_nat (length (_mgraph mg)) - 1)) mg h;
  Ret (mg, h).

(** A [TLegend]: its corners, its fill colour and its entries (graph, label,
    drawing option). *)
Record TLegend : Type := mkLegend {
  legend_box : Q * Q * Q * Q;
  legend_fill : Z;
  legend_rows : list (pointer * string * string)
}.

(** The loop of [FillLegend]: [igraph] runs up to [NGraphs()], [n] counts
    the rounds left. *)
Fixpoint FillLegend_loop (n igraph : nat) (option : string) (mg : MultiGraph)
    (legend : TLegend) : outcome TLegend :=
  match n with
  | O => Ret legend
  | S n' =>
      p ← index (_mgraph mg) igraph;
      l ← index (_legend_entries mg) igraph;
      FillLegend_loop n' (S igraph) option mg
        (mkLegend (legend_box legend) (legend_fill legend)
           (legend_rows legend ++ [(p, l, option)]))
  end.

Definition FillLegend (option : string) (mg : MultiGraph) (legend : TLegend)
    : outcome TLegend :=
  FillLegend_loop (N.to_nat (NGraphs mg)) 0 option mg legend.

Definition GetLegend (option : string) (mg : MultiGraph) : outcome TLegend :=
  FillLegend option mg (mkLegend (0.6, 0.4, 0.9, 0.9)%Q 0 []).

(** A sequence of [AddGraph] calls. *)
Fixpoint AddGraphs (adds : list (string * pointer)) (mg : MultiGraph) (h : heap)
    : outcome (MultiGraph * heap) :=
  match adds with
  | [] => Ret (mg, h)
  | (legend_entry, graph) :: rest =>
      '(mg, h) ← AddGraph legend_entry graph mg h;
      AddGraphs rest mg h
  end.

(** The attributes of a graph that [FormatGraph] writes: marker size, marker
    colour, marker style, line colour, line width, line style. *)
Definition style_of (g : TGraphAsymmErrors) : Q * Z * Z * Z * Z * Z :=
  (fMarkerSize g, fMarkerColor g, fMarkerStyle g, fLineColor g, fLineWidth g,
   fLineStyle g).

(** Both vectors grow together. *)
Definition well_formed (mg : MultiGraph) : Prop :=
  length (_legend_entries mg) = length (_mgraph mg).

End MultiGraph.

(** * Notions used in the statements *)

Import gXSecComp.
Import MultiGraph.

(** The rounds of the [while(1)] loop of [TrimGraph], which the code takes
    for the decades of a graph: a round begins at the index [fp], where the
    loop sets xmin = x[fp] and xmax = 10 * xmin (a product of doubles) and
    restarts its stride counter; it ends at the last index [lp] it visits,
    the first point beyond xmax if there is one; [ndec] is the count the
    round compares with the maximum.  The next round begins at [lp + 1].
    These are not the factor-of-10 bins of the x-axis: see [in_bin] and
    [in_exact_bin] below. *)
Record decade : Type := mkDecade {
  first_point : nat;
  last_point : nat;
  ndec_points : nat
}.

Fixpoint decades_from (fuel : nat) (gr : TGraph) (fp lp : nat) : list decade :=
  match fuel with
  | O => []
  | S fuel' =>
      let np := GetN gr in
      match GetX gr fp with
      | Ret xmin =>
          match scan_decade gr xmin (mul_double 10 xmin) (np - fp) fp
                  (replicate np false) lp 0 with
          | Ret (_, lp, ndec) =>
              mkDecade fp lp ndec ::
                (if lp =? np - 1 then [] else decades_from fuel' gr (S lp) lp)
          | _ => []
          end
      | _ => []
      end
  end.

Definition decades (gr : TGraph) : list decade :=
  decades_from (S (GetN gr)) gr 0 0.

(** What the first loop of a round finds: the last index and the count. *)
Definition scan_found (o : outcome (list bool * nat * nat)) : option (nat * nat) :=
  match o with
  | Ret (_, lp, ndec) => Some (lp, ndec)
  | _ => None
  end.

(** The test of the first loop on a point. *)
Definition inside_decade (xmin xmax : Q) (p : Q * Q) : bool :=
  Qlt_bool xmin p.1 && Qle_bool p.1 xmax.

(** The points of [gr] with indices [first] to [last]. *)
Definition points_between (gr : TGraph) (first last : nat) : TGraph :=
  take (S last - first) (drop first gr).

(** The edges of the decades (factor-of-10 bins) of a curve that begins at
    the abscissa [x0]: the first edge is [x0], each next one is ten times
    the one before, the product of doubles that the loop computes for
    [xmax]. *)
Fixpoint bin_edge (x0 : Q) (k : nat) : Q :=
  match k with
  | O => x0
  | S k' => mul_double 10 (bin_edge x0 k')
  end.

(** The bin [k]: the abscissas above the edge [k] up to the edge [k + 1],
    which belongs to the bin as [xmax] belongs to a round of the loop; the
    first bin holds the first abscissa as well. *)
Definition in_bin (x0 : Q) (k : nat) (p : Q * Q) : bool :=
  (if k =? 0 then Qle_bool x0 p.1 else Qlt_bool (bin_edge x0 k) p.1) &&
  Qle_bool p.1 (bin_edge x0 (S k)).

(** The decade [k] as the specification words it: the factor-of-10 bin
    from [x0 * 10^k], included, to [x0 * 10^(k+1)], excluded, the products
    exact. *)
Definition in_exact_bin (x0 : Q) (k : nat) (p : Q * Q) : bool :=
  Qle_bool (x0 * 10 ^ Z.of_nat k) p.1 && Qlt_bool p.1 (x0 * 10 ^ Z.of_nat (S k)).

(** The number of commas of a string. *)
Fixpoint commas (s : string) : nat :=
  match s with
  | EmptyString => 0
  | String c s' => (if Ascii.eqb c "," then 1 else 0) + commas s'
  end.

(** The graph of a category in the reference directory, null when no
    reference directory is open. *)
Definition reference_graph (g : Globals) (plot : string) : option TGraph :=
  match gDirRef0 g with
  | Some dir0 => dir0 !! plot
  | None => None
  end.

(** What [Draw] has done when it returns early: the header in the title
    pad, and the selection of the cross-section pad. *)
Definition header_only (title : option string) (g : Globals) : Globals :=
  emit [EvCd gPadXSecs] (emit [EvCd gPadTitle; EvHeader title] g).

(** The indices of a decade, in order. *)
Definition decade_indices (d : decade) : list nat :=
  seq (first_point d) (S (last_point d) - first_point d).

(** The stride of a decade under the maximum [K]: the [keep_rate] that
    [TrimGraph] computes from the count of the decade (0 where it has
    none).  The flag that [TrimGraph] leaves at the index [j] of the decade
    is set when the decade counts more than [K] points and the place of [j]
    in the decade is no multiple of the stride. *)
Definition stride (K : Z) (d : decade) : Z :=
  match keep_rate_of K (ndec_points d) with
  | Ret keep_rate => keep_rate
  | _ => 0%Z
  end.

Definition dropped (K : Z) (d : decade) (j : nat) : bool :=
  (Z.of_nat (ndec_points d) >? K)%Z &&
  negb (Z.rem (Z.of_nat (j - first_point d)) (stride K d) =? 0)%Z.

(** The names of the probes with their codes, in the order in which
    [DirNameToProbe] and [DirNameToTarget] test them. *)
Definition probe_names `{PDGLibrary} : list (string * Z) :=
  [("nu_e_bar", kPdgAntiNuE); ("nu_e", kPdgNuE);
   ("nu_mu_bar", kPdgAntiNuMu); ("nu_mu", kPdgNuMu);
   ("nu_tau_bar", kPdgAntiNuTau); ("nu_tau", kPdgNuTau)].

(** The six codes differ from one another. *)
Definition pdg_codes_distinct `{PDGLibrary} : Prop := NoDup (probe_names.*2).

(** The target that the text [tgt] after the name of the probe stands for:
    "n" and "H1" are the free nucleons, anything else is a nucleus whose
    label is the text in parentheses. *)
Definition decoded_target (tgt : string) : Target :=
  let free_n := String.eqb tgt "n" in
  let free_p := String.eqb tgt "H1" in
  mkTarget (if free_p || free_n then "" else "(" +:+ tgt +:+ ")")
    (negb free_n) (negb free_p) (free_p || free_n).

(** The names of the graphs that [MakePlotsCurrDir] asks for. *)
Definition requested_plots (p : Probe) (t : Target) : list string :=
  (MakePlotsCurrDir_calls p t).*1.

(** How often a name is in a list of names. *)
Definition times_requested (plot : string) (plots : list string) : nat :=
  length (List.filter (String.eqb plot) plots).

(** The style that [FormatGraph] gives the graph at index [i]. *)
Definition style_at (i : nat) : option (Q * Z * Z * Z * Z * Z) :=
  c ← colors !! (i mod 10);
  m ← markers !! (i / 10);
  Some (1%Q, c, m, c, 2%Z, 1%Z).

(** The rows of the legend of an aggregator drawn with [option]. *)
Definition rows_of (option : string) (mg : MultiGraph) : list (pointer * string * string) :=
  (fun e => (e.1, e.2, option)) <$> zip (_mgraph mg) (_legend_entries mg).

(** A graph that can be written to: a non-null address that the store
    holds. *)
Definition live (h : heap) (graph : pointer) : Prop :=
  exists l, graph = Some l /\ is_Some (h !! l).

(** A category is present when the current directory or the reference
    directory holds its graph. *)
Definition present (dir : TDirectory) (ref : option TDirectory) (plot : string) : bool :=
  match dir !! plot, match ref with Some dir0 => dir0 !! plot | None => None end with
  | None, None => false
  | _, _ => true
  end.

(** The directory that [OpenDir] finds under a name in the reference file,
    null without a reference file. *)
Definition reference_directory (file0 : option TFile) (name : string)
    : option TDirectory :=
  match file0 with
  | Some f => TFile_Get f name
  | None => None
  end.

(** The requested plots of the directory [name] that are present, when the
    directory is in the file and its name can be decoded. *)
Definition directory_pages `{PDGLibrary} (file : TFile) (file0 : option TFile)
    (name : string) : nat :=
  match TFile_Get file name,
        DirNameToTarget name (gCurrProbePdg (DirNameToProbe name)) with
  | Some dir, Ret target =>
      length (List.filter (present dir (reference_directory file0 name))
                (requested_plots (DirNameToProbe name) target))
  | _, _ => 0
  end.

(** What [Draw] appends to the output when it goes on to the page, given
    the two graphs and the trimmed reference graph. *)
Definition page_body `{RootSystem} (opt : CmdLine) (gr_curr gr_ref0 gr_ref0_trim : option TGraph)
    : list RenderEvent :=
  [EvFormat gr_curr 1 1 1 1 1 1.0; EvFormat gr_ref0_trim 1 1 1 2 4 0.7] ++
  DrawFrame gr_curr gr_ref0 (Some gPadXSecs) "E_{#nu} (GeV)"
    "#sigma (10^{-38} cm^{2})" 0.5 1.5 ++
  Draw_graph gr_curr "L" ++
  Draw_graph gr_ref0_trim "P" ++
  [EvLegend ((gr_curr, gLabelCurr opt, "L") ::
             (if gOptHaveRef opt then [(gr_ref0_trim, gLabelRef0 opt, "P")] else []))] ++
  (if gOptHaveRef opt then
     [EvCd gPadRatio] ++
     DrawFrame (DrawRatio gr_curr gr_ref0).1 None (Some gPadRatio) "E_{#nu} (GeV)"
       (Form "%s / %s" [gLabelCurr opt; gLabelRef0 opt]) 0.9 1.1 ++
     Draw_graph (DrawRatio gr_curr gr_ref0).1 "L"
   else []).

Definition page_events `{RootSystem} (opt : CmdLine) (gr_curr gr_ref0 gr_ref0_trim : option TGraph)
    : list RenderEvent :=
  page_body opt gr_curr gr_ref0 gr_ref0_trim ++ [EvUpdate; EvNewPage].

(** * Stand-ins for the environment and sample data

    The definitions of this part are not code of the repository: they give
    the parameters of the embedding concrete values, so that the program can
    be evaluated on examples. *)

Module Samples.

(** Modelled from the spec: [TGraph::Eval] belongs to ROOT; the spec names a
    piecewise-linear evaluation over the samples of the curve itself.  A
    curve with one point is constant; outside its range a curve is
    continued along its first or last segment. *)
Fixpoint interpolate (pts : TGraph) (x : Q) : Q :=
  match pts with
  | [] => 0
  | (x0, y0) :: rest =>
      match rest with
      | [] => y0
      | (x1, y1) :: rest' =>
          if Qle_bool x x1 || bool_decide (rest' = []) then
            if Qeq_bool x0 x1 then y0
            else (y0 + (x - x0) * (y1 - y0) / (x1 - x0))%Q
          else interpolate rest x
      end
  end.

(** The least and the greatest of a list of doubles, 0 for no point. *)
Definition Qmin_list (l : list Q) : Q :=
  match l with
  | [] => 0
  | a :: l' => foldr Qmin a l'
  end.
Definition Qmax_list (l : list Q) : Q :=
  match l with
  | [] => 0
  | a :: l' => foldr Qmax a l'
  end.

(** A ROOT with the given files, and no other accessible path. *)
Definition root_with (files : list (string * TFile)) : RootSystem := {|
  Eval := interpolate;
  GetXaxis_GetXmin := fun gr => Qmin_list (map fst gr);
  GetXaxis_GetXmax := fun gr => Qmax_list (map fst gr);
  GetYaxis_GetXmin := fun gr => Qmin_list (map snd gr);
  GetYaxis_GetXmax := fun gr => Qmax_list (map snd gr);
  AccessPathName := fun path =>
    negb (bool_decide (is_Some (List.find (fun kv => String.eqb kv.1 path) files)));
  OpenFile := fun path =>
    from_option snd [] (List.find (fun kv => String.eqb kv.1 path) files)
|}.

(** The neutrino codes of the Monte Carlo particle numbering scheme. *)
Definition pdg_numbering : PDGLibrary := {|
  kPdgNuE := 12;
  kPdgAntiNuE := -12;
  kPdgNuMu := 14;
  kPdgAntiNuMu := -14;
  kPdgNuTau := 16;
  kPdgAntiNuTau := -16;
  IsNeutrino := fun pdg => bool_decide (pdg ∈ [12; 14; 16]%Z);
  IsAntiNeutrino := fun pdg => bool_decide (pdg ∈ [-12; -14; -16]%Z)
|}.

(** A command line given by its options and their arguments. *)
Definition command_line (args : list (ascii * string)) : CmdLnArgParser := {|
  OptionExists := fun c =>
    bool_decide (is_Some (List.find (fun kv => Ascii.eqb kv.1 c) args));
  ArgAsString := fun c =>
    from_option snd "" (List.find (fun kv => Ascii.eqb kv.1 c) args)
|}.

(** Eight points: five from 1 to 5, then 11, 20 and 300. *)
Definition dense_curve : TGraph :=
  [(1, 1); (2, 1); (3, 1); (4, 1); (5, 1); (11, 1); (20, 1); (300, 1)]%Q.

(** Seven points, at most three in each factor-of-10 bin from 1 on; the
    four points after x = 50 lie within a factor of 10 of it. *)
Definition straddling_curve : TGraph :=
  [(1, 1); (11, 1); (50, 1); (60, 1); (150, 1); (160, 1); (170, 1)]%Q.

(** Five points at the doubles 0.0007, 0.02, 0.7, 2 and 7.  The double 0.7
    lies below 1000 times the double 0.0007, and ten times the double 0.7
    is the double 7. *)
Definition crossing_curve : TGraph :=
  [(double (7 # 10000), 1); (double (2 # 100), 1); (double (7 # 10), 1); (2, 1); (7, 1)]%Q.

(** Points at the doubles 0.3, 1, 3 and 4: ten times the double 0.3 is the
    double 3, above ten times the rational 3/10 that the double 0.3 lies
    below. *)
Definition tenths_curve : TGraph :=
  [(double (3 # 10), 1); (1, 1); (3, 1); (4, 1)]%Q.

(** Four points, at most one inside each decade. *)
Definition sparse_curve : TGraph := [(1, 5); (4, 6); (50, 7); (900, 8)]%Q.

(** Curves with a zero: [flat_zero] vanishes at 1, [flat_two] does not. *)
Definition flat_zero : TGraph := [(1, 0)]%Q.
Definition flat_two : TGraph := [(1, 2)]%Q.

(** A file with one directory, holding one graph. *)
Definition one_graph_file (dir plot : string) (gr : TGraph) : TFile :=
  [(dir, {[ plot := gr ]})].

(** A state in which the current directory holds "tot_cc" only and the
    reference directory holds "tot_cc" and "tot_nc". *)
Definition reference_only_state : Globals :=
  mkGlobals (mkCmdLine "new.root" "old.root" "xsec.ps" true "current" "reference")
    None None
    (Some {[ "tot_cc" := sparse_curve ]})
    (Some {[ "tot_cc" := sparse_curve; "tot_nc" := dense_curve ]})
    "nu_mu_C12" (mkProbe "" 0 false false) (mkTarget "" false false false) [] [].

(** A state with the same current directory and no reference. *)
Definition no_reference_state : Globals :=
  mkGlobals (mkCmdLine "new.root" "" "xsec.ps" false "current" "")
    None None
    (Some {[ "tot_cc" := sparse_curve ]})
    None
    "nu_mu_C12" (mkProbe "" 0 false false) (mkTarget "" false false false) [] [].

(** Two ROOT files with one directory each: the current one holds "tot_cc",
    the reference one "tot_cc" and "tot_nc". *)
Definition two_files : list (string * TFile) :=
  [("new.root", [("nu_mu_C12", {[ "tot_cc" := sparse_curve ]})]);
   ("old.root", [("nu_mu_C12", {[ "tot_cc" := sparse_curve;
                                  "tot_nc" := dense_curve ]})])].

(** Two graphs in a store, and an aggregator that holds both. *)
Definition blank_graph (points : TGraph) : TGraphAsymmErrors :=
  mkGraph points 0 0 0 0 0 0.

Definition two_graphs : heap :=
  {[ 1%positive := blank_graph flat_zero; 2%positive := blank_graph flat_two ]}.

Definition two_entries : MultiGraph :=
  mkMultiGraph [Some 1%positive; Some 2%positive] ["first"; "second"].

(** A state whose current file has one directory, with two graphs in it,
    and no reference file. *)
Definition one_directory_state : Globals :=
  mkGlobals (mkCmdLine "new.root" "" "xsec.ps" false "current" "")
    (Some [("nu_mu_C12", {[ "tot_cc" := sparse_curve; "qel_cc_n" := dense_curve ]})])
    None None None
    "nu_mu_C12" (mkProbe "" 0 false false) (mkTarget "" false false false) [] [].

(** A state whose reference directory holds a graph of no point. *)
Definition empty_reference_state : Globals :=
  mkGlobals (mkCmdLine "new.root" "old.root" "xsec.ps" true "current" "reference")
    None None
    (Some {[ "tot_cc" := sparse_curve ]})
    (Some {[ "tot_cc" := [] ]})
    "nu_mu_C12" (mkProbe "" 0 false false) (mkTarget "" false false false) [] [].

(** The state in which [main] ends on the current file alone. *)
Definition two_files_run : Globals :=
  match main (H := root_with two_files) (H0 := pdg_numbering)
          (command_line [("f"%char, "new.root")]) with
  | Ret g => g
  | _ => initial_Globals initial_CmdLine
  end.

End Samples.

(** * Properties *)

Import Samples.

(** Unfolds the sequencing of outcomes. *)
Ltac outcome_simpl :=
  repeat (unfold mbind, mret, outcome_bind, outcome_ret in *; simpl in *).

(** ** Rounding of doubles *)

Section Binary64.
Local Open Scope Q_scope.

Lemma pow2_pos e : 0 < pow2 e.
Proof. apply Qpower_0_lt. reflexivity. Qed.

Lemma pow2_plus a b : pow2 (a + b) == pow2 a * pow2 b.
Proof. apply Qpower_plus. discriminate. Qed.

Lemma pow2_succ a : pow2 (a + 1) == 2 * pow2 a.
Proof. rewrite pow2_plus. unfold pow2 at 2. rewrite Qpower_1_r. ring. Qed.

Lemma pow2_le a b : (a <= b)%Z -> pow2 a <= pow2 b.
Proof. intros H. apply Qpower_le_compat_l; [exact H | discriminate]. Qed.

Lemma pow2_lt_inv a b : pow2 a < pow2 b -> (a < b)%Z.
Proof. intros H. eapply Qpower_lt_compat_l_inv; [exact H | reflexivity]. Qed.

Lemma pow2_Z k : (0 <= k)%Z -> pow2 k == inject_Z (2 ^ k).
Proof. intros Hk. unfold pow2. now rewrite (Zpower_Qpower 2 k Hk). Qed.

Lemma ilog2_spec x : 0 < x -> pow2 (ilog2 x) <= x /\ x < pow2 (ilog2 x + 1).
Proof.
  intros Hx. unfold ilog2.
  destruct x as [n d]. cbn [Qnum Qden].
  assert (Hn : (0 < n)%Z) by (unfold Qlt in Hx; simpl in Hx; lia).
  set (a := Z.log2 n). set (b := Z.log2 (Z.pos d)).
  destruct (Z.log2_spec n Hn) as [Ha1 Ha2]. fold a in Ha1, Ha2.
  destruct (Z.log2_spec (Z.pos d) ltac:(lia)) as [Hb1 Hb2]. fold b in Hb1, Hb2.
  assert (Ha0 : (0 <= a)%Z) by apply Z.log2_nonneg.
  assert (Hb0 : (0 <= b)%Z) by apply Z.log2_nonneg.
  assert (Hx' : n # d == inject_Z n / inject_Z (Z.pos d)) by apply Qmake_Qdiv.
  assert (Hk : pow2 (a - b) == inject_Z (2 ^ a) / inject_Z (2 ^ b)).
  { unfold pow2. rewrite Qpower_minus by discriminate.
    fold (pow2 a) (pow2 b). now rewrite !pow2_Z. }
  assert (HA1 : inject_Z (2 ^ a) <= inject_Z n) by (rewrite <- Zle_Qle; exact Ha1).
  assert (HA2 : inject_Z n < 2 * inject_Z (2 ^ a)).
  { change 2 with (inject_Z 2). rewrite <- inject_Z_mult, <- Zlt_Qlt.
    rewrite Z.pow_succ_r in Ha2 by lia. lia. }
  assert (HB1 : inject_Z (2 ^ b) <= inject_Z (Z.pos d)) by (rewrite <- Zle_Qle; exact Hb1).
  assert (HB2 : inject_Z (Z.pos d) < 2 * inject_Z (2 ^ b)).
  { change 2 with (inject_Z 2). rewrite <- inject_Z_mult, <- Zlt_Qlt.
    rewrite Z.pow_succ_r in Hb2 by lia. lia. }
  assert (HB0 : 0 < inject_Z (2 ^ b)).
  { change 0 with (inject_Z 0). rewrite <- Zlt_Qlt. lia. }
  assert (HD0 : 0 < inject_Z (Z.pos d)) by reflexivity.
  assert (HA0 : 0 < inject_Z (2 ^ a)).
  { change 0 with (inject_Z 0). rewrite <- Zlt_Qlt. lia. }
  set (A := inject_Z (2 ^ a)) in *. set (B := inject_Z (2 ^ b)) in *.
  set (N := inject_Z n) in *. set (D := inject_Z (Z.pos d)) in *.
  destruct (Qle_bool (pow2 (a - b)) (n # d)) eqn:Hcmp.
  - apply Qle_bool_iff in Hcmp. split; [exact Hcmp|].
    rewrite pow2_succ, Hk, Hx'.
    apply Qlt_shift_div_r; [exact HD0|].
    setoid_replace (2 * (A / B) * D) with ((2 * A * D) / B) using relation Qeq by (field; lra).
    apply Qlt_shift_div_l; [exact HB0|]. nra.
  - assert (Hlt : n # d < pow2 (a - b)).
    { apply Qnot_le_lt. intros Hle. apply Qle_bool_iff in Hle. congruence. }
    replace (a - b - 1 + 1)%Z with (a - b)%Z by lia. split; [|exact Hlt].
    assert (Hhalf : pow2 (a - b) == 2 * pow2 (a - b - 1)).
    { rewrite <- pow2_succ. now replace (a - b - 1 + 1)%Z with (a - b)%Z by lia. }
    assert (Hgoal : 2 * pow2 (a - b - 1) <= 2 * (n # d)); [|lra].
    rewrite <- Hhalf, Hk, Hx'.
    apply Qle_shift_div_r; [exact HB0|].
    setoid_replace (2 * (N / D) * B) with ((2 * N * B) / D) using relation Qeq by (field; lra).
    apply Qle_shift_div_l; [exact HD0|]. nra.
Qed.

Lemma ilog2_mono x y : 0 < x -> x <= y -> (ilog2 x <= ilog2 y)%Z.
Proof.
  intros Hx Hxy.
  destruct (ilog2_spec x Hx) as [Hx1 _].
  destruct (ilog2_spec y ltac:(lra)) as [_ Hy2].
  assert (H : pow2 (ilog2 x) < pow2 (ilog2 y + 1)) by lra.
  apply pow2_lt_inv in H. lia.
Qed.

Lemma rne_bounds q : (Qfloor q <= rne q <= Qfloor q + 1)%Z.
Proof.
  unfold rne. destruct (Qcompare _ _); [destruct (Z.even _)| |]; lia.
Qed.

Lemma rne_ge_int q n : inject_Z n <= q -> (n <= rne q)%Z.
Proof.
  intros H. pose proof (rne_bounds q) as [Hb _].
  pose proof (Qfloor_resp_le _ _ H) as Hf. rewrite Qfloor_Z in Hf. lia.
Qed.

Lemma rne_le_int q n : q <= inject_Z n -> (rne q <= n)%Z.
Proof.
  intros H. pose proof (Qfloor_resp_le _ _ H) as Hf. rewrite Qfloor_Z in Hf.
  destruct (Z.eq_dec (Qfloor q) n) as [Heq|Hne].
  - unfold rne. pose proof (Qfloor_le q) as Hle. rewrite Heq in *.
    destruct (Qcompare_spec (q - inject_Z n) (1 # 2)) as [He|Hl|Hg]; try lra. lia.
  - pose proof (rne_bounds q). lia.
Qed.

Lemma rne_mono q1 q2 : q1 <= q2 -> (rne q1 <= rne q2)%Z.
Proof.
  intros H. pose proof (Qfloor_resp_le _ _ H) as Hf.
  destruct (Z.eq_dec (Qfloor q1) (Qfloor q2)) as [Heq|Hne].
  - unfold rne. rewrite Heq.
    destruct (Qcompare_spec (q1 - inject_Z (Qfloor q2)) (1 # 2)) as [He1|Hl1|Hg1];
      destruct (Qcompare_spec (q2 - inject_Z (Qfloor q2)) (1 # 2)) as [He2|Hl2|Hg2];
      try lra; try lia; destruct (Z.even (Qfloor q2)); lia.
  - pose proof (rne_bounds q1). pose proof (rne_bounds q2). lia.
Qed.

Lemma round53_positive x :
  0 < x -> round53 x = inject_Z (rne (x / pow2 (ilog2 x - 52))) * pow2 (ilog2 x - 52).
Proof.
  intros Hx. unfold round53.
  destruct (Qeq_bool x 0) eqn:H0; [apply Qeq_bool_iff in H0; lra|].
  destruct x as [n d]. assert (Hn : (0 < n)%Z) by (unfold Qlt in Hx; simpl in Hx; lia).
  cbn [Qabs]. now rewrite Z.abs_eq by lia.
Qed.

(** A rounded value stays in the binade of what is rounded. *)
Lemma round53_binade x :
  0 < x -> pow2 (ilog2 x) <= round53 x <= pow2 (ilog2 x + 1).
Proof.
  intros Hx. rewrite (round53_positive x Hx).
  destruct (ilog2_spec x Hx) as [H1 H2].
  set (e := (ilog2 x - 52)%Z).
  pose proof (pow2_pos e) as He.
  assert (Hlo : pow2 (ilog2 x) == inject_Z (2 ^ 52) * pow2 e).
  { rewrite <- pow2_Z by lia. rewrite <- pow2_plus. unfold e.
    now replace (52 + (ilog2 x - 52))%Z with (ilog2 x) by lia. }
  assert (Hhi : pow2 (ilog2 x + 1) == inject_Z (2 ^ 53) * pow2 e).
  { rewrite <- pow2_Z by lia. rewrite <- pow2_plus. unfold e.
    now replace (53 + (ilog2 x - 52))%Z with (ilog2 x + 1)%Z by lia. }
  split.
  - rewrite Hlo. apply Qmult_le_compat_r; [|lra].
    rewrite <- Zle_Qle. apply rne_ge_int.
    apply Qle_shift_div_l; [exact He|]. now rewrite <- Hlo.
  - rewrite Hhi. apply Qmult_le_compat_r; [|lra].
    rewrite <- Zle_Qle. apply rne_le_int.
    apply Qle_shift_div_r; [exact He|]. rewrite <- Hhi. lra.
Qed.

Lemma round53_pos x : 0 < x -> 0 < round53 x.
Proof.
  intros Hx. destruct (round53_binade x Hx) as [H _].
  pose proof (pow2_pos (ilog2 x)). lra.
Qed.

(** Rounding loses less than half of a positive value. *)
Lemma round53_half x : 0 < x -> x < 2 * round53 x.
Proof.
  intros Hx. destruct (round53_binade x Hx) as [H _].
  destruct (ilog2_spec x Hx) as [_ H2]. rewrite pow2_succ in H2. lra.
Qed.

(** Rounding is monotone (on positive values). *)
Lemma round53_mono x y : 0 < x -> x <= y -> round53 x <= round53 y.
Proof.
  intros Hx Hxy. assert (Hy : 0 < y) by lra.
  pose proof (ilog2_mono x y Hx Hxy) as Hlog.
  destruct (Z.eq_dec (ilog2 x) (ilog2 y)) as [Heq|Hne].
  - rewrite (round53_positive x Hx), (round53_positive y Hy), Heq.
    pose proof (pow2_pos (ilog2 y - 52)) as He.
    apply Qmult_le_compat_r; [|lra].
    rewrite <- Zle_Qle. apply rne_mono.
    apply Qmult_le_compat_r; [exact Hxy|].
    apply Qlt_le_weak, Qinv_lt_0_compat, He.
  - destruct (round53_binade x Hx) as [_ Hx2].
    destruct (round53_binade y Hy) as [Hy1 _].
    pose proof (pow2_le (ilog2 x + 1) (ilog2 y) ltac:(lia)). lra.
Qed.

Lemma round53_comp x y : 0 < x -> x == y -> round53 x == round53 y.
Proof.
  intros Hx Hxy. apply Qle_antisym; apply round53_mono; lra.
Qed.

End Binary64.

(** ** TrimGraph *)

Section TrimGraph_facts.

Implicit Types (gr : TGraph) (remv : list bool).

Lemma GetX_in_range gr i :
  i < length gr -> exists x, GetX gr i = Ret x.
Proof.
  intros Hi. destruct (lookup_lt_is_Some_2 gr i Hi) as [p Hp].
  exists p.1. unfold GetX, index. rewrite Hp. reflexivity.
Qed.

(** The first loop leaves a vector of clear flags clear. *)
Lemma scan_decade_clear gr xmin xmax n : forall i m lp ndec r lp' ndec',
  scan_decade gr xmin xmax n i (replicate m false) lp ndec = Ret (r, lp', ndec') ->
  r = replicate m false.
Proof.
  induction n as [|n IH]; intros i m lp ndec r lp' ndec' Hscan; simpl in Hscan.
  - congruence.
  - rewrite insert_replicate in Hscan.
    destruct (GetX gr i) as [x| | | |]; outcome_simpl; try discriminate.
    destruct (Qlt_bool xmax x).
    + congruence.
    + eapply IH, Hscan.
Qed.

(** What the first loop finds does not depend on the flags it clears. *)
Lemma scan_decade_found gr xmin xmax n : forall i remv1 remv2 lp ndec,
  scan_found (scan_decade gr xmin xmax n i remv1 lp ndec) =
  scan_found (scan_decade gr xmin xmax n i remv2 lp ndec).
Proof.
  induction n as [|n IH]; intros i remv1 remv2 lp ndec; simpl.
  - reflexivity.
  - destruct (GetX gr i) as [x| | | |]; outcome_simpl; try reflexivity.
    destruct (Qlt_bool xmax x); [reflexivity | apply IH].
Qed.

(** Inside the graph the first loop returns; it writes no flag below its
    first index, clears the flag of its first index, and stops on an index
    it has visited. *)
Lemma scan_decade_returns gr xmin xmax n : forall i remv lp ndec,
  i + n <= length gr ->
  exists r lp' ndec',
    scan_decade gr xmin xmax n i remv lp ndec = Ret (r, lp', ndec') /\
    length r = length remv /\
    (0 < n -> i <= lp' < i + n) /\
    (forall j, j < i -> r !! j = remv !! j) /\
    (0 < n -> i < length remv -> r !! i = Some false).
Proof.
  induction n as [|n IH]; intros i remv lp ndec Hn; simpl.
  - exists remv, lp, ndec. repeat split; try lia; auto.
  - destruct (GetX_in_range gr i) as [x Hx]; [lia|]. rewrite Hx. outcome_simpl.
    destruct (Qlt_bool xmax x).
    + eexists _, _, _. split; [reflexivity|].
      rewrite length_insert. repeat split; try lia.
      * intros j Hj. apply list_lookup_insert_ne. lia.
      * intros _ Hi. apply list_lookup_insert_eq. lia.
    + destruct (IH (S i) (<[i:=false]> remv) i
                  (if Qlt_bool xmin x && Qle_bool x xmax then S ndec else ndec))
        as (r & lp' & ndec' & Hscan & Hlen & Hlp & Hframe & _); [lia|].
      exists r, lp', ndec'. split; [exact Hscan|].
      rewrite length_insert in Hlen. repeat split; try lia.
      * destruct n; [simpl in Hscan; injection Hscan; lia | lia].
      * destruct n; [simpl in Hscan; injection Hscan; lia | lia].
      * intros j Hj. rewrite Hframe by lia. apply list_lookup_insert_ne. lia.
      * intros _ Hi. rewrite Hframe by lia. apply list_lookup_insert_eq. lia.
Qed.

(** With a stride that is not zero the second loop returns; it writes no
    flag below its first index, and when its counter starts at zero it
    leaves the flag of its first index alone. *)
Lemma throw_points_returns keep_rate n : forall i ithrow remv,
  keep_rate <> 0%Z ->
  exists r,
    throw_points keep_rate n i ithrow remv = Ret r /\
    length r = length remv /\
    (forall j, j < i -> r !! j = remv !! j) /\
    (ithrow = 0%Z -> r !! i = remv !! i).
Proof.
  induction n as [|n IH]; intros i ithrow remv Hk; simpl.
  - exists remv. auto.
  - unfold int_rem. destruct (Z.eqb_spec keep_rate 0) as [|_]; [contradiction|].
    outcome_simpl.
    destruct (Z.eqb_spec (Z.rem ithrow keep_rate) 0) as [Hr|Hr].
    + destruct (IH (S i) (ithrow + 1)%Z remv Hk) as (r & Hrun & Hlen & Hframe & _).
      exists r. repeat split; auto.
    + destruct (IH (S i) (ithrow + 1)%Z (<[i:=true]> remv) Hk)
        as (r & Hrun & Hlen & Hframe & _).
      exists r. split; [exact Hrun|]. rewrite length_insert in Hlen.
      repeat split; auto.
      * intros j Hj. rewrite Hframe by lia. apply list_lookup_insert_ne. lia.
      * intros ->. rewrite Z.rem_0_l in Hr by assumption. contradiction.
Qed.

(** For a positive maximum below the count, the stride is at least 1. *)
Lemma keep_rate_of_positive (K : Z) (ndec : nat) :
  (0 < K)%Z -> (K < Z.of_nat ndec)%Z ->
  exists keep_rate, keep_rate_of K ndec = Ret keep_rate /\ (1 <= keep_rate)%Z.
Proof.
  intros HK Hn. unfold keep_rate_of, FloorNint, div_double.
  destruct (Z.eqb_spec K 0) as [|_]; [lia|].
  destruct (Nat.eqb_spec ndec 0) as [|_]; [lia|]. cbn [orb].
  eexists. split; [reflexivity|].
  assert (HKq : (0 < inject_Z K)%Q).
  { change 0%Q with (inject_Z 0). rewrite <- Zlt_Qlt. lia. }
  assert (Hnq : (inject_Z K < inject_Z (Z.of_nat ndec))%Q) by (rewrite <- Zlt_Qlt; lia).
  set (k := inject_Z K) in *. set (n := inject_Z (Z.of_nat ndec)) in *.
  assert (Hq : (0 < k / n)%Q) by (apply Qlt_shift_div_l; lra).
  assert (Hq1 : (k / n <= 1)%Q) by (apply Qle_shift_div_r; lra).
  pose proof (round53_pos _ Hq) as Hp.
  assert (Hone : (round53 1 == 1)%Q) by (vm_compute; reflexivity).
  pose proof (round53_mono _ _ Hq Hq1) as Hp1. rewrite Hone in Hp1.
  set (keep_prob := round53 (k / n)) in *.
  assert (Hinv : (1 <= 1 / keep_prob)%Q) by (apply Qle_shift_div_l; lra).
  pose proof (round53_mono 1 _ ltac:(lra) Hinv) as Hr.
  apply Qfloor_resp_le in Hr.
  replace (Qfloor (round53 1)) with 1%Z in Hr by (vm_compute; reflexivity). exact Hr.
Qed.

(** For a count below twice the positive maximum, and below 2^31, the
    stride is exactly 1. *)
Lemma keep_rate_of_one (K : Z) (ndec : nat) :
  (0 < K)%Z -> (K < Z.of_nat ndec)%Z -> (Z.of_nat ndec < 2 * K)%Z ->
  (Z.of_nat ndec < 2 ^ 31)%Z ->
  keep_rate_of K ndec = Ret 1%Z.
Proof.
  intros HK Hn Htwice Hint.
  destruct (keep_rate_of_positive K ndec HK Hn) as (r & Hr & Hge). rewrite Hr. f_equal.
  unfold keep_rate_of, FloorNint, div_double in Hr.
  destruct (Z.eqb_spec K 0) as [|_]; [lia|].
  destruct (Nat.eqb_spec ndec 0) as [|_]; [lia|]. cbn [orb] in Hr.
  injection Hr as <-. apply Z.le_antisymm; [|exact Hge].
  assert (HKq : (0 < inject_Z K)%Q).
  { change 0%Q with (inject_Z 0). rewrite <- Zlt_Qlt. lia. }
  assert (Hnq : (inject_Z (Z.of_nat ndec) + 1 <= 2 * inject_Z K)%Q).
  { change 1%Q with (inject_Z 1). change 2%Q with (inject_Z 2).
    rewrite <- inject_Z_plus, <- inject_Z_mult, <- Zle_Qle. lia. }
  assert (Hn31 : (inject_Z (Z.of_nat ndec) < inject_Z (2 ^ 31))%Q)
    by (rewrite <- Zlt_Qlt; exact Hint).
  assert (Hn0 : (inject_Z K < inject_Z (Z.of_nat ndec))%Q) by (rewrite <- Zlt_Qlt; lia).
  set (k := inject_Z K) in *. set (n := inject_Z (Z.of_nat ndec)) in *.
  set (low := ((1 # 2) + (1 # 4294967296))%Q).
  assert (Hlow : (low <= k / n)%Q).
  { apply Qle_shift_div_l; [lra|]. unfold low.
    change (inject_Z (2 ^ 31)) with (2147483648 # 1)%Q in Hn31.
    lra. }
  pose proof (round53_mono low (k / n) ltac:(reflexivity) Hlow) as Hkp.
  assert (Hfix : (round53 low == low)%Q) by (vm_compute; reflexivity).
  rewrite Hfix in Hkp.
  set (keep_prob := round53 (k / n)) in *.
  assert (Hinv : (1 / keep_prob <= 1 / low)%Q).
  { apply Qle_shift_div_l; [unfold low in *; lra|].
    assert (Hkp0 : (0 < keep_prob)%Q) by (unfold low in *; lra).
    setoid_replace (1 / keep_prob * low)%Q with (low / keep_prob)%Q
      using relation Qeq by (field; lra).
    apply Qle_shift_div_r; [exact Hkp0 | lra]. }
  assert (Hpos : (0 < 1 / keep_prob)%Q).
  { apply Qlt_shift_div_l; [unfold low in *; lra | lra]. }
  pose proof (round53_mono _ _ Hpos Hinv) as Hr.
  apply Qfloor_resp_le in Hr.
  assert (Hone : Qfloor (round53 (1 / low)) = 1%Z) by (vm_compute; reflexivity).
  rewrite Hone in Hr. exact Hr.
Qed.

Lemma kept_points_clear gr : kept_points gr (replicate (length gr) false) = gr.
Proof. induction gr as [|p gr IH]; simpl; [reflexivity | now rewrite IH]. Qed.

Lemma kept_points_lookup gr : forall remv i p,
  gr !! i = Some p -> remv !! i = Some false -> p ∈ kept_points gr remv.
Proof.
  induction gr as [|q gr IH]; intros remv i p Hp Hr; [discriminate|].
  destruct remv as [|r remv]; [destruct i; discriminate|].
  destruct i as [|i]; simpl in *.
  - injection Hp as ->. injection Hr as ->. left.
  - destruct r; [|right]; eapply IH; eassumption.
Qed.

End TrimGraph_facts.

Section TrimGraph_loop.

Implicit Types (gr : TGraph) (remv : list bool).

(** One round of the loop, seen from [decades_from]: the decade found by the
    first loop, whatever the flags were. *)
Lemma decades_from_step fuel gr fp lp xmin remv r lp1 ndec1 :
  GetX gr fp = Ret xmin ->
  scan_decade gr xmin (mul_double 10 xmin) (length gr - fp) fp remv lp 0
    = Ret (r, lp1, ndec1) ->
  decades_from (S fuel) gr fp lp =
    mkDecade fp lp1 ndec1 ::
      (if lp1 =? length gr - 1 then [] else decades_from fuel gr (S lp1) lp1).
Proof.
  intros Hx Hscan. simpl. unfold GetN. rewrite Hx.
  pose proof (scan_decade_found gr xmin (mul_double 10 xmin) (length gr - fp) fp
                (replicate (length gr) false) remv lp 0) as Hfound.
  rewrite Hscan in Hfound. simpl in Hfound.
  destruct (scan_decade gr xmin (mul_double 10 xmin) (length gr - fp) fp
              (replicate (length gr) false) lp 0) as [[[r' lp'] ndec']| | | |];
    simpl in Hfound; try discriminate.
  injection Hfound as -> ->. reflexivity.
Qed.

(** With a positive maximum the loop returns from any index inside the
    graph, writes no flag below that index, and leaves clear the flag of the
    first point of every decade it walks through. *)
Lemma trim_loop_keeps_first (K : Z) gr : forall fuel fp lp remv,
  (0 < K)%Z ->
  length remv = length gr ->
  fp < length gr ->
  length gr - fp <= fuel ->
  exists r,
    trim_loop fuel gr K fp lp remv = Ret r /\
    length r = length gr /\
    (forall j, j < fp -> r !! j = remv !! j) /\
    Forall (fun d => first_point d < length gr /\ r !! first_point d = Some false)
      (decades_from fuel gr fp lp).
Proof.
  induction fuel as [|fuel IH]; intros fp lp remv HK Hlen Hfp Hfuel; [lia|].
  destruct (GetX_in_range gr fp Hfp) as [xmin Hx].
  destruct (scan_decade_returns gr xmin (mul_double 10 xmin) (length gr - fp) fp remv lp 0)
    as (r1 & lp1 & ndec1 & Hscan & Hlen1 & Hlp1 & Hframe1 & Hfirst1); [lia|].
  rewrite (decades_from_step fuel gr fp lp xmin remv r1 lp1 ndec1 Hx Hscan).
  assert (Hthrow : exists r2,
    (if (Z.of_nat ndec1 >? K)%Z
     then keep_rate ← keep_rate_of K ndec1;
          throw_points keep_rate (S lp1 - fp) fp 0%Z r1
     else Ret r1) = Ret r2 /\
    length r2 = length gr /\
    (forall j, j < fp -> r2 !! j = remv !! j) /\
    r2 !! fp = Some false).
  { destruct (Z.gtb_spec (Z.of_nat ndec1) K) as [Hgt|Hle].
    - destruct (keep_rate_of_positive K ndec1 HK Hgt) as (keep_rate & -> & Hrate).
      unfold mbind, outcome_bind.
      destruct (throw_points_returns keep_rate (S lp1 - fp) fp 0%Z r1)
        as (r2 & Hrun & Hlen2 & Hframe2 & Hfirst2); [lia|].
      exists r2. split; [exact Hrun|]. repeat split.
      + lia.
      + intros j Hj. rewrite Hframe2 by lia. apply Hframe1. lia.
      + rewrite Hfirst2 by reflexivity. apply Hfirst1; lia.
    - exists r1. repeat split; try lia; auto. apply Hfirst1; lia. }
  destruct Hthrow as (r2 & Hrun2 & Hlen2 & Hframe2 & Hfirst2).
  simpl. unfold GetN. rewrite Hx. outcome_simpl. rewrite Hscan.
  outcome_simpl. rewrite Hrun2.
  destruct (Nat.eqb_spec lp1 (length gr - 1)) as [Hlast|Hmore].
  - exists r2. repeat split; auto.
  - destruct (IH (S lp1) lp1 r2 HK Hlen2) as (r3 & Hrun3 & Hlen3 & Hframe3 & Hall);
      [lia | lia |].
    exists r3. split; [exact Hrun3|]. repeat split; auto.
    + intros j Hj. rewrite Hframe3 by lia. apply Hframe2. lia.
    + constructor; [|exact Hall]. simpl. split; [exact Hfp|].
      rewrite Hframe3 by lia. exact Hfirst2.
Qed.

(** When no round counts more points than the maximum, the loop started on
    clear flags returns them clear. *)
Lemma trim_loop_sparse (K : Z) gr : forall fuel fp lp,
  fp < length gr ->
  length gr - fp <= fuel ->
  Forall (fun d => (Z.of_nat (ndec_points d) <= K)%Z) (decades_from fuel gr fp lp) ->
  trim_loop fuel gr K fp lp (replicate (length gr) false)
    = Ret (replicate (length gr) false).
Proof.
  induction fuel as [|fuel IH]; intros fp lp Hfp Hfuel Hsparse; [lia|].
  destruct (GetX_in_range gr fp Hfp) as [xmin Hx].
  destruct (scan_decade_returns gr xmin (mul_double 10 xmin) (length gr - fp) fp
              (replicate (length gr) false) lp 0)
    as (r1 & lp1 & ndec1 & Hscan & _ & Hlp1 & _); [lia|].
  rewrite (decades_from_step fuel gr fp lp xmin _ r1 lp1 ndec1 Hx Hscan) in Hsparse.
  apply Forall_cons in Hsparse as [Hcount Hrest]. simpl in Hcount.
  pose proof (scan_decade_clear _ _ _ _ _ _ _ _ _ _ _ Hscan) as ->.
  simpl. unfold GetN. rewrite Hx. outcome_simpl. rewrite Hscan. outcome_simpl.
  destruct (Z.gtb_spec (Z.of_nat ndec1) K) as [Hgt|_]; [lia|].
  destruct (Nat.eqb_spec lp1 (length gr - 1)) as [Hlast|Hmore]; [reflexivity|].
  apply IH; [lia | lia | exact Hrest].
Qed.

(** A graph with a point has a first decade, which starts at its first
    point. *)
Lemma decades_first gr :
  gr <> [] -> exists d ds, decades gr = d :: ds /\ first_point d = 0.
Proof.
  intros Hne. assert (Hlen : 0 < length gr) by (destruct gr; [congruence | simpl; lia]).
  destruct (GetX_in_range gr 0 Hlen) as [xmin Hx].
  destruct (scan_decade_returns gr xmin (mul_double 10 xmin) (length gr - 0) 0
              (replicate (length gr) false) 0 0)
    as (r1 & lp1 & ndec1 & Hscan & _); [lia|].
  unfold decades, GetN.
  rewrite (decades_from_step _ gr 0 0 xmin _ r1 lp1 ndec1 Hx Hscan).
  eexists _, _. split; reflexivity.
Qed.

End TrimGraph_loop.

(** *** What a decade counts, and the bound of the loop *)

Section Decade_counts.

Implicit Types (gr : TGraph) (remv : list bool).

Lemma GetX_Ret gr i x :
  GetX gr i = Ret x -> exists y, gr !! i = Some (x, y).
Proof.
  unfold GetX, index. destruct (gr !! i) as [[x' y]|]; outcome_simpl; [|discriminate].
  intros [= ->]. eauto.
Qed.

(** The count the first loop returns is the number of visited points that
    lie in (xmin, xmax]. *)
Lemma scan_decade_count gr xmin xmax n : forall i remv lp ndec r lp' ndec',
  i + n <= length gr ->
  0 < n ->
  scan_decade gr xmin xmax n i remv lp ndec = Ret (r, lp', ndec') ->
  ndec' = ndec + length (List.filter (inside_decade xmin xmax) (points_between gr i lp')).
Proof.
  induction n as [|n IH]; intros i remv lp ndec r lp' ndec' Hn Hpos Hscan; [lia|].
  simpl in Hscan. unfold points_between.
  destruct (GetX gr i) as [x| | | |] eqn:Hx; outcome_simpl; try discriminate.
  destruct (GetX_Ret gr i x Hx) as [y Hp].
  rewrite (drop_S gr (x, y) i Hp).
  assert (Hone : forall nd,
    nd = (if Qlt_bool xmin x && Qle_bool x xmax then S ndec else ndec) ->
    nd = ndec + length (List.filter (inside_decade xmin xmax)
                          (take (S i - i) ((x, y) :: drop (S i) gr)))).
  { intros nd ->. replace (S i - i) with 1 by lia. simpl.
    unfold inside_decade. simpl.
    destruct (Qlt_bool xmin x && Qle_bool x xmax); simpl; lia. }
  destruct (Qlt_bool xmax x).
  - injection Hscan as <- <- <-. now apply Hone.
  - destruct n as [|n].
    + simpl in Hscan. injection Hscan as <- <- <-. now apply Hone.
    + destruct (scan_decade_returns gr xmin xmax (S n) (S i) (<[i:=false]> remv) i
                  (if Qlt_bool xmin x && Qle_bool x xmax then S ndec else ndec))
        as (r2 & lp2 & ndec2 & Hscan2 & _ & Hlp2 & _); [lia|].
      rewrite Hscan2 in Hscan. injection Hscan as <- <- <-.
      apply IH in Hscan2; [|lia|lia]. rewrite Hscan2.
      unfold points_between.
      replace (S lp2 - i) with (S (S lp2 - S i)) by lia. simpl.
      unfold inside_decade at 2. simpl.
      destruct (Qlt_bool xmin x && Qle_bool x xmax); simpl; lia.
Qed.

(** Every round begins at a point [(xmin, _)] of the graph, ends at or
    after it, and counts the points between its ends that lie in
    (xmin, xmax], where xmax is the double 10 * xmin. *)
Lemma decades_from_count gr : forall fuel fp lp,
  Forall (fun d =>
            exists xmin,
              GetX gr (first_point d) = Ret xmin /\
              first_point d <= last_point d < length gr /\
              ndec_points d =
                length (List.filter (inside_decade xmin (mul_double 10 xmin))
                          (points_between gr (first_point d) (last_point d))))
    (decades_from fuel gr fp lp).
Proof.
  induction fuel as [|fuel IH]; intros fp lp; [constructor|].
  simpl. unfold GetN.
  destruct (GetX gr fp) as [xmin| | | |] eqn:Hx; try constructor.
  destruct (GetX_Ret gr fp xmin Hx) as [y Hp].
  apply lookup_lt_Some in Hp.
  destruct (scan_decade_returns gr xmin (mul_double 10 xmin) (length gr - fp) fp
              (replicate (length gr) false) lp 0)
    as (r1 & lp1 & ndec1 & Hscan & _ & Hlp1 & _); [lia|].
  rewrite Hscan. constructor.
  - exists xmin. simpl. split; [exact Hx|]. split; [lia|].
    apply scan_decade_count in Hscan; [exact Hscan | lia | lia].
  - destruct (lp1 =? length gr - 1); [constructor | apply IH].
Qed.

Lemma throw_points_fuel keep_rate n : forall i ithrow remv,
  throw_points keep_rate n i ithrow remv <> OutOfFuel.
Proof.
  induction n as [|n IH]; intros i ithrow remv; simpl; [discriminate|].
  unfold int_rem. destruct (keep_rate =? 0)%Z; outcome_simpl; [discriminate | apply IH].
Qed.

Lemma bind_fuel {A B : Type} (m : outcome A) (f : A -> outcome B) :
  m <> OutOfFuel ->
  (forall a, m = Ret a -> f a <> OutOfFuel) ->
  (m ≫= f) <> OutOfFuel.
Proof.
  intros Hm Hf. destruct m; outcome_simpl; try discriminate; auto.
Qed.

(** The bound given to the [while(1)] loop is never reached: each round
    moves [fp] forward. *)
Lemma trim_loop_fuel (K : Z) gr : forall fuel fp lp remv,
  0 < fuel ->
  length gr - fp < fuel ->
  trim_loop fuel gr K fp lp remv <> OutOfFuel.
Proof.
  induction fuel as [|fuel IH]; intros fp lp remv Hpos Hfuel; [lia|].
  cbn [trim_loop]. unfold GetN. apply bind_fuel.
  { unfold GetX, index. destruct (gr !! fp); discriminate. }
  intros xmin Hx. destruct (GetX_Ret gr fp xmin Hx) as [y Hp].
  apply lookup_lt_Some in Hp.
  destruct (scan_decade_returns gr xmin (mul_double 10 xmin) (length gr - fp) fp remv lp 0)
    as (r1 & lp1 & ndec1 & Hscan & _ & Hlp1 & _); [lia|].
  rewrite Hscan. apply bind_fuel; [discriminate|].
  intros [[r lp'] ndec'] [= <- <- <-]. apply bind_fuel.
  { destruct (Z.of_nat ndec1 >? K)%Z; [|discriminate]. apply bind_fuel.
    - unfold keep_rate_of. destruct ((K =? 0)%Z || (ndec1 =? 0)); discriminate.
    - intros keep_rate _. apply throw_points_fuel. }
  intros r2 _.
  destruct (Nat.eqb_spec lp1 (length gr - 1)) as [_|Hmore]; [discriminate|].
  apply IH; lia.
Qed.

Lemma TrimGraph_fuel (gr : option TGraph) (K : Z) : TrimGraph gr K <> OutOfFuel.
Proof.
  destruct gr as [gr|]; [|discriminate]. unfold TrimGraph, trim_flags.
  pose proof (trim_loop_fuel K gr (S (GetN gr)) 0 0 (replicate (GetN gr) false)
                ltac:(lia) ltac:(unfold GetN; lia)) as Hfuel.
  destruct (trim_loop (S (GetN gr)) gr K 0 0 (replicate (GetN gr) false));
    outcome_simpl; congruence.
Qed.

End Decade_counts.

(** *** The flags of a round *)

Section TrimGraph_decades.

Implicit Types (gr : TGraph) (remv : list bool).

(** The rounds of the loop started at [fp] visit the indices from [fp] to
    the end of the graph, each once and in order. *)
Lemma decades_from_cover gr : forall fuel fp lp,
  fp < length gr ->
  length gr - fp <= fuel ->
  concat (map decade_indices (decades_from fuel gr fp lp)) = seq fp (length gr - fp).
Proof.
  induction fuel as [|fuel IH]; intros fp lp Hfp Hfuel; [lia|].
  destruct (GetX_in_range gr fp Hfp) as [xmin Hx].
  destruct (scan_decade_returns gr xmin (mul_double 10 xmin) (length gr - fp) fp
              (replicate (length gr) false) lp 0)
    as (r1 & lp1 & ndec1 & Hscan & _ & Hlp1 & _); [lia|].
  rewrite (decades_from_step fuel gr fp lp xmin _ r1 lp1 ndec1 Hx Hscan).
  cbn [map concat]. unfold decade_indices at 1. cbn [first_point last_point].
  destruct (Nat.eqb_spec lp1 (length gr - 1)) as [Hlast|Hmore].
  - cbn [map concat]. rewrite app_nil_r. f_equal. lia.
  - rewrite IH by lia.
    replace (length gr - fp) with ((S lp1 - fp) + (length gr - S lp1)) by lia.
    rewrite seq_app. do 2 f_equal. lia.
Qed.

(** Where the first loop stops: every index before the last one it visits
    holds an abscissa that is not beyond [xmax]; the last one is the last
    index of the graph or holds the first abscissa beyond [xmax]. *)
Lemma scan_decade_ends gr xmin xmax n : forall i remv lp ndec r lp' ndec',
  i + n <= length gr ->
  0 < n ->
  scan_decade gr xmin xmax n i remv lp ndec = Ret (r, lp', ndec') ->
  (forall j, i <= j < lp' -> exists x, GetX gr j = Ret x /\ (x <= xmax)%Q) /\
  (lp' = i + n - 1 \/ exists x, GetX gr lp' = Ret x /\ (xmax < x)%Q).
Proof.
  assert (Hlt : forall a b, Qlt_bool a b = true <-> (a < b)%Q).
  { intros a b. unfold Qlt_bool. rewrite negb_true_iff. split.
    - intros Hb. apply Qnot_le_lt. intros Hle. apply Qle_bool_iff in Hle. congruence.
    - intros Hab. destruct (Qle_bool b a) eqn:Hb; [|reflexivity].
      apply Qle_bool_iff in Hb. exfalso. eapply Qlt_not_le; eassumption. }
  induction n as [|n IH]; intros i remv lp ndec r lp' ndec' Hn Hpos Hscan; [lia|].
  simpl in Hscan.
  destruct (GetX gr i) as [x| | | |] eqn:Hx; outcome_simpl; try discriminate.
  destruct (Qlt_bool xmax x) eqn:Hbeyond.
  - injection Hscan as <- <- <-. split; [intros j Hj; lia|].
    right. exists x. split; [exact Hx|]. now apply Hlt.
  - assert (Hle : (x <= xmax)%Q).
    { apply Qnot_lt_le. intros Hxl. apply Hlt in Hxl. congruence. }
    destruct n as [|n].
    + simpl in Hscan. injection Hscan as <- <- <-.
      split; [intros j Hj; lia | left; lia].
    + destruct (scan_decade_returns gr xmin xmax (S n) (S i) (<[i:=false]> remv) i
                  (if Qlt_bool xmin x && Qle_bool x xmax then S ndec else ndec))
        as (r2 & lp2 & ndec2 & Hscan2 & _ & Hlp2 & _); [lia|].
      rewrite Hscan2 in Hscan. injection Hscan as <- <- <-.
      apply IH in Hscan2 as [Hbefore Hlast]; [|lia|lia]. split.
      * intros j Hj. destruct (decide (j = i)) as [->|Hne].
        -- exists x. split; [exact Hx | exact Hle].
        -- apply Hbefore. lia.
      * destruct Hlast as [Hlast|Hlast]; [left; lia | right; exact Hlast].
Qed.

(** The first loop clears the flag of every index it visits and writes no
    other flag. *)
Lemma scan_decade_clears gr xmin xmax n : forall i remv lp ndec r lp' ndec',
  i + n <= length gr ->
  i + n <= length remv ->
  0 < n ->
  scan_decade gr xmin xmax n i remv lp ndec = Ret (r, lp', ndec') ->
  (forall j, i <= j <= lp' -> r !! j = Some false) /\
  (forall j, lp' < j -> r !! j = remv !! j).
Proof.
  induction n as [|n IH]; intros i remv lp ndec r lp' ndec' Hn Hr Hpos Hscan; [lia|].
  simpl in Hscan.
  destruct (GetX gr i) as [x| | | |] eqn:Hx; outcome_simpl; try discriminate.
  assert (Hstop : (forall j, i <= j <= i -> <[i:=false]> remv !! j = Some false) /\
                  (forall j, i < j -> <[i:=false]> remv !! j = remv !! j)).
  { split.
    - intros j Hj. replace j with i by lia. apply list_lookup_insert_eq. lia.
    - intros j Hj. apply list_lookup_insert_ne. lia. }
  destruct (Qlt_bool xmax x).
  - injection Hscan as <- <- <-. exact Hstop.
  - destruct n as [|n].
    + simpl in Hscan. injection Hscan as <- <- <-. exact Hstop.
    + destruct (scan_decade_returns gr xmin xmax (S n) (S i) (<[i:=false]> remv) i
                  (if Qlt_bool xmin x && Qle_bool x xmax then S ndec else ndec))
        as (r2 & lp2 & ndec2 & Hscan2 & _ & Hlp2 & Hframe & _); [lia|].
      rewrite Hscan2 in Hscan. injection Hscan as <- <- <-.
      apply IH in Hscan2 as [Hclear Hafter]; [|lia|rewrite length_insert; lia|lia].
      split.
      * intros j Hj. destruct (decide (j = i)) as [->|Hne].
        -- rewrite Hframe by lia. apply list_lookup_insert_eq. lia.
        -- apply Hclear. lia.
      * intros j Hj. rewrite Hafter by lia. apply list_lookup_insert_ne. lia.
Qed.

(** The second loop on flags that are clear from [i] on for [n] indices:
    it sets the flag of the index at place [k] exactly when
    [(ithrow + k) % keep_rate] is not zero, and writes no other flag. *)
Lemma throw_points_flags keep_rate n : forall i ithrow remv,
  keep_rate <> 0%Z ->
  (forall j, i <= j < i + n -> remv !! j = Some false) ->
  exists r,
    throw_points keep_rate n i ithrow remv = Ret r /\
    length r = length remv /\
    (forall j, i <= j < i + n ->
       r !! j = Some (negb (Z.rem (ithrow + Z.of_nat (j - i)) keep_rate =? 0)%Z)) /\
    (forall j, j < i \/ i + n <= j -> r !! j = remv !! j).
Proof.
  induction n as [|n IH]; intros i ithrow remv Hk Hclear; simpl.
  - exists remv. repeat split; auto. intros j Hj. lia.
  - unfold int_rem. destruct (Z.eqb_spec keep_rate 0) as [|_]; [contradiction|].
    outcome_simpl.
    set (remv1 := if (Z.rem ithrow keep_rate =? 0)%Z then remv else <[i:=true]> remv).
    assert (Hlen1 : length remv1 = length remv).
    { unfold remv1. destruct (_ =? _)%Z; [reflexivity | apply length_insert]. }
    assert (Hi : i < length remv).
    { eapply lookup_lt_Some. apply Hclear. lia. }
    assert (Hat : remv1 !! i = Some (negb (Z.rem ithrow keep_rate =? 0)%Z)).
    { unfold remv1. destruct (_ =? _)%Z; simpl.
      - apply Hclear. lia.
      - apply list_lookup_insert_eq. lia. }
    assert (Hother : forall j, j <> i -> remv1 !! j = remv !! j).
    { intros j Hj. unfold remv1. destruct (_ =? _)%Z; [reflexivity|].
      apply list_lookup_insert_ne. lia. }
    destruct (IH (S i) (ithrow + 1)%Z remv1 Hk) as (r & Hrun & Hlen & Hin & Hout).
    { intros j Hj. rewrite Hother by lia. apply Hclear. lia. }
    exists r. split; [exact Hrun|]. split; [lia|]. split.
    + intros j Hj. destruct (decide (j = i)) as [->|Hne].
      * rewrite Hout by lia. rewrite Hat, Nat.sub_diag, Z.add_0_r. reflexivity.
      * rewrite Hin by lia. do 4 f_equal. lia.
    + intros j Hj. rewrite Hout by lia. apply Hother. lia.
Qed.

(** With a positive maximum the loop returns from any index inside the
    graph, writes no flag below that index, and leaves at every index of
    every decade it walks through the flag [dropped]. *)
Lemma trim_loop_flags (K : Z) gr : forall fuel fp lp remv,
  (0 < K)%Z ->
  length remv = length gr ->
  fp < length gr ->
  length gr - fp <= fuel ->
  exists r,
    trim_loop fuel gr K fp lp remv = Ret r /\
    length r = length gr /\
    (forall j, j < fp -> r !! j = remv !! j) /\
    Forall (fun d => forall j, first_point d <= j <= last_point d ->
                       r !! j = Some (dropped K d j))
      (decades_from fuel gr fp lp).
Proof.
  induction fuel as [|fuel IH]; intros fp lp remv HK Hlen Hfp Hfuel; [lia|].
  destruct (GetX_in_range gr fp Hfp) as [xmin Hx].
  destruct (scan_decade_returns gr xmin (mul_double 10 xmin) (length gr - fp) fp remv lp 0)
    as (r1 & lp1 & ndec1 & Hscan & Hlen1 & Hlp1 & Hframe1 & _); [lia|].
  destruct (scan_decade_clears gr xmin (mul_double 10 xmin) (length gr - fp) fp remv lp 0
              r1 lp1 ndec1) as [Hclear1 _]; [lia | lia | lia | exact Hscan |].
  rewrite (decades_from_step fuel gr fp lp xmin remv r1 lp1 ndec1 Hx Hscan).
  assert (Hthrow : exists r2,
    (if (Z.of_nat ndec1 >? K)%Z
     then keep_rate ← keep_rate_of K ndec1;
          throw_points keep_rate (S lp1 - fp) fp 0%Z r1
     else Ret r1) = Ret r2 /\
    length r2 = length gr /\
    (forall j, j < fp -> r2 !! j = remv !! j) /\
    (forall j, fp <= j <= lp1 -> r2 !! j = Some (dropped K (mkDecade fp lp1 ndec1) j))).
  { unfold dropped, stride. cbn [first_point last_point ndec_points].
    destruct (Z.gtb_spec (Z.of_nat ndec1) K) as [Hgt|Hle].
    - destruct (keep_rate_of_positive K ndec1 HK Hgt) as (keep_rate & -> & Hrate).
      unfold mbind, outcome_bind. cbn [andb].
      destruct (throw_points_flags keep_rate (S lp1 - fp) fp 0%Z r1)
        as (r2 & Hrun & Hlen2 & Hin2 & Hout2); [lia | |].
      { intros j Hj. apply Hclear1. lia. }
      exists r2. split; [exact Hrun|]. repeat split.
      + lia.
      + intros j Hj. rewrite Hout2 by lia. apply Hframe1. lia.
      + intros j Hj. rewrite Hin2 by lia. reflexivity.
    - exists r1. repeat split; try lia; auto. }
  destruct Hthrow as (r2 & Hrun2 & Hlen2 & Hframe2 & Hflags2).
  simpl. unfold GetN. rewrite Hx. outcome_simpl. rewrite Hscan.
  outcome_simpl. rewrite Hrun2.
  destruct (Nat.eqb_spec lp1 (length gr - 1)) as [Hlast|Hmore].
  - exists r2. repeat split; auto.
  - destruct (IH (S lp1) lp1 r2 HK Hlen2) as (r3 & Hrun3 & Hlen3 & Hframe3 & Hall);
      [lia | lia |].
    exists r3. split; [exact Hrun3|]. repeat split; auto.
    + intros j Hj. rewrite Hframe3 by lia. apply Hframe2. lia.
    + constructor; [|exact Hall]. cbn [first_point last_point].
      intros j Hj. rewrite Hframe3 by lia. apply Hflags2. exact Hj.
Qed.

End TrimGraph_decades.

Section TrimGraph_structure.

Implicit Types (gr : TGraph) (remv : list bool).

Lemma decades_from_ends gr : forall fuel fp lp,
  Forall (fun d =>
            exists xmin,
              GetX gr (first_point d) = Ret xmin /\
              (forall j, first_point d <= j < last_point d ->
                 exists x, GetX gr j = Ret x /\ (x <= mul_double 10 xmin)%Q) /\
              (last_point d = length gr - 1 \/
               exists x, GetX gr (last_point d) = Ret x /\ (mul_double 10 xmin < x)%Q))
    (decades_from fuel gr fp lp).
Proof.
  induction fuel as [|fuel IH]; intros fp lp; [constructor|].
  simpl. unfold GetN.
  destruct (GetX gr fp) as [xmin| | | |] eqn:Hx; try constructor.
  destruct (GetX_Ret gr fp xmin Hx) as [y Hp].
  apply lookup_lt_Some in Hp.
  destruct (scan_decade_returns gr xmin (mul_double 10 xmin) (length gr - fp) fp
              (replicate (length gr) false) lp 0)
    as (r1 & lp1 & ndec1 & Hscan & _ & Hlp1 & _); [lia|].
  rewrite Hscan. constructor.
  - exists xmin. cbn [first_point last_point]. split; [exact Hx|].
    apply scan_decade_ends in Hscan as [Hbefore Hlast]; [|lia|lia].
    split; [exact Hbefore|].
    destruct Hlast as [Hlast|Hlast]; [left; lia | right; exact Hlast].
  - destruct (lp1 =? length gr - 1); [constructor | apply IH].
Qed.

(** Every index of a graph lies in one of its decades. *)
Lemma decade_of_index gr (j : nat) :
  j < length gr ->
  exists d, d ∈ decades gr /\ first_point d <= j <= last_point d.
Proof.
  intros Hj.
  assert (Hin : j ∈ concat (map decade_indices (decades gr))).
  { unfold decades, GetN. rewrite decades_from_cover by lia.
    apply elem_of_seq. lia. }
  apply list_elem_of_In, in_concat in Hin as (l & Hl & Hjl).
  apply in_map_iff in Hl as (d & <- & Hd).
  exists d. split; [now apply list_elem_of_In|].
  unfold decade_indices in Hjl. apply in_seq in Hjl. lia.
Qed.

Lemma kept_points_sublist gr : forall remv, kept_points gr remv `sublist_of` gr.
Proof.
  induction gr as [|p gr IH]; intros remv; simpl.
  - destruct remv; constructor.
  - destruct remv as [|[] remv].
    + apply sublist_nil_l.
    + apply sublist_cons, IH.
    + apply sublist_skip, IH.
Qed.

Lemma all_clear remv (n : nat) :
  length remv = n ->
  (forall j, j < n -> remv !! j = Some false) ->
  remv = replicate n false.
Proof.
  intros Hlen Hall. apply list_eq. intros j.
  destruct (decide (j < n)) as [Hj|Hj].
  - rewrite Hall by exact Hj. symmetry. now apply lookup_replicate_2.
  - rewrite !lookup_ge_None_2; [reflexivity | rewrite length_replicate; lia | lia].
Qed.

(** The count of a decade is at most the number of points of the graph. *)
Lemma decades_ndec_le gr d : d ∈ decades gr -> ndec_points d <= length gr.
Proof.
  intros Hd. pose proof (decades_from_count gr (S (GetN gr)) 0 0) as Hcount.
  rewrite Forall_forall in Hcount. destruct (Hcount d Hd) as (xmin & _ & _ & ->).
  etransitivity; [apply filter_length_le|].
  unfold points_between. rewrite length_take, length_drop. lia.
Qed.

(** The stride of a decade that counts fewer than twice the maximum is 1:
    a graph with a point, and fewer than 2^31 of them, in which every
    decade counts fewer than [2 K] points comes out unchanged. *)
Lemma TrimGraph_unchanged_below_twice gr (K : Z) :
  gr <> [] ->
  (0 < K)%Z ->
  (Z.of_nat (GetN gr) < 2 ^ 31)%Z ->
  Forall (fun d => (Z.of_nat (ndec_points d) < 2 * K)%Z) (decades gr) ->
  TrimGraph (Some gr) K = Ret (Some gr).
Proof.
  intros Hne HK Hint Hbelow. unfold GetN in Hint.
  assert (Hlen : 0 < length gr) by (destruct gr; [congruence | simpl; lia]).
  destruct (trim_loop_flags K gr (S (length gr)) 0 0 (replicate (length gr) false))
    as (remv & Hrun & Hlenr & _ & Hall); [lia | apply length_replicate | lia | lia |].
  unfold TrimGraph, trim_flags, GetN. rewrite Hrun. unfold mbind, outcome_bind.
  rewrite (all_clear remv (length gr) Hlenr); [now rewrite kept_points_clear|].
  intros j Hj. destruct (decade_of_index gr j Hj) as (d & Hd & Hjd).
  rewrite Forall_forall in Hall, Hbelow.
  rewrite (Hall d Hd j Hjd). f_equal. unfold dropped, stride.
  specialize (Hbelow d Hd). cbv beta in Hbelow.
  pose proof (decades_ndec_le gr d Hd) as Hndec.
  destruct (Z.gtb_spec (Z.of_nat (ndec_points d)) K) as [Hgt|Hle]; [|reflexivity].
  rewrite (keep_rate_of_one K (ndec_points d) HK Hgt Hbelow) by lia.
  now rewrite Z.rem_1_r.
Qed.

End TrimGraph_structure.

(** *** The factor-of-10 bins of the x-axis *)

Section Bins.

Implicit Types (gr : TGraph).

Lemma Qlt_bool_iff (a b : Q) : Qlt_bool a b = true <-> (a < b)%Q.
Proof.
  unfold Qlt_bool. rewrite negb_true_iff. split.
  - intros Hb. apply Qnot_le_lt. intros Hle. apply Qle_bool_iff in Hle. congruence.
  - intros Hlt. destruct (Qle_bool b a) eqn:Hb; [|reflexivity].
    apply Qle_bool_iff in Hb. lra.
Qed.

Lemma filter_length_sublist {A} (P : A -> bool) (l1 l2 : list A) :
  l1 `sublist_of` l2 -> length (List.filter P l1) <= length (List.filter P l2).
Proof.
  induction 1 as [|x l1 l2 _ IH|x l1 l2 _ IH]; simpl.
  - lia.
  - destruct (P x); simpl; lia.
  - destruct (P x); simpl; lia.
Qed.

Lemma filter_length_cover {A} (P Q R : A -> bool) (l : list A) :
  (forall a, a ∈ l -> P a = true -> Q a = true \/ R a = true) ->
  length (List.filter P l) <= length (List.filter Q l) + length (List.filter R l).
Proof.
  induction l as [|a l IH]; intros Hcover; simpl; [lia|].
  assert (IH' := IH (fun b Hb => Hcover b (list_elem_of_further _ _ _ Hb))).
  pose proof (Hcover a (list_elem_of_here _ _)) as Ha.
  destruct (P a), (Q a), (R a); simpl;
    first [lia | destruct (Ha eq_refl); discriminate].
Qed.

Lemma filter_length_imp {A} (P Q : A -> bool) (l : list A) :
  (forall b, b ∈ l -> P b = true -> Q b = true) ->
  length (List.filter P l) <= length (List.filter Q l).
Proof.
  induction l as [|b l IH]; intros Himp; simpl; [lia|].
  assert (IH' := IH (fun c Hc => Himp c (list_elem_of_further _ _ _ Hc))).
  pose proof (Himp b (list_elem_of_here _ _)) as Hb.
  destruct (P b), (Q b); simpl; first [lia | discriminate (Hb eq_refl)].
Qed.

Lemma filter_length_strict {A} (P Q : A -> bool) (l : list A) (a : A) :
  a ∈ l -> P a = false -> Q a = true ->
  (forall b, b ∈ l -> P b = true -> Q b = true) ->
  length (List.filter P l) < length (List.filter Q l).
Proof.
  induction l as [|b l IH]; intros Ha HPa HQa Himp; [now apply elem_of_nil in Ha|].
  pose proof (filter_length_imp P Q l
                (fun c Hc => Himp c (list_elem_of_further _ _ _ Hc))) as Hle.
  apply elem_of_cons in Ha as [<-|Ha]; simpl.
  - rewrite HPa, HQa. simpl. lia.
  - pose proof (Himp b (list_elem_of_here _ _)) as Hb.
    assert (IH' := IH Ha HPa HQa (fun c Hc => Himp c (list_elem_of_further _ _ _ Hc))).
    destruct (P b), (Q b); simpl; first [lia | discriminate (Hb eq_refl)].
Qed.

Local Open Scope Q_scope.

Lemma bin_edge_pos (x0 : Q) (k : nat) : 0 < x0 -> 0 < bin_edge x0 k.
Proof.
  intros Hx0. induction k as [|k IH]; simpl; [exact Hx0|].
  unfold mul_double. apply round53_pos. lra.
Qed.

(** Each edge is more than twice the one before. *)
Lemma bin_edge_grows (x0 : Q) (k : nat) :
  0 < x0 -> 2 * bin_edge x0 k <= bin_edge x0 (S k).
Proof.
  intros Hx0. pose proof (bin_edge_pos x0 k Hx0) as Hpos. simpl. unfold mul_double.
  pose proof (round53_half (10 * bin_edge x0 k) ltac:(lra)). lra.
Qed.

Lemma bin_edge_power (x0 : Q) (k : nat) :
  0 < x0 -> inject_Z (2 ^ Z.of_nat k) * x0 <= bin_edge x0 k.
Proof.
  intros Hx0. induction k as [|k IH].
  - change (inject_Z (2 ^ Z.of_nat 0)) with 1. simpl. lra.
  - pose proof (bin_edge_grows x0 k Hx0) as Hg.
    rewrite Nat2Z.inj_succ, Z.pow_succ_r by lia. rewrite inject_Z_mult.
    change (inject_Z 2) with 2. lra.
Qed.

(** The edges reach every abscissa. *)
Lemma bin_edge_reaches (x0 x : Q) : 0 < x0 -> exists k, x <= bin_edge x0 k.
Proof.
  intros Hx0. destruct (Qlt_le_dec x x0) as [Hlt|Hle].
  { exists 0%nat. simpl. lra. }
  destruct x as [a b], x0 as [c d].
  assert (Hc : (0 < c)%Z) by (unfold Qlt in Hx0; simpl in Hx0; lia).
  assert (Ha : (0 < a)%Z).
  { assert (H : 0 < a # b) by lra. unfold Qlt in H. simpl in H. lia. }
  exists (Z.to_nat (a * Z.pos d)).
  eapply Qle_trans; [|apply bin_edge_power; exact Hx0].
  rewrite Z2Nat.id by lia.
  assert (Hpow : (a * Z.pos d < 2 ^ (a * Z.pos d))%Z) by (apply Z.pow_gt_lin_r; lia).
  assert (Hq : a # b <= inject_Z (a * Z.pos d) * (c # d)).
  { unfold Qle, Qmult, inject_Z. cbn [Qnum Qden]. rewrite Pos.mul_1_l.
    assert (H1 : (1 <= c * Z.pos b)%Z) by nia.
    assert (H2 : (0 < a * Z.pos d)%Z) by nia.
    replace (a * Z.pos d * c * Z.pos b)%Z with (a * Z.pos d * (c * Z.pos b))%Z by ring.
    nia. }
  eapply Qle_trans; [exact Hq|].
  apply Qmult_le_compat_r; [|lra]. rewrite <- Zle_Qle. lia.
Qed.

(** Every abscissa from [x0] on lies in a bin. *)
Lemma bin_of_abscissa (x0 : Q) (p : Q * Q) :
  0 < x0 -> x0 <= p.1 -> exists j, in_bin x0 j p = true.
Proof.
  intros Hx0 Hp. destruct (bin_edge_reaches x0 p.1 Hx0) as [k Hk].
  induction k as [|k IH].
  - exists 0%nat. unfold in_bin. cbn [Nat.eqb]. apply andb_true_iff. split.
    + now apply Qle_bool_iff.
    + apply Qle_bool_iff. simpl in Hk.
      pose proof (bin_edge_grows x0 0 Hx0) as Hg. simpl in Hg. simpl. lra.
  - destruct (Qlt_le_dec (bin_edge x0 k) p.1) as [Hlt|Hle]; [|now apply IH].
    destruct k as [|k].
    + exists 0%nat. unfold in_bin. cbn [Nat.eqb]. apply andb_true_iff. split.
      * now apply Qle_bool_iff.
      * now apply Qle_bool_iff.
    + exists (S k). unfold in_bin. cbn [Nat.eqb]. apply andb_true_iff. split.
      * now apply Qlt_bool_iff.
      * now apply Qle_bool_iff.
Qed.

Lemma in_bin_bounds (x0 : Q) (j : nat) (p : Q * Q) :
  0 < x0 -> in_bin x0 j p = true ->
  x0 <= p.1 /\ (j <> 0%nat -> bin_edge x0 j < p.1) /\ p.1 <= bin_edge x0 (S j).
Proof.
  intros Hx0. unfold in_bin. rewrite andb_true_iff, Qle_bool_iff.
  intros [Hlow Hup]. split; [|split; [|exact Hup]].
  - destruct j as [|j]; cbn [Nat.eqb] in Hlow.
    + now apply Qle_bool_iff.
    + apply Qlt_bool_iff in Hlow.
      pose proof (bin_edge_power x0 (S j) Hx0) as Hpow.
      assert (H1 : (1 <= 2 ^ Z.of_nat (S j))%Z) by (apply Z.pow_le_mono_r with (b := 0%Z); lia).
      rewrite Zle_Qle in H1. change (inject_Z 1) with 1 in H1.
      assert (Hx : x0 <= inject_Z (2 ^ Z.of_nat (S j)) * x0) by nra.
      lra.
  - intros Hj. destruct j as [|j]; [congruence|]. cbn [Nat.eqb] in Hlow.
    now apply Qlt_bool_iff.
Qed.

(** A round of the loop that begins at an abscissa of the bin [j] counts
    points of the bins [j] and [j + 1] only, and not the point it begins
    at. *)
Lemma round_counts_two_bins gr (x0 xmin y : Q) (j : nat) (l : TGraph) :
  0 < x0 ->
  (xmin, y) ∈ gr ->
  in_bin x0 j (xmin, y) = true ->
  l `sublist_of` gr ->
  (length (List.filter (inside_decade xmin (mul_double 10 xmin)) l) + 1 <=
   length (List.filter (in_bin x0 j) gr) + length (List.filter (in_bin x0 (S j)) gr))%nat.
Proof.
  intros Hx0 Hin Hbin Hsub.
  destruct (in_bin_bounds x0 j (xmin, y) Hx0 Hbin) as (Hge & Hlow & Hup). cbn [fst] in *.
  assert (Hxmax : mul_double 10 xmin <= bin_edge x0 (S (S j))).
  { change (bin_edge x0 (S (S j))) with (mul_double 10 (bin_edge x0 (S j))).
    unfold mul_double. apply round53_mono; lra. }
  set (P := inside_decade xmin (mul_double 10 xmin)).
  set (Q1 := fun p : Q * Q => in_bin x0 j p && Qlt_bool xmin p.1).
  assert (H1 : (length (List.filter P l) <= length (List.filter P gr))%nat)
    by now apply filter_length_sublist.
  assert (H2 : (length (List.filter P gr) <=
                length (List.filter Q1 gr) + length (List.filter (in_bin x0 (S j)) gr))%nat).
  { apply filter_length_cover. intros p _ HP. unfold P, inside_decade in HP.
    apply andb_true_iff in HP as [Hp1 Hp2].
    apply Qlt_bool_iff in Hp1. apply Qle_bool_iff in Hp2.
    destruct (Qlt_le_dec (bin_edge x0 (S j)) p.1) as [Hlt|Hle].
    - right. unfold in_bin. cbn [Nat.eqb]. apply andb_true_iff. split.
      + now apply Qlt_bool_iff.
      + apply Qle_bool_iff. lra.
    - left. unfold Q1, in_bin. rewrite !andb_true_iff. repeat split.
      + destruct j as [|j]; cbn [Nat.eqb].
        * apply Qle_bool_iff. lra.
        * apply Qlt_bool_iff. specialize (Hlow ltac:(lia)). lra.
      + now apply Qle_bool_iff.
      + now apply Qlt_bool_iff. }
  assert (H3 : (length (List.filter Q1 gr) < length (List.filter (in_bin x0 j) gr))%nat).
  { apply (filter_length_strict Q1 (in_bin x0 j) gr (xmin, y) Hin).
    - unfold Q1. rewrite Hbin. cbn [andb fst].
      destruct (Qlt_bool xmin xmin) eqn:Hb; [|reflexivity].
      apply Qlt_bool_iff in Hb. lra.
    - exact Hbin.
    - intros p _ Hp. unfold Q1 in Hp. now apply andb_true_iff in Hp as [Hp _]. }
  lia.
Qed.

End Bins.

Section Sparse.

Implicit Types (gr : TGraph).

Lemma filter_length_pos {A} (P : A -> bool) (l : list A) (a : A) :
  a ∈ l -> P a = true -> 1 <= length (List.filter P l).
Proof.
  intros Ha HP.
  pose proof (filter_length_strict (fun _ => false) P l a Ha eq_refl HP
                ltac:(discriminate)) as Hlt.
  lia.
Qed.

Lemma points_between_sublist gr (first last : nat) :
  points_between gr first last `sublist_of` gr.
Proof.
  unfold points_between. etransitivity; [apply sublist_take | apply sublist_drop].
Qed.

(** When no bin holds more than [K] points, a round of the loop counts fewer
    than [2 K]. *)
Lemma decades_below_twice gr (K : Z) (x0 : Q) :
  (0 < x0)%Q ->
  Forall (fun p => (x0 <= p.1)%Q) gr ->
  (forall k, (Z.of_nat (length (List.filter (in_bin x0 k) gr)) <= K)%Z) ->
  Forall (fun d => (Z.of_nat (ndec_points d) < 2 * K)%Z) (decades gr).
Proof.
  intros Hx0 Hfrom Hbins. apply Forall_forall. intros d Hd.
  pose proof (decades_from_count gr (S (GetN gr)) 0 0) as Hcount.
  rewrite Forall_forall in Hcount. destruct (Hcount d Hd) as (xmin & Hx & _ & ->).
  destruct (GetX_Ret gr _ xmin Hx) as [y Hp].
  apply list_elem_of_lookup_2 in Hp.
  rewrite Forall_forall in Hfrom. pose proof (Hfrom _ Hp) as Hge. cbn [fst] in Hge.
  destruct (bin_of_abscissa x0 (xmin, y) Hx0 Hge) as [j Hj].
  pose proof (round_counts_two_bins gr x0 xmin y j
                (points_between gr (first_point d) (last_point d))
                Hx0 Hp Hj (points_between_sublist gr _ _)) as Htwo.
  pose proof (Hbins j). pose proof (Hbins (S j)). lia.
Qed.

End Sparse.

Section Sample_bins.

Local Open Scope Q_scope.

Lemma bin_edge_mono (x0 : Q) (j k : nat) :
  0 < x0 -> (j <= k)%nat -> bin_edge x0 j <= bin_edge x0 k.
Proof.
  intros Hx0. induction 1 as [|k _ IH]; [lra|].
  pose proof (bin_edge_grows x0 k Hx0). pose proof (bin_edge_pos x0 k Hx0). lra.
Qed.

Lemma in_bin_beyond (x0 : Q) (j k : nat) (p : Q * Q) :
  0 < x0 -> (0 < j)%nat -> (j <= k)%nat -> p.1 <= bin_edge x0 j -> in_bin x0 k p = false.
Proof.
  intros Hx0 Hj Hjk Hp. unfold in_bin.
  destruct k as [|k]; [lia|]. cbn [Nat.eqb].
  apply andb_false_iff. left.
  destruct (Qlt_bool (bin_edge x0 (S k)) p.1) eqn:Hb; [|reflexivity].
  apply Qlt_bool_iff in Hb. pose proof (bin_edge_mono x0 j (S k) Hx0 Hjk). lra.
Qed.

Lemma in_exact_bin_beyond (x0 : Q) (j k : nat) (p : Q * Q) :
  0 < x0 -> (j <= k)%nat -> p.1 < x0 * 10 ^ Z.of_nat j -> in_exact_bin x0 k p = false.
Proof.
  intros Hx0 Hjk Hp. unfold in_exact_bin. apply andb_false_iff. left.
  destruct (Qle_bool (x0 * 10 ^ Z.of_nat k) p.1) eqn:Hb; [|reflexivity].
  apply Qle_bool_iff in Hb.
  assert (Hpow : 10 ^ Z.of_nat j <= 10 ^ Z.of_nat k)
    by (apply Qpower_le_compat_l; [lia | lra]).
  assert (0 < 10 ^ Z.of_nat j) by (apply Qpower_0_lt; lra).
  nra.
Qed.

Lemma filter_none {A} (P : A -> bool) (l : list A) :
  (forall a, a ∈ l -> P a = false) -> List.filter P l = [].
Proof.
  induction l as [|a l IH]; intros Hnone; simpl; [reflexivity|].
  rewrite (Hnone a (list_elem_of_here _ _)).
  apply IH. intros b Hb. apply Hnone. now apply list_elem_of_further.
Qed.

(** The bins of [straddling_curve] hold 1, 3 and 3 points. *)
Lemma straddling_curve_bins (k : nat) :
  (Z.of_nat (length (List.filter (in_bin 1 k) straddling_curve)) <= 3)%Z.
Proof.
  destruct k as [|[|[|k]]]; [vm_compute; discriminate ..|].
  assert (Hnone : forall p, p ∈ straddling_curve -> in_bin 1 (S (S (S k))) p = false).
  { intros p Hp. apply (in_bin_beyond 1 3); [lra | lia | lia |].
    unfold straddling_curve in Hp. set_unfold in Hp.
    destruct_or!; subst p; vm_compute; discriminate. }
  rewrite (filter_none _ _ Hnone). simpl. lia.
Qed.

(** Each bin of [crossing_curve] cut at the exact multiples of its first
    abscissa holds at most one point. *)
Lemma crossing_curve_bins (k : nat) :
  (length (List.filter (in_exact_bin (double (7 # 10000)) k) crossing_curve) <= 1)%nat.
Proof.
  destruct k as [|[|[|[|[|k]]]]]; [vm_compute; lia ..|].
  assert (Hnone : forall p, p ∈ crossing_curve ->
            in_exact_bin (double (7 # 10000)) (S (S (S (S (S k))))) p = false).
  { intros p Hp. apply (in_exact_bin_beyond _ 5); [vm_compute; reflexivity | lia |].
    unfold crossing_curve in Hp. set_unfold in Hp.
    destruct_or!; subst p; vm_compute; reflexivity. }
  rewrite (filter_none _ _ Hnone). simpl. lia.
Qed.

End Sample_bins.

(** C2: a curve that begins at a positive abscissa [x0], has no point below
    [x0] and fewer than 2^31 points, and holds at most [K] points in each
    decade (factor-of-10 bin of the x-axis, cut at the edges [bin_edge]
    that the doubles of the code give) comes out of [TrimGraph] unchanged,
    all points kept in the same order; trimming the result again changes
    nothing. *)
Theorem TrimGraph_sparse_unchanged (gr : TGraph) (K : Z) (x0 : Q) :
  GetX gr 0 = Ret x0 ->
  (0 < x0)%Q ->
  Forall (fun p => (x0 <= p.1)%Q) gr ->
  (Z.of_nat (GetN gr) < 2 ^ 31)%Z ->
  (forall k, (Z.of_nat (length (List.filter (in_bin x0 k) gr)) <= K)%Z) ->
  TrimGraph (Some gr) K = Ret (Some gr) /\
  (TrimGraph (Some gr) K ≫= fun gr' => TrimGraph gr' K) = TrimGraph (Some gr) K.
Proof.
  intros Hfirst Hx0 Hfrom Hint Hbins.
  destruct (GetX_Ret gr 0 x0 Hfirst) as [y Hp].
  assert (Hne : gr <> []) by (intros ->; discriminate).
  assert (HK : (0 < K)%Z).
  { apply list_elem_of_lookup_2 in Hp.
    assert (Hbin : in_bin x0 0 (x0, y) = true).
    { unfold in_bin. cbn [Nat.eqb fst]. apply andb_true_iff.
      pose proof (bin_edge_grows x0 0 Hx0) as Hg. cbn [bin_edge] in *.
      split; apply Qle_bool_iff; lra. }
    pose proof (filter_length_pos (in_bin x0 0) gr (x0, y) Hp Hbin).
    pose proof (Hbins 0%nat). lia. }
  assert (Hrun : TrimGraph (Some gr) K = Ret (Some gr)).
  { apply TrimGraph_unchanged_below_twice; auto.
    now apply (decades_below_twice gr K x0). }
  split; [exact Hrun|]. rewrite Hrun at 1. outcome_simpl. reflexivity.
Qed.

(** C3: for a graph with a point and a positive maximum [K], [TrimGraph]
    returns, and the first point of every round of the loop (the point at
    which the loop sets xmin and restarts its stride counter) has its
    removal flag clear and is a point of the result. *)
Theorem TrimGraph_keeps_decade_first (gr : TGraph) (K : Z) :
  gr <> [] ->
  (0 < K)%Z ->
  exists remv,
    trim_flags gr K = Ret remv /\
    TrimGraph (Some gr) K = Ret (Some (kept_points gr remv)) /\
    decades gr <> [] /\
    forall d, d ∈ decades gr ->
      exists p, gr !! first_point d = Some p /\
                remv !! first_point d = Some false /\
                p ∈ kept_points gr remv.
Proof.
  intros Hne HK.
  assert (Hlen : 0 < length gr) by (destruct gr; [congruence | simpl; lia]).
  destruct (trim_loop_keeps_first K gr (S (length gr)) 0 0 (replicate (length gr) false))
    as (remv & Hrun & Hlenr & _ & Hall); [lia | apply length_replicate | lia | lia |].
  exists remv. unfold TrimGraph, trim_flags, GetN. rewrite Hrun.
  split; [reflexivity|]. split; [reflexivity|]. split.
  - destruct (decades_first gr Hne) as (d & ds & -> & _). discriminate.
  - intros d Hd. rewrite Forall_forall in Hall.
    destruct (Hall d Hd) as [Hin Hclear].
    destruct (lookup_lt_is_Some_2 gr _ Hin) as [p Hp].
    exists p. repeat split; auto. eapply kept_points_lookup; eassumption.
Qed.

Lemma TrimGraph_sparse_unchanged_witness :
  TrimGraph (Some straddling_curve) 3 = Ret (Some straddling_curve) /\
  (TrimGraph (Some straddling_curve) 3 ≫= fun gr' => TrimGraph gr' 3)
    = TrimGraph (Some straddling_curve) 3.
Proof.
  apply (TrimGraph_sparse_unchanged straddling_curve 3 1).
  - reflexivity.
  - reflexivity.
  - repeat constructor; vm_compute; discriminate.
  - reflexivity.
  - exact straddling_curve_bins.
Defined.

(** On [straddling_curve] the second round of the loop begins at x = 50 and
    counts the four points up to 170, more than the maximum 3 of the
    witness above; its stride is 1. *)
Example decades_straddling_curve :
  decades straddling_curve = [mkDecade 0 1 0; mkDecade 2 6 4] /\
  keep_rate_of 3 4 = Ret 1%Z.
Proof. split; vm_compute; reflexivity. Qed.

(** C2 as the spec words it fails: with the decades cut at the exact
    multiples [x0 * 10^k] of the first abscissa, every decade of
    [crossing_curve] holds one point, and [TrimGraph] with at most 1 point
    per decade drops the point at x = 2.  The round that begins at the
    double 0.7 runs up to ten times it, the double 7, and counts the points
    at 2 and 7. *)
Lemma TrimGraph_sparse_counterexample :
  GetX crossing_curve 0 = Ret (double (7 # 10000)) /\
  (forall k,
     (length (List.filter (in_exact_bin (double (7 # 10000)) k) crossing_curve) <= 1)%nat) /\
  TrimGraph (Some crossing_curve) 1
    = Ret (Some [(double (7 # 10000), 1); (double (2 # 100), 1); (double (7 # 10), 1);
                 (7, 1)]%Q).
Proof.
  split; [reflexivity|]. split; [exact crossing_curve_bins|].
  vm_compute. reflexivity.
Qed.

Lemma TrimGraph_keeps_decade_first_witness :
  exists remv,
    trim_flags dense_curve 2 = Ret remv /\
    TrimGraph (Some dense_curve) 2 = Ret (Some (kept_points dense_curve remv)) /\
    decades dense_curve <> [] /\
    forall d, d ∈ decades dense_curve ->
      exists p, dense_curve !! first_point d = Some p /\
                remv !! first_point d = Some false /\
                p ∈ kept_points dense_curve remv.
Proof.
  apply (TrimGraph_keeps_decade_first dense_curve 2).
  - discriminate.
  - reflexivity.
Defined.

(** C3 as the spec words it fails: the point that begins a factor-of-10
    bin can be dropped.  In [dense_curve] the point at x = 11 is the first
    of the bin from 10 to 100 (the five points before it lie outside that
    bin, cut either way), and [TrimGraph] with at most 2 points per decade
    drops it.  The first round of the loop runs from x = 1 to x = 11, the
    first abscissa beyond 10, and keeps every second point of the round. *)
Lemma TrimGraph_keeps_decade_first_counterexample :
  dense_curve !! 5 = Some (11, 1)%Q /\
  in_exact_bin 1 1 (11, 1)%Q = true /\
  in_bin 1 1 (11, 1)%Q = true /\
  Forall (fun p => in_exact_bin 1 1 p = false /\ in_bin 1 1 p = false) (take 5 dense_curve) /\
  TrimGraph (Some dense_curve) 2
    = Ret (Some [(1, 1); (3, 1); (5, 1); (20, 1); (300, 1)]%Q) /\
  Forall (fun p => ~ (p.1 == 11)%Q) [(1, 1); (3, 1); (5, 1); (20, 1); (300, 1)]%Q.
Proof.
  repeat split; try reflexivity.
  - repeat constructor.
  - repeat constructor; vm_compute; discriminate.
Qed.

(** On [dense_curve] with at most 2 points per decade: the first round runs
    from x = 1 to x = 11, the first abscissa beyond 10, counts 4 points and
    keeps every second point of the round, which drops x = 11; the second
    round begins at x = 20 and keeps both its points. *)
Example TrimGraph_dense_curve :
  decades dense_curve = [mkDecade 0 5 4; mkDecade 6 7 0] /\
  trim_flags dense_curve 2
    = Ret [false; true; false; true; false; true; false; false] /\
  TrimGraph (Some dense_curve) 2
    = Ret (Some [(1, 1); (3, 1); (5, 1); (20, 1); (300, 1)]%Q).
Proof. repeat split; reflexivity. Qed.

(** The roundings decide: a round of 1860 points trimmed to 20 keeps every
    92nd point (the quotient 1./keep_prob of the doubles lies below 93), and
    the round that begins at the double 0.3 runs up to the double 3, that
    point included. *)
Example keep_rate_of_rounded : keep_rate_of 20 1860 = Ret 92%Z.
Proof. vm_compute. reflexivity. Qed.

Example TrimGraph_tenths_curve :
  (mul_double 10 (double (3 # 10)) == 3)%Q /\
  decades tenths_curve = [mkDecade 0 3 2] /\
  TrimGraph (Some (take 3 tenths_curve)) 1
    = Ret (Some [(double (3 # 10), 1); (3, 1)]%Q).
Proof. repeat split; vm_compute; reflexivity. Qed.

(** ** DrawRatio *)

Section DrawRatio_facts.
Context `{RootSystem}.

Lemma Qnonzero_true (a : Q) : Qnonzero a = true <-> ~ a == 0.
Proof.
  unfold Qnonzero. rewrite negb_true_iff. split.
  - intros Hb Heq. apply Qeq_bool_iff in Heq. congruence.
  - intros Hne. destruct (Qeq_bool a 0) eqn:Hb; [|reflexivity].
    apply Qeq_bool_iff in Hb. contradiction.
Qed.

Lemma Qnonzero_false (a : Q) : Qnonzero a = false <-> a == 0.
Proof.
  unfold Qnonzero. rewrite negb_false_iff. apply Qeq_bool_iff.
Qed.

(** The three branches of the loop body. *)
Lemma ratio_at_cases (gr0 gr1 : TGraph) (x : Q) :
  (~ Eval gr0 x == 0 -> ~ Eval gr1 x == 0 ->
     ratio_at gr0 gr1 x = (Eval gr0 x / Eval gr1 x)%Q) /\
  (~ Eval gr0 x == 0 -> Eval gr1 x == 0 -> ratio_at gr0 gr1 x = (-1)%Q) /\
  (Eval gr0 x == 0 -> ratio_at gr0 gr1 x = 1%Q).
Proof.
  unfold ratio_at. repeat split.
  - intros H0 H1. apply Qnonzero_true in H0, H1. now rewrite H0, H1.
  - intros H0 H1. apply Qnonzero_true in H0. apply Qnonzero_false in H1.
    now rewrite H0, H1.
  - intros H0. apply Qnonzero_false in H0. now rewrite H0.
Qed.

End DrawRatio_facts.

(** C1, as the code has it: for two graphs that are present, [DrawRatio]
    returns a graph with the abscissas of the numerator [gr0], in order; at
    each of them the ordinate is num/denom when both evaluations are not
    zero, -1 when the numerator is not zero and the denominator is zero, and
    +1 when the numerator is zero, whatever the denominator is. *)
Theorem DrawRatio_values `{RootSystem} (gr0 gr1 : TGraph) :
  exists ratio,
    DrawRatio (Some gr0) (Some gr1) = (Some ratio, ["Drawing ratio..."]) /\
    map fst ratio = map fst gr0 /\
    forall i x y, ratio !! i = Some (x, y) ->
      (~ Eval gr0 x == 0 -> ~ Eval gr1 x == 0 -> y = (Eval gr0 x / Eval gr1 x)%Q) /\
      (~ Eval gr0 x == 0 -> Eval gr1 x == 0 -> y = (-1)%Q) /\
      (Eval gr0 x == 0 -> y = 1%Q).
Proof.
  eexists. split; [reflexivity|]. split.
  - rewrite map_map. reflexivity.
  - intros i x y Hi.
    change (map ?f gr0) with (f <$> gr0) in Hi. rewrite list_lookup_fmap in Hi.
    destruct (gr0 !! i) as [p|]; [|discriminate].
    injection Hi as <- <-. apply ratio_at_cases.
Qed.

Lemma DrawRatio_values_witness :
  exists ratio,
    DrawRatio (H := root_with []) (Some flat_two) (Some flat_zero)
      = (Some ratio, ["Drawing ratio..."]) /\
    map fst ratio = map fst flat_two /\
    forall i x y, ratio !! i = Some (x, y) ->
      (~ interpolate flat_two x == 0 -> ~ interpolate flat_zero x == 0 ->
         y = (interpolate flat_two x / interpolate flat_zero x)%Q) /\
      (~ interpolate flat_two x == 0 -> interpolate flat_zero x == 0 -> y = (-1)%Q) /\
      (interpolate flat_two x == 0 -> y = 1%Q).
Proof. apply (DrawRatio_values (H := root_with []) flat_two flat_zero). Defined.

(** C1 as the spec words it fails: where the numerator evaluates to zero and
    the denominator does not, the ratio is +1 and not -1; where the
    numerator does not evaluate to zero and the denominator does, the ratio
    is -1 and not +1. *)
Lemma DrawRatio_sentinels_counterexample :
  (Eval (RootSystem := root_with []) flat_zero 1 == 0 /\
   ~ Eval (RootSystem := root_with []) flat_two 1 == 0 /\
   DrawRatio (H := root_with []) (Some flat_zero) (Some flat_two)
     = (Some [(1, 1)%Q], ["Drawing ratio..."]) /\
   ~ 1 == -1) /\
  (~ Eval (RootSystem := root_with []) flat_two 1 == 0 /\
   Eval (RootSystem := root_with []) flat_zero 1 == 0 /\
   DrawRatio (H := root_with []) (Some flat_two) (Some flat_zero)
     = (Some [(1, -1)%Q], ["Drawing ratio..."]) /\
   ~ -1 == 1).
Proof. repeat split; try reflexivity; discriminate. Qed.

(** C7: with a null numerator or a null denominator [DrawRatio] returns the
    null graph, and has sent nothing to the messenger. *)
Theorem DrawRatio_null `{RootSystem} :
  (forall gr1, DrawRatio None gr1 = (None, [])) /\
  (forall gr0, DrawRatio gr0 None = (None, [])).
Proof.
  split; [reflexivity|]. intros [gr0|]; reflexivity.
Qed.

(** ** DirNameToProbe *)

Section Substrings.

Lemma substring_0_0 (s : string) : substring 0 0 s = "".
Proof. destruct s; reflexivity. Qed.

Lemma substring_0_prefix (p q : string) : forall s,
  substring 0 (String.length (p +:+ q)) s = p +:+ q ->
  substring 0 (String.length p) s = p.
Proof.
  induction p as [|c p IH]; intros s Hs.
  - apply substring_0_0.
  - destruct s as [|c' s]; simpl in *; [discriminate|].
    injection Hs as -> Hs. f_equal. apply IH, Hs.
Qed.

Lemma substring_prefix (p q : string) : forall m s,
  substring m (String.length (p +:+ q)) s = p +:+ q ->
  substring m (String.length p) s = p.
Proof.
  induction m as [|m IH]; intros s Hs.
  - eapply substring_0_prefix, Hs.
  - destruct s as [|c s]; simpl in *.
    + destruct p; [reflexivity | discriminate].
    + apply IH, Hs.
Qed.

(** A string that holds [p +:+ q] holds [p]: in particular, a name that
    holds "nu_mu_bar" holds "nu_mu". *)
Lemma contains_prefix (s p q : string) :
  p <> "" -> contains s (p +:+ q) = true -> contains s p = true.
Proof.
  unfold contains, find. intros Hp Hpq.
  apply bool_decide_eq_true in Hpq as [m Hm].
  apply bool_decide_eq_true.
  destruct (String.index 0 p s) as [k|] eqn:Hk; [eexists; reflexivity|].
  exfalso. apply index_correct1 in Hm.
  apply (index_correct3 0 m p s Hk Hp); [lia|].
  eapply substring_prefix, Hm.
Qed.

Lemma contains_prefix_false (s p q : string) :
  p <> "" -> contains s p = false -> contains s (p +:+ q) = false.
Proof.
  intros Hp Hfalse. destruct (contains s (p +:+ q)) eqn:Hpq; [|reflexivity].
  rewrite (contains_prefix s p q Hp Hpq) in Hfalse. discriminate.
Qed.

End Substrings.

(** C8, as the code has it: inside each pair the "_bar" name is tested
    first, so a directory name that holds "nu_e_bar", "nu_mu_bar" or
    "nu_tau_bar" never resolves to the neutrino of the pair.  Across the
    pairs the tests run in the order e, mu, tau: a name with "nu_e_bar"
    always resolves to the electron antineutrino, a name with "nu_mu_bar" to
    the muon antineutrino when it does not hold "nu_e", a name with
    "nu_tau_bar" to the tau antineutrino when it holds neither "nu_e" nor
    "nu_mu". *)
Theorem DirNameToProbe_bar_first `{PDGLibrary} (dirname : string) :
  let probe := DirNameToProbe dirname in
  (contains dirname "nu_e_bar" = true ->
     gCurrProbeLbl probe = "#bar{#nu_{e}}" /\ gCurrProbePdg probe = kPdgAntiNuE) /\
  (contains dirname "nu_mu_bar" = true -> contains dirname "nu_e" = false ->
     gCurrProbeLbl probe = "#bar{#nu_{#mu}}" /\ gCurrProbePdg probe = kPdgAntiNuMu) /\
  (contains dirname "nu_tau_bar" = true -> contains dirname "nu_e" = false ->
   contains dirname "nu_mu" = false ->
     gCurrProbeLbl probe = "#bar{#nu_{#tau}}" /\ gCurrProbePdg probe = kPdgAntiNuTau) /\
  (contains dirname "nu_e_bar" = true -> gCurrProbeLbl probe <> "#nu_{e}") /\
  (contains dirname "nu_mu_bar" = true -> gCurrProbeLbl probe <> "#nu_{#mu}") /\
  (contains dirname "nu_tau_bar" = true -> gCurrProbeLbl probe <> "#nu_{#tau}").
Proof.
  assert (He : contains dirname "nu_e" = false -> contains dirname "nu_e_bar" = false)
    by (apply (contains_prefix_false dirname "nu_e" "_bar"); discriminate).
  assert (Hmu : contains dirname "nu_mu" = false -> contains dirname "nu_mu_bar" = false)
    by (apply (contains_prefix_false dirname "nu_mu" "_bar"); discriminate).
  unfold DirNameToProbe.
  destruct (contains dirname "nu_e_bar") eqn:E1;
    destruct (contains dirname "nu_e") eqn:E2;
    destruct (contains dirname "nu_mu_bar") eqn:E3;
    destruct (contains dirname "nu_mu") eqn:E4;
    destruct (contains dirname "nu_tau_bar") eqn:E5;
    destruct (contains dirname "nu_tau") eqn:E6;
    simpl; repeat split; intros; try discriminate;
    try (specialize (He eq_refl); discriminate);
    try (specialize (Hmu eq_refl); discriminate).
Qed.

Lemma DirNameToProbe_bar_first_witness :
  contains "nu_mu_bar_Fe56" "nu_mu_bar" = true /\
  contains "nu_mu_bar_Fe56" "nu_e" = false /\
  gCurrProbeLbl (DirNameToProbe (H := pdg_numbering) "nu_mu_bar_Fe56")
    = "#bar{#nu_{#mu}}" /\
  gCurrProbePdg (DirNameToProbe (H := pdg_numbering) "nu_mu_bar_Fe56") = (-14)%Z.
Proof.
  split; [reflexivity|]. split; [reflexivity|].
  apply (proj1 (proj2 (DirNameToProbe_bar_first (H := pdg_numbering) "nu_mu_bar_Fe56")));
    reflexivity.
Defined.

(** C8 as the spec words it fails: a name can hold "nu_mu_bar" and resolve
    to another probe, here the electron neutrino, whose test comes first. *)
Lemma DirNameToProbe_counterexample :
  contains "nu_e_vs_nu_mu_bar" "nu_mu_bar" = true /\
  gCurrProbeLbl (DirNameToProbe (H := pdg_numbering) "nu_e_vs_nu_mu_bar") = "#nu_{e}" /\
  gCurrProbePdg (DirNameToProbe (H := pdg_numbering) "nu_e_vs_nu_mu_bar") = 12%Z /\
  gCurrProbePdg (DirNameToProbe (H := pdg_numbering) "nu_e_vs_nu_mu_bar")
    <> kPdgAntiNuMu (PDGLibrary := pdg_numbering).
Proof. repeat split; discriminate. Qed.

(** ** GetCommandLineArgs *)

Section CommandLine_facts.
Context `{RootSystem}.

Lemma find_comma_cons (c : ascii) (s : string) :
  find (String c s) "," =
    if Ascii.eqb c "," then Some 0 else S <$> find s ",".
Proof.
  unfold find. cbn [String.index String.prefix].
  destruct (Ascii.ascii_dec "," c) as [<-|Hc].
  - destruct s; reflexivity.
  - destruct (Ascii.eqb_spec c ",") as [->|_]; [contradiction|].
    destruct (String.index 0 "," s); reflexivity.
Qed.

Lemma contains_comma (s : string) : contains s "," = negb (commas s =? 0).
Proof.
  unfold contains. induction s as [|c s IH]; [reflexivity|].
  rewrite find_comma_cons. cbn [commas].
  destruct (Ascii.eqb c ","); [reflexivity|].
  rewrite Nat.add_0_l, <- IH. destruct (find s ","); reflexivity.
Qed.

Lemma Split_length (s : string) : length (Split s ",") = S (commas s).
Proof.
  induction s as [|c s IH]; [reflexivity|]. simpl.
  destruct (Ascii.eqb c ","); simpl; [now rewrite IH|].
  destruct (Split s ","); simpl in *; [discriminate | exact IH].
Qed.

Lemma Split_no_comma (s : string) : commas s = 0 -> Split s "," = [s].
Proof.
  induction s as [|c s IH]; [reflexivity|]. simpl.
  destruct (Ascii.eqb c ","); simpl; [discriminate|].
  intros Hs. now rewrite IH.
Qed.

Lemma Split_one_comma (src lbl : string) :
  commas src = 0 -> commas lbl = 0 -> Split (src +:+ "," +:+ lbl) "," = [src; lbl].
Proof.
  intros Hsrc Hlbl. induction src as [|c src IH]; simpl in *.
  - now rewrite Split_no_comma.
  - destruct (Ascii.eqb c ","); simpl in *; [discriminate|]. now rewrite IH.
Qed.

Lemma commas_app (a b : string) : commas (a +:+ b) = commas a + commas b.
Proof. induction a as [|c a IH]; simpl; [reflexivity | rewrite IH; lia]. Qed.

(** The three ways a "file[,label]" argument is read. *)
Lemma file_and_label_plain (inp default_label : string) :
  commas inp = 0 -> file_and_label inp default_label = Ret (inp, default_label).
Proof.
  intros Hc. unfold file_and_label. rewrite contains_comma, Hc. reflexivity.
Qed.

Lemma file_and_label_pair (src lbl default_label : string) :
  commas src = 0 -> commas lbl = 0 ->
  file_and_label (src +:+ "," +:+ lbl) default_label = Ret (src, lbl).
Proof.
  intros Hsrc Hlbl. unfold file_and_label.
  rewrite contains_comma, !commas_app, Hsrc, Hlbl, Split_one_comma by assumption.
  reflexivity.
Qed.

Lemma file_and_label_abort (inp default_label : string) :
  2 <= commas inp -> file_and_label inp default_label = Abort.
Proof.
  intros Hc. unfold file_and_label. rewrite contains_comma, Split_length.
  destruct (Nat.eqb_spec (commas inp) 0) as [|_]; [lia|]. simpl.
  destruct (Nat.eqb_spec (commas inp) 1) as [|_]; [lia|]. reflexivity.
Qed.

(** Once "-f" has given an accessible file, the call returns with that file
    and its label, unless what it does for "-r" ends the process. *)
Lemma GetCommandLineArgs_after_f (parser : CmdLnArgParser) (src lbl : string) :
  OptionExists parser "f" = true ->
  file_and_label (ArgAsString parser "f") "current" = Ret (src, lbl) ->
  CheckRootFilename src = true ->
  match GetCommandLineArgs parser with
  | Ret opt => gOptXSecFilename_curr opt = src /\ gLabelCurr opt = lbl
  | Exit status => status = 1%Z /\ OptionExists parser "r" = true
  | Abort => OptionExists parser "r" = true
  | Undef | OutOfFuel => False
  end.
Proof.
  intros Hf Harg Hok. unfold GetCommandLineArgs. rewrite Hf, Harg.
  outcome_simpl. rewrite Hok. simpl.
  destruct (OptionExists parser "r"); [|simpl; auto].
  unfold file_and_label.
  destruct (contains (ArgAsString parser "r") ",").
  - destruct (Split (ArgAsString parser "r") ",") as [|a [|b [|c l]]];
      simpl; auto.
    destruct (CheckRootFilename a); simpl; auto.
  - simpl. destruct (CheckRootFilename (ArgAsString parser "r")); simpl; auto.
Qed.

End CommandLine_facts.

(** C6, as the code has it: "-f src,lbl" yields the source [src] and the
    label [lbl], "-f src" yields the source [src] and the label "current"
    (the call returns when the source is accessible and "-r" is absent, and
    otherwise only what is done for "-r" can end the process); an argument
    of "-f" with more than one comma ends the process by a failed assert,
    not by exit(1); a missing "-f", and an empty or inaccessible source, end
    it by exit(1). *)
Theorem GetCommandLineArgs_f_option `{RootSystem} (parser : CmdLnArgParser) :
  (forall src lbl,
     OptionExists parser "f" = true ->
     ArgAsString parser "f" = src +:+ "," +:+ lbl ->
     commas src = 0 -> commas lbl = 0 ->
     CheckRootFilename src = true ->
     match GetCommandLineArgs parser with
     | Ret opt => gOptXSecFilename_curr opt = src /\ gLabelCurr opt = lbl
     | Exit status => status = 1%Z /\ OptionExists parser "r" = true
     | Abort => OptionExists parser "r" = true
     | Undef | OutOfFuel => False
     end) /\
  (forall src,
     OptionExists parser "f" = true ->
     ArgAsString parser "f" = src ->
     commas src = 0 ->
     CheckRootFilename src = true ->
     match GetCommandLineArgs parser with
     | Ret opt => gOptXSecFilename_curr opt = src /\ gLabelCurr opt = "current"
     | Exit status => status = 1%Z /\ OptionExists parser "r" = true
     | Abort => OptionExists parser "r" = true
     | Undef | OutOfFuel => False
     end) /\
  (OptionExists parser "f" = true ->
   2 <= commas (ArgAsString parser "f") ->
   GetCommandLineArgs parser = Abort) /\
  (OptionExists parser "f" = false -> GetCommandLineArgs parser = Exit 1) /\
  (forall src lbl,
     OptionExists parser "f" = true ->
     ArgAsString parser "f" = src +:+ "," +:+ lbl ->
     commas src = 0 -> commas lbl = 0 ->
     CheckRootFilename src = false ->
     GetCommandLineArgs parser = Exit 1) /\
  (forall src,
     OptionExists parser "f" = true ->
     ArgAsString parser "f" = src ->
     commas src = 0 ->
     CheckRootFilename src = false ->
     GetCommandLineArgs parser = Exit 1).
Proof.
  repeat split.
  - intros src lbl Hf Harg Hsrc Hlbl Hok.
    apply GetCommandLineArgs_after_f; auto.
    rewrite Harg. now apply file_and_label_pair.
  - intros src Hf Harg Hsrc Hok.
    apply GetCommandLineArgs_after_f; auto.
    rewrite Harg. now apply file_and_label_plain.
  - intros Hf Hc. unfold GetCommandLineArgs.
    rewrite Hf, (file_and_label_abort _ "current" Hc). reflexivity.
  - intros Hf. unfold GetCommandLineArgs. rewrite Hf. reflexivity.
  - intros src lbl Hf Harg Hsrc Hlbl Hbad. unfold GetCommandLineArgs.
    rewrite Hf, Harg, (file_and_label_pair src lbl "current" Hsrc Hlbl).
    outcome_simpl. rewrite Hbad. reflexivity.
  - intros src Hf Harg Hsrc Hbad. unfold GetCommandLineArgs.
    rewrite Hf, Harg, (file_and_label_plain src "current" Hsrc).
    outcome_simpl. rewrite Hbad. reflexivity.
Qed.

Lemma GetCommandLineArgs_f_option_witness :
  GetCommandLineArgs (H := root_with [("a.dat", [])])
    (command_line [("f"%char, "a.dat,Label")])
  = Ret (mkCmdLine "a.dat" "" "xsec.ps" false "Label" "") /\
  match GetCommandLineArgs (H := root_with [("a.dat", [])])
          (command_line [("f"%char, "a.dat,Label")]) with
  | Ret opt => gOptXSecFilename_curr opt = "a.dat" /\ gLabelCurr opt = "Label"
  | Exit status =>
      status = 1%Z /\
      OptionExists (command_line [("f"%char, "a.dat,Label")]) "r" = true
  | Abort => OptionExists (command_line [("f"%char, "a.dat,Label")]) "r" = true
  | Undef | OutOfFuel => False
  end.
Proof.
  split; [reflexivity|].
  apply (proj1 (GetCommandLineArgs_f_option (H := root_with [("a.dat", [])])
                  (command_line [("f"%char, "a.dat,Label")])) "a.dat" "Label");
    reflexivity.
Defined.

(** C6 as the spec words it fails: "-f a,b,c" ends the process by the
    failed assert, whether or not "a" is accessible, and not by exit(1). *)
Lemma GetCommandLineArgs_counterexample :
  GetCommandLineArgs (H := root_with [("a", [])])
    (command_line [("f"%char, "a,b,c")]) = Abort /\
  GetCommandLineArgs (H := root_with [])
    (command_line [("f"%char, "a,b,c")]) = Abort /\
  @Abort CmdLine <> Exit 1.
Proof. repeat split; discriminate. Qed.

(** ** Draw *)

Section Draw_facts.
Context `{RootSystem}.

Lemma pages_app (evs1 evs2 : list RenderEvent) :
  pages (evs1 ++ evs2) = pages evs1 + pages evs2.
Proof. unfold pages. now rewrite List.filter_app, length_app. Qed.

Lemma Draw_absent (plot : string) (title : option string) (g : Globals)
    (dir : TDirectory) :
  gDirCurr g = Some dir ->
  dir !! plot = None ->
  reference_graph g plot = None ->
  Draw plot title g = Ret (header_only title g).
Proof.
  intros Hdir Hcurr Href. unfold Draw, reference_graph in *. simpl.
  rewrite Hdir. outcome_simpl. rewrite Hcurr, Href. reflexivity.
Qed.

(** A run of [Draw] calls for categories that are all absent returns, and
    the output has no page more. *)
Lemma DrawAll_absent (calls : list (string * string)) (probestr targetstr : string)
    (dir : TDirectory) : forall g,
  gDirCurr g = Some dir ->
  Forall (fun c => dir !! c.1 = None /\ reference_graph g c.1 = None) calls ->
  exists g',
    DrawAll calls probestr targetstr g = Ret g' /\
    pages (gPS g') = pages (gPS g).
Proof.
  induction calls as [|[plot fmt] calls IH]; intros g Hdir Habsent.
  - exists g. split; reflexivity.
  - apply Forall_cons in Habsent as [[Hcurr Href] Habsent]. simpl in Hcurr, Href.
    destruct (IH (header_only (Some (Form fmt [probestr; targetstr])) g))
      as (g' & Hrun & Hpages); [exact Hdir | exact Habsent |].
    exists g'. simpl. rewrite (Draw_absent plot _ g dir Hdir Hcurr Href).
    outcome_simpl. split; [exact Hrun|]. rewrite Hpages.
    unfold header_only. simpl. rewrite !pages_app.
    change (pages [EvCd gPadTitle; EvHeader (Some (Form fmt [probestr; targetstr]))])
      with 0.
    change (pages [EvCd gPadXSecs]) with 0. lia.
Qed.

End Draw_facts.

(** C5, as the code has it: when the graph of a category is absent from the
    current directory and from the reference directory (or no reference
    directory is open), [Draw] returns after the header, before any frame,
    graph or new page: the output has no page more, and a run of [Draw]
    calls goes on with the next category. *)
Theorem Draw_skips_absent_category `{RootSystem} (plot : string)
    (title : option string) (g : Globals) (dir : TDirectory) :
  gDirCurr g = Some dir ->
  dir !! plot = None ->
  reference_graph g plot = None ->
  Draw plot title g = Ret (header_only title g) /\
  pages (gPS (header_only title g)) = pages (gPS g) /\
  gPS (header_only title g)
    = gPS g ++ [EvCd gPadTitle; EvHeader title; EvCd gPadXSecs] /\
  forall fmt rest probestr targetstr,
    DrawAll ((plot, fmt) :: rest) probestr targetstr g =
    DrawAll rest probestr targetstr
      (header_only (Some (Form fmt [probestr; targetstr])) g).
Proof.
  intros Hdir Hcurr Href. repeat split.
  - eapply Draw_absent; eassumption.
  - unfold header_only. simpl. rewrite !pages_app.
    change (pages [EvCd gPadTitle; EvHeader title]) with 0.
    change (pages [EvCd gPadXSecs]) with 0. lia.
  - unfold header_only. simpl. now rewrite <- app_assoc.
  - intros fmt rest probestr targetstr. simpl.
    erewrite Draw_absent by eassumption. reflexivity.
Qed.

Lemma Draw_skips_absent_category_witness :
  Draw (H := root_with []) "tot_nc" (Some "TOT NC") no_reference_state
    = Ret (header_only (Some "TOT NC") no_reference_state) /\
  pages (gPS (header_only (Some "TOT NC") no_reference_state)) = 0.
Proof.
  destruct (Draw_skips_absent_category (H := root_with []) "tot_nc" (Some "TOT NC")
              no_reference_state {[ "tot_cc" := sparse_curve ]})
    as (Hrun & Hpages & _); [reflexivity | reflexivity | reflexivity |].
  split; [exact Hrun | exact Hpages].
Defined.

(** C5 as the spec words it fails: "tot_nc" is absent from the current
    directory, and [Draw] goes on to a new page all the same, because the
    reference directory holds it. *)
Lemma Draw_counterexample :
  (exists dir, gDirCurr reference_only_state = Some dir /\ dir !! "tot_nc" = None) /\
  exists g',
    Draw (H := root_with []) "tot_nc" (Some "TOT NC") reference_only_state = Ret g' /\
    pages (gPS g') = S (pages (gPS reference_only_state)).
Proof.
  split.
  - eexists. split; reflexivity.
  - eexists. split; vm_compute; reflexivity.
Qed.

(** The whole program on [two_files].  Without a reference the output has
    the two pages of [Init] and the page of "tot_cc"; with the reference it
    has one page more, for "tot_nc", and [DrawRatio] has sent one message,
    for "tot_cc". *)
Example main_two_files :
  (exists g,
     main (H := root_with two_files) (H0 := pdg_numbering)
       (command_line [("f"%char, "new.root")]) = Ret g /\
     pages (gPS g) = 3 /\ gLog g = []) /\
  (exists g,
     main (H := root_with two_files) (H0 := pdg_numbering)
       (command_line [("f"%char, "new.root"); ("r"%char, "old.root,v2")]) = Ret g /\
     pages (gPS g) = 4 /\ gLog g = ["Drawing ratio..."]).
Proof.
  split; eexists; (split; [vm_compute; reflexivity|]); split; reflexivity.
Qed.

(** ** MultiGraph *)

Section MultiGraph_facts.

Implicit Types (mg : MultiGraph) (h : heap) (l : positive).

Lemma to_unsigned_int_small (n : nat) :
  n <= 141 -> to_unsigned_int (N.of_nat n) = N.of_nat n.
Proof.
  intros Hn. unfold to_unsigned_int. apply N.mod_small.
  apply N.lt_le_trans with (N.of_nat 142); [lia|]. vm_compute. discriminate.
Qed.

Lemma NGraphs_le mg : (NGraphs mg <= N.of_nat (length (_mgraph mg)))%N.
Proof. apply N.Div0.mod_le. Qed.

Lemma set_attribute_live l f h g :
  h !! l = Some g -> set_attribute (Some l) f h = Ret (<[l := f g]> h).
Proof. intros Hg. unfold set_attribute. simpl. now rewrite Hg. Qed.

(** [FormatGraph] on an entry that holds the address of a live graph: the
    six attributes of that graph are overwritten, its points are kept. *)
Lemma FormatGraph_live (i : nat) mg h l g (c m : Z) :
  colors !! (i mod 10) = Some c ->
  markers !! (i / 10) = Some m ->
  _mgraph mg !! i = Some (Some l) ->
  h !! l = Some g ->
  FormatGraph (N.of_nat i) mg h = Ret (<[l := mkGraph (fPoints g) 1 c m c 2 1]> h).
Proof.
  intros Hc Hm Hp Hg. unfold FormatGraph, index, n_colors.
  rewrite N2Nat.inj_mod, N2Nat.inj_div, Nat2N.id.
  change (N.to_nat 10) with 10. rewrite Hc, Hm, Hp. outcome_simpl.
  rewrite (set_attribute_live l _ h g Hg). outcome_simpl.
  repeat (erewrite set_attribute_live by apply lookup_insert_eq;
          outcome_simpl; rewrite insert_insert_eq).
  reflexivity.
Qed.

(** The tables cover the indices 0..139. *)
Lemma style_tables (i : nat) :
  i < 140 ->
  exists c m, colors !! (i mod 10) = Some c /\ markers !! (i / 10) = Some m.
Proof.
  intros Hi.
  destruct (lookup_lt_is_Some_2 colors (i mod 10)) as [c Hc].
  { change (length colors) with 10. apply Nat.mod_upper_bound. lia. }
  destruct (lookup_lt_is_Some_2 markers (i / 10)) as [m Hm].
  { change (length markers) with 14. apply Nat.Div0.div_lt_upper_bound. lia. }
  eauto.
Qed.

(** One [AddGraph] of a live graph into an aggregator with fewer than 140
    entries. *)
Lemma AddGraph_live legend l mg h g :
  length (_mgraph mg) < 140 ->
  h !! l = Some g ->
  exists c m,
    colors !! (length (_mgraph mg) mod 10) = Some c /\
    markers !! (length (_mgraph mg) / 10) = Some m /\
    AddGraph legend (Some l) mg h =
      Ret (mkMultiGraph (_mgraph mg ++ [Some l]) (_legend_entries mg ++ [legend]),
           <[l := mkGraph (fPoints g) 1 c m c 2 1]> h).
Proof.
  intros Hn Hg. destruct (style_tables _ Hn) as (c & m & Hc & Hm).
  exists c, m. split; [exact Hc|]. split; [exact Hm|].
  unfold AddGraph. cbn [_mgraph _legend_entries].
  rewrite length_app. cbn [length].
  replace (N.of_nat (length (_mgraph mg) + 1) - 1)%N
    with (N.of_nat (length (_mgraph mg))) by lia.
  rewrite to_unsigned_int_small by lia.
  erewrite FormatGraph_live; [reflexivity | exact Hc | exact Hm | | exact Hg].
  cbn [_mgraph]. rewrite lookup_app_r by lia.
  now rewrite Nat.sub_diag.
Qed.

Lemma AddGraphs_app adds1 adds2 mg h :
  AddGraphs (adds1 ++ adds2) mg h =
  AddGraphs adds1 mg h ≫= fun s => AddGraphs adds2 s.1 s.2.
Proof.
  revert mg h. induction adds1 as [|[legend graph] adds1 IH]; intros mg h.
  - reflexivity.
  - simpl. destruct (AddGraph legend graph mg h) as [[mg1 h1]| | | |];
      outcome_simpl; try reflexivity. apply IH.
Qed.

(** A sequence of [AddGraph] calls of live graphs that stays within 140
    entries returns; the vectors grow by the graphs and the labels, and the
    store holds the same addresses. *)
Lemma AddGraphs_live (adds : list (string * pointer)) : forall mg h,
  length (_mgraph mg) + length adds <= 140 ->
  Forall (fun a => exists l, a.2 = Some l /\ is_Some (h !! l)) adds ->
  exists h',
    AddGraphs adds mg h =
      Ret (mkMultiGraph (_mgraph mg ++ map snd adds)
             (_legend_entries mg ++ map fst adds), h') /\
    forall l, is_Some (h' !! l) <-> is_Some (h !! l).
Proof.
  induction adds as [|[legend graph] adds IH]; intros mg h Hn Hlive.
  - exists h. simpl. rewrite !app_nil_r. destruct mg. split; [reflexivity | tauto].
  - apply Forall_cons in Hlive as [(l & Hl & [g Hg]) Hlive]. simpl in Hl, Hn. subst graph.
    destruct (AddGraph_live legend l mg h g) as (c & m & _ & _ & Hadd); [lia | exact Hg |].
    assert (Hdom : forall l', is_Some (<[l := mkGraph (fPoints g) 1 c m c 2 1]> h !! l')
                              <-> is_Some (h !! l')).
    { intros l'. destruct (decide (l = l')) as [<-|Hne].
      - rewrite lookup_insert_eq, Hg. split; eauto.
      - now rewrite lookup_insert_ne. }
    destruct (IH (mkMultiGraph (_mgraph mg ++ [Some l]) (_legend_entries mg ++ [legend]))
                (<[l := mkGraph (fPoints g) 1 c m c 2 1]> h)) as (h' & Hrun & Hdom').
    { cbn [_mgraph]. rewrite length_app. simpl. lia. }
    { eapply Forall_impl; [exact Hlive|]. intros a (l' & Ha & Hsome).
      exists l'. split; [exact Ha|]. now apply Hdom. }
    exists h'. simpl. rewrite Hadd. outcome_simpl. rewrite Hrun.
    cbn [_mgraph _legend_entries]. rewrite <- !app_assoc. split; [reflexivity|].
    intros l'. rewrite Hdom'. apply Hdom.
Qed.

(** Every aggregator made by the constructor and [AddGraph] is well
    formed. *)
Lemma AddGraphs_well_formed (adds : list (string * pointer)) : forall mg h mg' h',
  well_formed mg ->
  AddGraphs adds mg h = Ret (mg', h') ->
  well_formed mg'.
Proof.
  induction adds as [|[legend graph] adds IH]; intros mg h mg' h' Hwf Hrun;
    simpl in Hrun.
  - now injection Hrun as <- _.
  - unfold AddGraph in Hrun.
    destruct (FormatGraph _ _ h) as [h1| | | |]; outcome_simpl; try discriminate.
    eapply IH; [|exact Hrun]. unfold well_formed in *. simpl.
    now rewrite !length_app, Hwf.
Qed.

Lemma new_MultiGraph_well_formed : well_formed new_MultiGraph.
Proof. reflexivity. Qed.

End MultiGraph_facts.

(** C9: in an aggregator whose two vectors have one length, [GetGraph] and
    [GetLegendEntry] return the stored graph and the stored label for an
    index below [NGraphs()], and the null graph and the empty string for any
    other index; they read no vector out of range. *)
Theorem accessors_bounds_checked (mg : MultiGraph) (i : N) :
  well_formed mg ->
  ((i < NGraphs mg)%N ->
     exists p e,
       _mgraph mg !! N.to_nat i = Some p /\
       _legend_entries mg !! N.to_nat i = Some e /\
       GetGraph mg i = Ret p /\
       GetLegendEntry mg i = Ret e) /\
  ((NGraphs mg <= i)%N ->
     GetGraph mg i = Ret None /\ GetLegendEntry mg i = Ret "").
Proof.
  intros Hwf. unfold GetGraph, GetLegendEntry. split.
  - intros Hi. pose proof (NGraphs_le mg) as Hle.
    destruct (lookup_lt_is_Some_2 (_mgraph mg) (N.to_nat i)) as [p Hp]; [lia|].
    destruct (lookup_lt_is_Some_2 (_legend_entries mg) (N.to_nat i)) as [e He].
    { rewrite Hwf. lia. }
    exists p, e. apply N.ltb_lt in Hi. rewrite Hi. unfold index.
    rewrite Hp, He. auto.
  - intros Hi. apply N.ltb_ge in Hi. rewrite Hi. auto.
Qed.

(** What one [AddGraph] of a live graph changes and what it leaves. *)
Lemma AddGraph_effect (legend : string) (l : positive) (mg : MultiGraph) (h : heap) :
  well_formed mg ->
  length (_mgraph mg) < 140 ->
  is_Some (h !! l) ->
  exists mg' h',
    AddGraph legend (Some l) mg h = Ret (mg', h') /\
    NGraphs mg' = (NGraphs mg + 1)%N /\
    well_formed mg' /\
    (forall j, (j < NGraphs mg)%N ->
       GetGraph mg' j = GetGraph mg j /\
       GetLegendEntry mg' j = GetLegendEntry mg j) /\
    GetGraph mg' (NGraphs mg) = Ret (Some l) /\
    GetLegendEntry mg' (NGraphs mg) = Ret legend /\
    (forall l', l' <> l -> h' !! l' = h !! l') /\
    fPoints <$> h' !! l = fPoints <$> h !! l.
Proof.
  intros Hwf Hn [g Hg].
  destruct (AddGraph_live legend l mg h g Hn Hg) as (c & m & _ & _ & Hadd).
  eexists _, _. split; [exact Hadd|].
  assert (Hcount : NGraphs mg = N.of_nat (length (_mgraph mg))).
  { unfold NGraphs. apply to_unsigned_int_small. lia. }
  assert (Hcount' : NGraphs (mkMultiGraph (_mgraph mg ++ [Some l])
                               (_legend_entries mg ++ [legend]))
                    = N.of_nat (length (_mgraph mg) + 1)).
  { unfold NGraphs. cbn [_mgraph]. rewrite length_app. cbn [length].
    apply to_unsigned_int_small. lia. }
  unfold GetGraph, GetLegendEntry, well_formed in *.
  rewrite Hcount', Hcount. cbn [_mgraph _legend_entries].
  repeat split.
  - lia.
  - rewrite !length_app, Hwf. reflexivity.
  - destruct (N.ltb_spec j (N.of_nat (length (_mgraph mg)))) as [Hj|Hj]; [|lia].
    destruct (N.ltb_spec j (N.of_nat (length (_mgraph mg) + 1))) as [_|Hj']; [|lia].
    unfold index. rewrite lookup_app_l by lia. reflexivity.
  - destruct (N.ltb_spec j (N.of_nat (length (_mgraph mg)))) as [Hj|Hj]; [|lia].
    destruct (N.ltb_spec j (N.of_nat (length (_mgraph mg) + 1))) as [_|Hj']; [|lia].
    unfold index. rewrite lookup_app_l by lia. reflexivity.
  - destruct (N.ltb_spec (N.of_nat (length (_mgraph mg)))
                (N.of_nat (length (_mgraph mg) + 1))) as [_|Hj']; [|lia].
    unfold index. rewrite Nat2N.id, lookup_app_r by lia.
    now rewrite Nat.sub_diag.
  - destruct (N.ltb_spec (N.of_nat (length (_mgraph mg)))
                (N.of_nat (length (_mgraph mg) + 1))) as [_|Hj']; [|lia].
    unfold index. rewrite Nat2N.id, lookup_app_r by lia.
    now rewrite Hwf, Nat.sub_diag.
  - intros l' Hne. now rewrite lookup_insert_ne.
  - rewrite lookup_insert_eq, Hg. reflexivity.
Qed.

(** C10: [AddGraph] of a live graph into an aggregator with fewer than 140
    entries returns; [NGraphs()] is one more; every earlier index gives the
    same graph address and the same label as before; the new index gives the
    graph and the label just added; in the store only the graph at the new
    index is written, and its points are kept. *)
Theorem AddGraph_frame (legend : string) (l : positive) (mg : MultiGraph) (h : heap) :
  well_formed mg ->
  length (_mgraph mg) < 140 ->
  is_Some (h !! l) ->
  exists mg' h',
    AddGraph legend (Some l) mg h = Ret (mg', h') /\
    NGraphs mg' = (NGraphs mg + 1)%N /\
    well_formed mg' /\
    (forall j, (j < NGraphs mg)%N ->
       GetGraph mg' j = GetGraph mg j /\
       GetLegendEntry mg' j = GetLegendEntry mg j) /\
    GetGraph mg' (NGraphs mg) = Ret (Some l) /\
    GetLegendEntry mg' (NGraphs mg) = Ret legend /\
    (forall l', l' <> l -> h' !! l' = h !! l') /\
    fPoints <$> h' !! l = fPoints <$> h !! l.
Proof. apply AddGraph_effect. Qed.

(** C4: on a new aggregator, after any [adds] of live graphs, fewer than 140
    of them, the next [AddGraph] returns and gives its graph, which sits at
    the index [i = length adds], the marker [markers[i / 10]], the colour
    [colors[i mod 10]] for marker and line, the marker size 1, the line
    width 2 and the line style 1: the style depends on [i] alone.  At the
    indices 0, 9 and 10 the colour and the marker are (1, 3), (40, 3) and
    (1, 4), the first and the last entries of the colour table with the
    first marker, then the first colour with the second marker. *)
Theorem AddGraph_style_by_index (adds : list (string * pointer))
    (legend : string) (l : positive) (h : heap) :
  let i := length adds in
  i < 140 ->
  Forall (fun a => exists l', a.2 = Some l' /\ is_Some (h !! l')) adds ->
  is_Some (h !! l) ->
  exists mg h' c m,
    AddGraphs (adds ++ [(legend, Some l)]) new_MultiGraph h = Ret (mg, h') /\
    GetGraph mg (N.of_nat i) = Ret (Some l) /\
    GetLegendEntry mg (N.of_nat i) = Ret legend /\
    colors !! (i mod 10) = Some c /\
    markers !! (i / 10) = Some m /\
    style_of <$> h' !! l = Some (1%Q, c, m, c, 2%Z, 1%Z) /\
    (i = 0 -> c = 1%Z /\ m = 3%Z) /\
    (i = 9 -> c = 40%Z /\ m = 3%Z) /\
    (i = 10 -> c = 1%Z /\ m = 4%Z).
Proof.
  intros i Hi Hlive Hl.
  destruct (AddGraphs_live adds new_MultiGraph h) as (h0 & Hrun0 & Hdom0);
    [simpl; lia | exact Hlive |].
  simpl in Hrun0. destruct (proj2 (Hdom0 l) Hl) as [g Hg].
  set (mg0 := mkMultiGraph (map snd adds) (map fst adds)) in *.
  assert (Hlen0 : length (_mgraph mg0) = i) by apply length_map.
  assert (Hwf0 : well_formed mg0).
  { unfold well_formed, mg0. simpl. now rewrite !length_map. }
  destruct (AddGraph_live legend l mg0 h0 g) as (c & m & Hc & Hm & Hadd);
    [lia | exact Hg |].
  destruct (AddGraph_effect legend l mg0 h0 Hwf0) as
    (mg' & h' & Hadd' & _ & _ & _ & Hget & Hlegend & _); [lia | eauto |].
  rewrite Hadd in Hadd'. injection Hadd' as <- <-.
  assert (Hcount : NGraphs mg0 = N.of_nat i).
  { unfold NGraphs. rewrite Hlen0. apply to_unsigned_int_small. lia. }
  rewrite Hcount in Hget, Hlegend. rewrite Hlen0 in Hc, Hm.
  eexists _, _, c, m. split.
  { rewrite AddGraphs_app, Hrun0. outcome_simpl. fold mg0. rewrite Hadd. reflexivity. }
  split; [exact Hget|]. split; [exact Hlegend|].
  split; [exact Hc|]. split; [exact Hm|]. split.
  { rewrite lookup_insert_eq. reflexivity. }
  split; [|split]; intros Hi0; rewrite Hi0 in Hc, Hm; simpl in Hc, Hm;
    split; congruence.
Qed.

Lemma accessors_bounds_checked_witness :
  well_formed two_entries /\
  (exists p e,
     _mgraph two_entries !! N.to_nat 1 = Some p /\
     _legend_entries two_entries !! N.to_nat 1 = Some e /\
     GetGraph two_entries 1 = Ret p /\
     GetLegendEntry two_entries 1 = Ret e) /\
  GetGraph two_entries 2 = Ret None /\
  GetLegendEntry two_entries 2 = Ret "".
Proof.
  assert (Hwf : well_formed two_entries) by reflexivity.
  split; [exact Hwf|]. split.
  - apply (proj1 (accessors_bounds_checked two_entries 1 Hwf)). reflexivity.
  - apply (proj2 (accessors_bounds_checked two_entries 2 Hwf)). discriminate.
Defined.

Lemma AddGraph_frame_witness :
  exists mg' h',
    AddGraph "again" (Some 1%positive) two_entries two_graphs = Ret (mg', h') /\
    NGraphs mg' = (NGraphs two_entries + 1)%N /\
    well_formed mg' /\
    (forall j, (j < NGraphs two_entries)%N ->
       GetGraph mg' j = GetGraph two_entries j /\
       GetLegendEntry mg' j = GetLegendEntry two_entries j) /\
    GetGraph mg' (NGraphs two_entries) = Ret (Some 1%positive) /\
    GetLegendEntry mg' (NGraphs two_entries) = Ret "again" /\
    (forall l', l' <> 1%positive -> h' !! l' = two_graphs !! l') /\
    fPoints <$> h' !! 1%positive = fPoints <$> two_graphs !! 1%positive.
Proof.
  apply (AddGraph_frame "again" 1%positive two_entries two_graphs).
  - reflexivity.
  - simpl. lia.
  - eexists. reflexivity.
Defined.

Lemma AddGraph_style_by_index_witness :
  exists mg h' c m,
    AddGraphs (replicate 10 ("old", Some 1%positive) ++ [("new", Some 2%positive)])
      new_MultiGraph two_graphs = Ret (mg, h') /\
    GetGraph mg 10 = Ret (Some 2%positive) /\
    GetLegendEntry mg 10 = Ret "new" /\
    colors !! 0 = Some c /\
    markers !! 1 = Some m /\
    style_of <$> h' !! 2%positive = Some (1%Q, c, m, c, 2%Z, 1%Z) /\
    (10 = 0 -> c = 1%Z /\ m = 3%Z) /\
    (10 = 9 -> c = 40%Z /\ m = 3%Z) /\
    (10 = 10 -> c = 1%Z /\ m = 4%Z).
Proof.
  apply (AddGraph_style_by_index (replicate 10 ("old", Some 1%positive)) "new"
           2%positive two_graphs).
  - simpl. lia.
  - repeat constructor; exists 1%positive; split; try reflexivity; eexists; reflexivity.
  - eexists. reflexivity.
Defined.


(** * Further properties of the code *)

(** ** TrimGraph: the decades and the flags *)

(** X1: the decades of a graph are consecutive runs of indices that
    together hold every index of the graph once, in order: the first begins
    at index 0, each next one right after the last index of the one before,
    and the last one ends at the last point. *)
Theorem decades_cover (gr : TGraph) :
  concat (map decade_indices (decades gr)) = seq 0 (length gr).
Proof.
  destruct gr as [|p gr]; [reflexivity|].
  unfold decades, GetN. rewrite decades_from_cover; [f_equal; lia | simpl; lia | lia].
Qed.

(** X2: what a round of the loop is.  A round that begins at the point
    [(xmin, _)] runs up to the first point whose abscissa is beyond xmax,
    the double that the product 10 * xmin rounds to, that point included,
    or up to the last point of the graph; its count is the number of its
    points with abscissa in (xmin, xmax]. *)
Theorem decade_structure (gr : TGraph) (d : decade) :
  d ∈ decades gr ->
  exists xmin,
    GetX gr (first_point d) = Ret xmin /\
    first_point d <= last_point d < length gr /\
    (forall j, first_point d <= j < last_point d ->
       exists x, GetX gr j = Ret x /\ (x <= mul_double 10 xmin)%Q) /\
    (last_point d = length gr - 1 \/
     exists x, GetX gr (last_point d) = Ret x /\ (mul_double 10 xmin < x)%Q) /\
    ndec_points d =
      length (List.filter (inside_decade xmin (mul_double 10 xmin))
                (points_between gr (first_point d) (last_point d))).
Proof.
  intros Hd.
  pose proof (decades_from_count gr (S (GetN gr)) 0 0) as Hcount.
  pose proof (decades_from_ends gr (S (GetN gr)) 0 0) as Hends.
  rewrite Forall_forall in Hcount, Hends.
  destruct (Hcount d Hd) as (xmin & Hx & Hrange & Hn).
  destruct (Hends d Hd) as (xmin' & Hx' & Hbefore & Hlast).
  rewrite Hx in Hx'. injection Hx' as <-.
  exists xmin. auto.
Qed.

Lemma decade_structure_witness :
  exists xmin,
    GetX tenths_curve 0 = Ret xmin /\
    0 <= 3 < length tenths_curve /\
    (forall j, 0 <= j < 3 ->
       exists x, GetX tenths_curve j = Ret x /\ (x <= mul_double 10 xmin)%Q) /\
    (3 = length tenths_curve - 1 \/
     exists x, GetX tenths_curve 3 = Ret x /\ (mul_double 10 xmin < x)%Q) /\
    2 = length (List.filter (inside_decade xmin (mul_double 10 xmin))
                  (points_between tenths_curve 0 3)).
Proof.
  apply (decade_structure tenths_curve (mkDecade 0 3 2)).
  vm_compute. left.
Defined.



(** X4: for a graph with a point and a positive maximum, [TrimGraph]
    returns a graph made of points of the input in their order (none is
    changed, added or moved), and it begins with the first point of the
    input. *)
Theorem TrimGraph_sublist (gr : TGraph) (K : Z) :
  gr <> [] ->
  (0 < K)%Z ->
  exists gr2,
    TrimGraph (Some gr) K = Ret (Some gr2) /\
    gr2 `sublist_of` gr /\
    head gr2 = head gr.
Proof.
  intros Hne HK.
  assert (Hlen : 0 < length gr) by (destruct gr; [congruence | simpl; lia]).
  destruct (trim_loop_keeps_first K gr (S (length gr)) 0 0 (replicate (length gr) false))
    as (remv & Hrun & Hlenr & _ & Hall); [lia | apply length_replicate | lia | lia |].
  exists (kept_points gr remv). unfold TrimGraph, trim_flags, GetN. rewrite Hrun.
  split; [reflexivity|]. split; [apply kept_points_sublist|].
  destruct (decades_first gr Hne) as (d & ds & Hd & Hfirst).
  unfold decades, GetN in Hd. rewrite Hd in Hall.
  apply Forall_cons in Hall as [[_ Hclear] _]. rewrite Hfirst in Hclear.
  destruct gr as [|p gr]; [congruence|].
  destruct remv as [|r remv]; [discriminate|].
  injection Hclear as ->. reflexivity.
Qed.

Lemma TrimGraph_sublist_witness :
  exists gr2,
    TrimGraph (Some dense_curve) 2 = Ret (Some gr2) /\
    gr2 `sublist_of` dense_curve /\
    head gr2 = head dense_curve.
Proof.
  apply (TrimGraph_sublist dense_curve 2); [discriminate | reflexivity].
Defined.

(** X5: the stride of a round that counts fewer than twice the maximum is
    1, so nothing is removed from a round before it counts [2 K] points: a
    graph with a point, and fewer than 2^31 of them as an [int] holds, in
    which every round of the loop counts fewer than [2 K] points comes out
    of [TrimGraph] unchanged. *)
Theorem TrimGraph_below_twice (gr : TGraph) (K : Z) :
  gr <> [] ->
  (0 < K)%Z ->
  (Z.of_nat (GetN gr) < 2 ^ 31)%Z ->
  Forall (fun d => (Z.of_nat (ndec_points d) < 2 * K)%Z) (decades gr) ->
  TrimGraph (Some gr) K = Ret (Some gr).
Proof. apply TrimGraph_unchanged_below_twice. Qed.

Lemma TrimGraph_below_twice_witness :
  TrimGraph (Some dense_curve) 3 = Ret (Some dense_curve).
Proof.
  apply (TrimGraph_below_twice dense_curve 3).
  - discriminate.
  - reflexivity.
  - reflexivity.
  - vm_compute. repeat constructor.
Defined.

(** ** DrawRatio and DrawFrame *)

(** X6: the ratio of a graph to itself is 1 at every point, also where the
    graph evaluates to zero. *)
Theorem DrawRatio_same_graph `{RootSystem} (gr : TGraph) :
  exists ratio,
    DrawRatio (Some gr) (Some gr) = (Some ratio, ["Drawing ratio..."]) /\
    map fst ratio = map fst gr /\
    Forall (fun p => p.2 == 1) ratio.
Proof.
  eexists. split; [reflexivity|]. split; [now rewrite map_map|].
  apply Forall_forall. intros p Hp.
  apply list_elem_of_In, in_map_iff in Hp as (q & <- & _). cbn [snd].
  unfold ratio_at. destruct (Qnonzero (Eval gr q.1)) eqn:Hnz; cbn [andb].
  - apply Qnonzero_true in Hnz. unfold Qdiv. now apply Qmult_inv_r.
  - reflexivity.
Qed.

Section DrawFrame_facts.
Context `{RootSystem}.

Lemma pages_DrawFrame gr0 gr1 p xt yt yminsc ymaxsc :
  pages (DrawFrame gr0 gr1 p xt yt yminsc ymaxsc) = 0.
Proof.
  unfold DrawFrame, DrawFrame_range.
  destruct gr0, gr1, p; reflexivity.
Qed.

Lemma pages_Draw_graph gr opt : pages (Draw_graph gr opt) = 0.
Proof. destruct gr; reflexivity. Qed.

End DrawFrame_facts.

(** X7: on a pad, [DrawFrame] draws one frame.  Its lower x bound is never
    below 0.1, whatever the axis ranges of the graphs, and its upper x bound
    is 1.5 times the larger of the upper x bounds of the graphs that are
    present; without a pad it draws nothing. *)
Theorem DrawFrame_bounds `{RootSystem} (gr0 gr1 : option TGraph) (xt yt : string)
    (yminsc ymaxsc : Q) :
  (forall pad,
     exists xmin xmax ymin ymax,
       DrawFrame gr0 gr1 (Some pad) xt yt yminsc ymaxsc
         = [EvFrame pad xmin xmax ymin ymax xt yt] /\
       (0.1 <= xmin)%Q /\
       (forall g, gr0 = Some g -> (GetXaxis_GetXmax g * 1.5 <= xmax)%Q) /\
       (forall g, gr1 = Some g -> (GetXaxis_GetXmax g * 1.5 <= xmax)%Q)) /\
  DrawFrame gr0 gr1 None xt yt yminsc ymaxsc = [].
Proof.
  assert (Hscale : forall a b : Q, (a <= b -> a * 1.5 <= b * 1.5)%Q).
  { intros a b Hab. apply Qmult_le_compat_r; [exact Hab | discriminate]. }
  split.
  - intros pad. unfold DrawFrame, DrawFrame_range.
    destruct gr0 as [g0|], gr1 as [g1|]; eexists _, _, _, _;
      (split; [reflexivity|]); (split; [apply Q.le_max_l|]);
      split; intros g [= <-]; apply Hscale;
      [apply Q.le_max_l | apply Q.le_max_r | apply Qle_refl | apply Q.le_max_r].
  - unfold DrawFrame, DrawFrame_range. destruct gr0, gr1; reflexivity.
Qed.

(** ** Draw and the pages of the output *)

Section Draw_pages.
Context `{RootSystem}.

Lemma TrimGraph_returns (gr : option TGraph) (K : Z) :
  gr <> Some [] ->
  (0 < K)%Z ->
  exists gr2, TrimGraph gr K = Ret gr2 /\ (gr = None <-> gr2 = None).
Proof.
  intros Hne HK. destruct gr as [gr|].
  - assert (Hlen : 0 < length gr) by (destruct gr; [congruence | simpl; lia]).
    destruct (trim_loop_keeps_first K gr (S (length gr)) 0 0
                (replicate (length gr) false))
      as (remv & Hrun & _); [lia | apply length_replicate | lia | lia |].
    eexists. unfold TrimGraph, trim_flags, GetN. rewrite Hrun.
    split; [reflexivity|]. split; discriminate.
  - exists None. split; [reflexivity | tauto].
Qed.

Lemma pages_page_events opt gr_curr gr_ref0 gr_ref0_trim :
  pages (page_events opt gr_curr gr_ref0 gr_ref0_trim) = 1.
Proof.
  unfold page_events, page_body.
  rewrite !pages_app, !pages_DrawFrame, !pages_Draw_graph.
  destruct (gOptHaveRef opt).
  - rewrite !pages_app, pages_DrawFrame, pages_Draw_graph. reflexivity.
  - reflexivity.
Qed.

Lemma Draw_present (plot title : string) (g : Globals) (dir : TDirectory)
    (gr_ref0_trim : option TGraph) :
  gDirCurr g = Some dir ->
  dir !! plot <> None \/ reference_graph g plot <> None ->
  TrimGraph (reference_graph g plot) 20 = Ret gr_ref0_trim ->
  exists g',
    Draw plot (Some title) g = Ret g' /\
    gPS g' = gPS (header_only (Some title) g) ++
             page_events (gOpt g) (dir !! plot) (reference_graph g plot) gr_ref0_trim /\
    gLog g' = gLog g ++
              (if gOptHaveRef (gOpt g)
               then (DrawRatio (dir !! plot) (reference_graph g plot)).2 else []) /\
    gOpt g' = gOpt g /\ gDirCurr g' = gDirCurr g /\ gDirRef0 g' = gDirRef0 g.
Proof.
  intros Hdir Hpresent Htrim. unfold Draw, reference_graph in *. cbn [emit gDirCurr gDirRef0 gOpt gPS gLog].
  rewrite Hdir. cbn [from_option]. unfold mbind at 1, outcome_bind at 1.
  assert (Hgo : bool_decide (dir !! plot = None) &&
                bool_decide (match gDirRef0 g with
                             | Some dir0 => dir0 !! plot
                             | None => None
                             end = None) = false).
  { apply andb_false_iff. destruct Hpresent as [Hp|Hp]; [left | right];
      now apply bool_decide_eq_false. }
  rewrite Hgo. cbn [bool_decide decide_rel]. 
  replace (bool_decide (Some title = None)) with false
    by (symmetry; now apply bool_decide_eq_false).
  rewrite Htrim. unfold mbind, outcome_bind.
  destruct (gOptHaveRef (gOpt g)) eqn:Href.
  - destruct (DrawRatio (dir !! plot)
                (match gDirRef0 g with Some dir0 => dir0 !! plot | None => None end))
      as [gr_ratio msgs] eqn:Hratio.
    eexists. split; [reflexivity|]. cbn [emit log gPS gLog gOpt gDirCurr gDirRef0 fst snd].
    unfold page_events, page_body, header_only. rewrite Href, Hratio.
    cbn [fst snd emit gPS].
    repeat split; try exact Hdir. rewrite <- !app_assoc. reflexivity.
  - eexists. split; [reflexivity|]. cbn [emit log gPS gLog gOpt gDirCurr gDirRef0].
    unfold page_events, page_body, header_only. rewrite Href. cbn [emit gPS].
    repeat split; try exact Hdir; rewrite ?app_nil_r, <- ?app_assoc; reflexivity.
Qed.

End Draw_pages.

(** X8: when the graph of a category is present in the current directory
    or in the reference directory (a reference graph having at least one
    point), [Draw] returns and has begun exactly one new page, the last
    thing it does; it has sent the message of [DrawRatio] exactly when a
    reference file is in use and both graphs are present. *)
Theorem Draw_one_page `{RootSystem} (plot title : string) (g : Globals)
    (dir : TDirectory) :
  gDirCurr g = Some dir ->
  dir !! plot <> None \/ reference_graph g plot <> None ->
  reference_graph g plot <> Some [] ->
  exists g',
    Draw plot (Some title) g = Ret g' /\
    pages (gPS g') = S (pages (gPS g)) /\
    (exists evs, gPS g' = gPS g ++ evs ++ [EvUpdate; EvNewPage]) /\
    gLog g' = gLog g ++
      (if gOptHaveRef (gOpt g) && bool_decide (dir !! plot <> None)
          && bool_decide (reference_graph g plot <> None)
       then ["Drawing ratio..."] else []).
Proof.
  intros Hdir Hpresent Hpoints.
  destruct (TrimGraph_returns (reference_graph g plot) 20 Hpoints) as (trim & Htrim & _);
    [reflexivity|].
  destruct (Draw_present plot title g dir trim Hdir Hpresent Htrim)
    as (g' & Hrun & Hout & Hlog & _).
  exists g'. split; [exact Hrun|]. split; [|split].
  - rewrite Hout, pages_app, pages_page_events.
    unfold header_only. cbn [emit gPS]. rewrite !pages_app.
    change (pages [EvCd gPadTitle; EvHeader (Some title)]) with 0.
    change (pages [EvCd gPadXSecs]) with 0. lia.
  - rewrite Hout. unfold header_only, page_events. cbn [emit gPS].
    exists ([EvCd gPadTitle; EvHeader (Some title)] ++ [EvCd gPadXSecs] ++
            page_body (gOpt g) (dir !! plot) (reference_graph g plot) trim).
    rewrite <- !app_assoc. reflexivity.
  - rewrite Hlog. f_equal. destruct (gOptHaveRef (gOpt g)); [|reflexivity].
    destruct (dir !! plot), (reference_graph g plot); reflexivity.
Qed.

Lemma Draw_one_page_witness :
  exists g',
    Draw (H := root_with []) "tot_cc" (Some "TOT CC") reference_only_state = Ret g' /\
    pages (gPS g') = S (pages (gPS reference_only_state)) /\
    (exists evs, gPS g' = gPS reference_only_state ++ evs ++ [EvUpdate; EvNewPage]) /\
    gLog g' = gLog reference_only_state ++
      (if gOptHaveRef (gOpt reference_only_state)
          && bool_decide (({[ "tot_cc" := sparse_curve ]} : TDirectory) !! "tot_cc" <> None)
          && bool_decide (reference_graph reference_only_state "tot_cc" <> None)
       then ["Drawing ratio..."] else []).
Proof.
  apply (Draw_one_page (H := root_with []) "tot_cc" "TOT CC" reference_only_state
           {[ "tot_cc" := sparse_curve ]}).
  - reflexivity.
  - left. discriminate.
  - discriminate.
Defined.

Section Output_grows.
Context `{RootSystem} `{PDGLibrary}.

Lemma Draw_no_directory plot title g :
  gDirCurr g = None -> Draw plot title g = Undef.
Proof.
  intros Hdir. unfold Draw. cbn [emit gDirCurr]. rewrite Hdir. reflexivity.
Qed.

Lemma Draw_no_title plot g dir :
  gDirCurr g = Some dir -> Draw plot None g = Ret (header_only None g).
Proof.
  intros Hdir. unfold Draw. cbn [emit gDirCurr gDirRef0]. rewrite Hdir.
  cbn [from_option]. unfold mbind, outcome_bind.
  destruct (bool_decide (dir !! plot = None) && _); reflexivity.
Qed.

Lemma Draw_stops_with_TrimGraph plot title g dir :
  gDirCurr g = Some dir ->
  dir !! plot <> None \/ reference_graph g plot <> None ->
  (forall trim, TrimGraph (reference_graph g plot) 20 <> Ret trim) ->
  forall g', Draw plot (Some title) g <> Ret g'.
Proof.
  intros Hdir Hpresent Htrim g'. unfold Draw, reference_graph in *.
  cbn [emit gDirCurr gDirRef0]. rewrite Hdir. cbn [from_option].
  unfold mbind at 1, outcome_bind at 1.
  assert (Hgo : bool_decide (dir !! plot = None) &&
                bool_decide (match gDirRef0 g with
                             | Some dir0 => dir0 !! plot
                             | None => None
                             end = None) = false).
  { apply andb_false_iff. destruct Hpresent as [Hp|Hp]; [left | right];
      now apply bool_decide_eq_false. }
  rewrite Hgo.
  replace (bool_decide (Some title = None)) with false
    by (symmetry; now apply bool_decide_eq_false).
  destruct (TrimGraph _ 20) as [trim| | | |]; unfold mbind, outcome_bind;
    try discriminate.
  exfalso. now apply (Htrim trim).
Qed.

(** [Draw] only appends to the output, at most one page. *)
Lemma Draw_appends plot title g g' :
  Draw plot title g = Ret g' ->
  exists evs, gPS g' = gPS g ++ evs /\ pages evs <= 1.
Proof.
  intros Hrun. destruct (gDirCurr g) as [dir|] eqn:Hdir;
    [|rewrite Draw_no_directory in Hrun by exact Hdir; discriminate].
  assert (Hheader : forall t, exists evs,
            gPS (header_only t g) = gPS g ++ evs /\ pages evs <= 1).
  { intros t. exists [EvCd gPadTitle; EvHeader t; EvCd gPadXSecs].
    unfold header_only. cbn [emit gPS]. rewrite <- app_assoc.
    split; [reflexivity|]. change (pages _) with 0. lia. }
  destruct (decide (dir !! plot = None /\ reference_graph g plot = None))
    as [[Hcurr Href]|Hpresent].
  - rewrite (Draw_absent plot title g dir Hdir Hcurr Href) in Hrun.
    injection Hrun as <-. apply Hheader.
  - assert (Hp : dir !! plot <> None \/ reference_graph g plot <> None).
    { destruct (dir !! plot); [left; discriminate|].
      destruct (reference_graph g plot); [right; discriminate|].
      exfalso. apply Hpresent. split; reflexivity. }
    destruct title as [title|].
    + destruct (TrimGraph (reference_graph g plot) 20) as [trim| | | |] eqn:Htrim;
        try (exfalso; eapply (Draw_stops_with_TrimGraph plot title g dir Hdir Hp);
             [intros t; rewrite Htrim; discriminate | exact Hrun]).
      destruct (Draw_present plot title g dir trim Hdir Hp Htrim)
        as (g2 & Hrun2 & Hout & _).
      rewrite Hrun2 in Hrun. injection Hrun as <-.
      destruct (Hheader (Some title)) as (evs & Hevs & _).
      exists (evs ++ page_events (gOpt g) (dir !! plot) (reference_graph g plot) trim).
      rewrite Hout, Hevs, <- app_assoc. split; [reflexivity|].
      rewrite pages_app, pages_page_events.
      assert (Hzero : pages evs = 0).
      { unfold header_only in Hevs. cbn [emit gPS] in Hevs.
        rewrite <- app_assoc in Hevs. apply app_inv_head in Hevs. now subst evs. }
      lia.
    + rewrite (Draw_no_title plot g dir Hdir) in Hrun. injection Hrun as <-.
      apply Hheader.
Qed.

Lemma DrawAll_appends calls probestr targetstr : forall g g',
  DrawAll calls probestr targetstr g = Ret g' ->
  exists evs, gPS g' = gPS g ++ evs /\ pages evs <= length calls.
Proof.
  induction calls as [|[plot fmt] calls IH]; intros g g' Hrun; simpl in Hrun.
  - injection Hrun as <-. exists []. rewrite app_nil_r. split; [reflexivity|].
    change (pages []) with 0. lia.
  - destruct (Draw plot _ g) as [g1| | | |] eqn:Hdraw; outcome_simpl; try discriminate.
    apply Draw_appends in Hdraw as (evs1 & Hevs1 & Hp1).
    apply IH in Hrun as (evs2 & Hevs2 & Hp2).
    exists (evs1 ++ evs2). rewrite Hevs2, Hevs1, <- app_assoc.
    split; [reflexivity|]. rewrite pages_app. lia.
Qed.

Lemma MakePlotsCurrDir_appends g g' :
  MakePlotsCurrDir g = Ret g' -> exists evs, gPS g' = gPS g ++ evs.
Proof.
  unfold MakePlotsCurrDir, OpenDir. intros Hrun.
  destruct (gXSecFile_curr g) as [file|]; cbn [from_option] in Hrun;
    unfold mbind, outcome_bind in Hrun; [|discriminate].
  cbn [gDirName gPS gLog gOpt gXSecFile_curr gXSecFile_ref0 gDirCurr gDirRef0] in Hrun.
  destruct (DirNameToTarget (gDirName g) _) as [target| | | |]; try discriminate.
  apply DrawAll_appends in Hrun as (evs & Hevs & _). exists evs. exact Hevs.
Qed.

Lemma MakePlots_loop_appends dirs : forall g g',
  MakePlots_loop dirs g = Ret g' -> exists evs, gPS g' = gPS g ++ evs.
Proof.
  induction dirs as [|dir dirs IH]; intros g g' Hrun; simpl in Hrun.
  - injection Hrun as <-. exists []. now rewrite app_nil_r.
  - destruct (MakePlotsCurrDir _) as [g1| | | |] eqn:Hdir; outcome_simpl;
      try discriminate.
    apply MakePlotsCurrDir_appends in Hdir as (evs1 & Hevs1). cbn [gPS] in Hevs1.
    apply IH in Hrun as (evs2 & Hevs2).
    exists (evs1 ++ evs2). now rewrite Hevs2, Hevs1, <- app_assoc.
Qed.

End Output_grows.

(** ** The pages of a directory and of a run *)

Section Page_counts.
Context `{RootSystem} `{PDGLibrary}.

Lemma Draw_page_count (plot title : string) (g : Globals) (dir : TDirectory) :
  gDirCurr g = Some dir ->
  reference_graph g plot <> Some [] ->
  exists g',
    Draw plot (Some title) g = Ret g' /\
    pages (gPS g') = pages (gPS g) + (if present dir (gDirRef0 g) plot then 1 else 0) /\
    gDirCurr g' = gDirCurr g /\ gDirRef0 g' = gDirRef0 g.
Proof.
  intros Hdir Hpoints. unfold present. fold (reference_graph g plot).
  destruct (decide (dir !! plot = None /\ reference_graph g plot = None))
    as [[Hcurr Href]|Hpresent].
  - exists (header_only (Some title) g).
    rewrite (Draw_absent plot _ g dir Hdir Hcurr Href), Hcurr, Href.
    split; [reflexivity|]. split; [|split; reflexivity].
    unfold header_only. cbn [emit gPS]. rewrite !pages_app.
    change (pages [EvCd gPadTitle; EvHeader (Some title)]) with 0.
    change (pages [EvCd gPadXSecs]) with 0. lia.
  - assert (Hp : dir !! plot <> None \/ reference_graph g plot <> None).
    { destruct (dir !! plot); [left; discriminate|].
      destruct (reference_graph g plot); [right; discriminate|].
      exfalso. apply Hpresent. split; reflexivity. }
    destruct (TrimGraph_returns (reference_graph g plot) 20 Hpoints)
      as (trim & Htrim & _); [reflexivity|].
    destruct (Draw_present plot title g dir trim Hdir Hp Htrim)
      as (g' & Hrun & Hout & _ & _ & Hcurr' & Href').
    exists g'. split; [exact Hrun|]. split; [|split; assumption].
    rewrite Hout, pages_app, pages_page_events.
    unfold header_only. cbn [emit gPS]. rewrite !pages_app.
    change (pages [EvCd gPadTitle; EvHeader (Some title)]) with 0.
    change (pages [EvCd gPadXSecs]) with 0.
    destruct (dir !! plot), (reference_graph g plot); try lia.
    destruct Hp as [Hp|Hp]; now contradiction Hp.
Qed.

Lemma DrawAll_page_count (calls : list (string * string)) (probestr targetstr : string)
    (dir : TDirectory) : forall g,
  gDirCurr g = Some dir ->
  Forall (fun c => reference_graph g c.1 <> Some []) calls ->
  exists g',
    DrawAll calls probestr targetstr g = Ret g' /\
    pages (gPS g') =
      pages (gPS g) + length (List.filter (present dir (gDirRef0 g)) calls.*1).
Proof.
  induction calls as [|[plot fmt] calls IH]; intros g Hdir Hpoints.
  - exists g. split; [reflexivity|]. simpl. lia.
  - apply Forall_cons in Hpoints as [Hplot Hpoints]. cbn [fst] in Hplot.
    destruct (Draw_page_count plot (Form fmt [probestr; targetstr]) g dir Hdir Hplot)
      as (g1 & Hdraw & Hpages1 & Hcurr1 & Href1).
    destruct (IH g1) as (g' & Hrun & Hpages).
    { now rewrite Hcurr1. }
    { eapply Forall_impl; [exact Hpoints|]. intros c Hc.
      unfold reference_graph in *. now rewrite Href1. }
    exists g'. cbn [DrawAll]. rewrite Hdraw. unfold mbind, outcome_bind.
    split; [exact Hrun|]. rewrite Hpages, Hpages1, Href1.
    cbn [fmap list_fmap fst List.filter].
    destruct (present dir (gDirRef0 g) plot); cbn [length]; lia.
Qed.

Lemma Draw_keeps_files (plot : string) (title : option string) (g g' : Globals) :
  Draw plot title g = Ret g' ->
  gXSecFile_curr g' = gXSecFile_curr g /\ gXSecFile_ref0 g' = gXSecFile_ref0 g /\
  gOpt g' = gOpt g.
Proof.
  unfold Draw. cbn [emit gDirCurr gDirRef0 gOpt]. intros Hrun.
  destruct (gDirCurr g) as [dir|]; cbn [from_option] in Hrun; [|discriminate].
  unfold mbind at 1, outcome_bind at 1 in Hrun.
  destruct (bool_decide (dir !! plot = None) && _);
    [injection Hrun as <-; repeat split|].
  destruct (bool_decide (title = None)); [injection Hrun as <-; repeat split|].
  destruct (TrimGraph _ 20) as [trim| | | |]; unfold mbind, outcome_bind in Hrun;
    try discriminate.
  destruct (gOptHaveRef (gOpt g)); [destruct (DrawRatio _ _) as [ratio msgs]|];
    injection Hrun as <-; repeat split.
Qed.

Lemma DrawAll_keeps_files (calls : list (string * string)) (probestr targetstr : string) :
  forall g g',
  DrawAll calls probestr targetstr g = Ret g' ->
  gXSecFile_curr g' = gXSecFile_curr g /\ gXSecFile_ref0 g' = gXSecFile_ref0 g /\
  gOpt g' = gOpt g.
Proof.
  induction calls as [|[plot fmt] calls IH]; intros g g' Hrun; cbn [DrawAll] in Hrun.
  - injection Hrun as <-. repeat split.
  - destruct (Draw plot _ g) as [g1| | | |] eqn:Hdraw; unfold mbind, outcome_bind in Hrun;
      try discriminate.
    apply Draw_keeps_files in Hdraw as (Ha1 & Hb1 & Hc1).
    apply IH in Hrun as (Ha & Hb & Hc). rewrite Ha, Hb, Hc. auto.
Qed.

Lemma MakePlotsCurrDir_page_count (g : Globals) (file : TFile) (dir : TDirectory)
    (target : Target) :
  gXSecFile_curr g = Some file ->
  TFile_Get file (gDirName g) = Some dir ->
  (forall dir0 plot, reference_directory (gXSecFile_ref0 g) (gDirName g) = Some dir0 ->
     dir0 !! plot <> Some []) ->
  DirNameToTarget (gDirName g) (gCurrProbePdg (DirNameToProbe (gDirName g))) = Ret target ->
  exists g',
    MakePlotsCurrDir g = Ret g' /\
    pages (gPS g') = pages (gPS g) + directory_pages file (gXSecFile_ref0 g) (gDirName g) /\
    gXSecFile_curr g' = gXSecFile_curr g /\ gXSecFile_ref0 g' = gXSecFile_ref0 g /\
    gOpt g' = gOpt g.
Proof.
  intros Hfile Hdir Href Htarget. unfold MakePlotsCurrDir, OpenDir, directory_pages.
  rewrite Hfile. cbn [from_option]. unfold mbind, outcome_bind.
  cbn [gDirName gPS gLog gOpt gXSecFile_curr gXSecFile_ref0 gDirCurr gDirRef0].
  rewrite Htarget, Hdir.
  match goal with
  | |- exists g', DrawAll ?calls ?p ?t ?g0 = Ret g' /\ _ =>
      destruct (DrawAll_page_count calls p t dir g0) as (g' & Hrun & Hpages);
        [reflexivity | | exists g'; split; [exact Hrun | split; [exact Hpages|]]]
  end.
  - apply Forall_forall. intros c _. unfold reference_graph. cbn [gDirRef0].
    fold (reference_directory (gXSecFile_ref0 g) (gDirName g)).
    destruct (reference_directory _ _) as [dir0|] eqn:Hdir0; [|discriminate].
    now apply Href.
  - apply DrawAll_keeps_files in Hrun. exact Hrun.
Qed.

Lemma TFile_Get_listed (file : TFile) (name : string) :
  name ∈ map fst file -> is_Some (TFile_Get file name).
Proof.
  unfold TFile_Get. induction file as [|[k d] file IH]; intros Hin.
  - apply elem_of_nil in Hin as [].
  - cbn [List.find fst]. destruct (String.eqb_spec k name) as [->|Hne]; [eauto|].
    apply IH. cbn [map fst] in Hin. apply elem_of_cons in Hin as [Heq|Hin];
      [congruence | exact Hin].
Qed.

Lemma MakePlots_loop_page_count (file : TFile) (dirs : list string) : forall g,
  gXSecFile_curr g = Some file ->
  Forall (fun name =>
            is_Some (TFile_Get file name) /\
            (exists target,
               DirNameToTarget name (gCurrProbePdg (DirNameToProbe name)) = Ret target) /\
            forall dir0 plot, reference_directory (gXSecFile_ref0 g) name = Some dir0 ->
              dir0 !! plot <> Some []) dirs ->
  exists g',
    MakePlots_loop dirs g = Ret g' /\
    pages (gPS g') =
      pages (gPS g) + sum_list (map (directory_pages file (gXSecFile_ref0 g)) dirs) /\
    gOpt g' = gOpt g.
Proof.
  induction dirs as [|name dirs IH]; intros g Hfile Hdirs.
  - exists g. split; [reflexivity|]. simpl. split; [lia | reflexivity].
  - apply Forall_cons in Hdirs as [([dir Hdir] & [target Htarget] & Href) Hdirs].
    cbn [MakePlots_loop].
    match goal with
    | |- context [MakePlotsCurrDir ?g0] =>
        destruct (MakePlotsCurrDir_page_count g0 file dir target)
          as (g1 & Hrun1 & Hpages1 & Hcurr1 & Href1 & Hopt1);
          [exact Hfile | exact Hdir | exact Href | exact Htarget |]
    end.
    cbn [gDirName gPS gOpt gXSecFile_curr gXSecFile_ref0] in Hpages1, Hcurr1, Href1, Hopt1.
    destruct (IH g1) as (g' & Hrun & Hpages & Hopt).
    { now rewrite Hcurr1. }
    { rewrite Href1. exact Hdirs. }
    exists g'. rewrite Hrun1. unfold mbind, outcome_bind.
    split; [exact Hrun|]. split; [|now rewrite Hopt].
    rewrite Hpages, Hpages1, Href1. simpl. lia.
Qed.

End Page_counts.

(** X9: [MakePlotsCurrDir] in a directory of the current file, the name
    of which can be decoded, and with no graph of no point in the reference
    directory: the call returns and has begun one page for every plot it
    asks for that is present in the current or in the reference directory,
    and no other page. *)
Theorem MakePlotsCurrDir_pages `{RootSystem} `{PDGLibrary} (g : Globals)
    (file : TFile) (dir : TDirectory) (target : Target) :
  gXSecFile_curr g = Some file ->
  TFile_Get file (gDirName g) = Some dir ->
  (forall dir0 plot, reference_directory (gXSecFile_ref0 g) (gDirName g) = Some dir0 ->
     dir0 !! plot <> Some []) ->
  DirNameToTarget (gDirName g) (gCurrProbePdg (DirNameToProbe (gDirName g))) = Ret target ->
  exists g',
    MakePlotsCurrDir g = Ret g' /\
    pages (gPS g') =
      pages (gPS g) +
      length (List.filter
                (present dir (reference_directory (gXSecFile_ref0 g) (gDirName g)))
                (requested_plots (DirNameToProbe (gDirName g)) target)).
Proof.
  intros Hfile Hdir Href Htarget.
  destruct (MakePlotsCurrDir_page_count g file dir target Hfile Hdir Href Htarget)
    as (g' & Hrun & Hpages & _).
  exists g'. split; [exact Hrun|]. rewrite Hpages. unfold directory_pages.
  now rewrite Hdir, Htarget.
Qed.

Lemma MakePlotsCurrDir_pages_witness :
  exists g',
    MakePlotsCurrDir (H := root_with []) (H0 := pdg_numbering) one_directory_state
      = Ret g' /\
    pages (gPS g') = pages (gPS one_directory_state) + 2.
Proof.
  assert (Hcount : length (List.filter
                      (present {[ "tot_cc" := sparse_curve; "qel_cc_n" := dense_curve ]}
                         (reference_directory (gXSecFile_ref0 one_directory_state)
                            (gDirName one_directory_state)))
                      (requested_plots
                         (DirNameToProbe (H := pdg_numbering) (gDirName one_directory_state))
                         (decoded_target "C12"))) = 2)
    by (vm_compute; reflexivity).
  rewrite <- Hcount.
  apply (MakePlotsCurrDir_pages (H := root_with []) (H0 := pdg_numbering)
           one_directory_state
           [("nu_mu_C12", {[ "tot_cc" := sparse_curve; "qel_cc_n" := dense_curve ]})]
           {[ "tot_cc" := sparse_curve; "qel_cc_n" := dense_curve ]}
           (decoded_target "C12")).
  - reflexivity.
  - reflexivity.
  - intros dir0 plot Hdir0. discriminate.
  - vm_compute. reflexivity.
Defined.

(** X10: the output of a run of [main] that returns.  [GetCommandLineArgs]
    has returned options [opt], and [MakePlots], called on the state [Init]
    leaves for them, has returned a state [g1] whose output is the output
    of [Init] (a new page, the front page, a second new page) followed by
    what [MakePlots] has drawn, [body]: nothing drawn is taken back.  The
    state of [main] is [End g1], and its output is the output of [g1]
    followed by the closing of the file. *)
Theorem main_output `{RootSystem} `{PDGLibrary} (parser : CmdLnArgParser) (g : Globals) :
  main parser = Ret g ->
  exists opt g1 body,
    GetCommandLineArgs parser = Ret opt /\
    MakePlots (Init (initial_Globals opt)) = Ret g1 /\
    gPS g1 = gPS (Init (initial_Globals opt)) ++ body /\
    g = End g1 /\
    gPS g = gPS (Init (initial_Globals opt)) ++ body ++ [EvClose] /\
    pages (gPS g) = 2 + pages body.
Proof.
  unfold main. intros Hrun.
  destruct (GetCommandLineArgs parser) as [opt| | | |]; outcome_simpl; try discriminate.
  destruct (MakePlots _) as [g1| | | |] eqn:Hplots; try discriminate.
  injection Hrun as <-. pose proof Hplots as Hloop. unfold MakePlots in Hloop.
  apply MakePlots_loop_appends in Hloop as (body & Hbody). cbn [gPS] in Hbody.
  exists opt, g1, body. split; [reflexivity|]. split; [exact Hplots|].
  split; [exact Hbody|]. split; [reflexivity|].
  unfold End. cbn [emit gPS]. rewrite Hbody, <- app_assoc.
  split; [reflexivity|]. rewrite !pages_app.
  change (pages [EvClose]) with 0.
  assert (Hinit : pages (gPS (Init (initial_Globals opt))) = 2).
  { unfold Init. cbn [emit gPS initial_Globals]. rewrite !pages_app. reflexivity. }
  rewrite Hinit. lia.
Qed.

Lemma main_output_witness :
  exists opt g1 body,
    GetCommandLineArgs (H := root_with two_files) (command_line [("f"%char, "new.root")])
      = Ret opt /\
    MakePlots (H := root_with two_files) (H0 := pdg_numbering)
      (Init (initial_Globals opt)) = Ret g1 /\
    gPS g1 = gPS (Init (initial_Globals opt)) ++ body /\
    two_files_run = End g1 /\
    gPS two_files_run = gPS (Init (initial_Globals opt)) ++ body ++ [EvClose] /\
    pages (gPS two_files_run) = 2 + pages body.
Proof.
  apply (main_output (H := root_with two_files) (H0 := pdg_numbering)
           (command_line [("f"%char, "new.root")]) two_files_run).
  vm_compute. reflexivity.
Defined.

(** X11: a run of [main] whose command line is accepted, on a current file
    in which the name of every directory can be decoded, and with no graph
    of no point in the reference file, returns (the exit status is 0).  Its
    output has the two pages of [Init] and, directory by directory, one page
    for every plot asked for that is present. *)
Theorem main_pages `{RootSystem} `{PDGLibrary} (parser : CmdLnArgParser) (opt : CmdLine) :
  let file := OpenFile (gOptXSecFilename_curr opt) in
  let file0 := if gOptHaveRef opt then Some (OpenFile (gOptXSecFilename_ref0 opt))
               else None in
  GetCommandLineArgs parser = Ret opt ->
  Forall (fun name =>
            exists target,
              DirNameToTarget name (gCurrProbePdg (DirNameToProbe name)) = Ret target)
    (map fst file) ->
  (forall name dir0 plot, reference_directory file0 name = Some dir0 ->
     dir0 !! plot <> Some []) ->
  exists g,
    main parser = Ret g /\
    pages (gPS g) = 2 + sum_list (map (directory_pages file file0) (map fst file)).
Proof.
  intros file file0 Hargs Hnames Hpoints. unfold main, MakePlots. rewrite Hargs.
  unfold mbind at 1, outcome_bind at 1.
  cbn [Init emit initial_Globals gOpt gXSecFile_curr gXSecFile_ref0 gDirCurr gDirRef0
       gDirName gCurrProbe gCurrTarget gPS gLog].
  fold file file0.
  match goal with
  | |- context [MakePlots_loop _ ?g0] =>
      destruct (MakePlots_loop_page_count file (map fst file) g0) as (g1 & Hrun & Hpages & _)
  end.
  { reflexivity. }
  { cbn [gXSecFile_ref0]. apply Forall_forall. intros name Hname.
    split; [now apply TFile_Get_listed|]. split.
    - rewrite Forall_forall in Hnames. now apply Hnames.
    - apply Hpoints. }
  exists (End g1). rewrite Hrun. split; [reflexivity|].
  unfold End. cbn [emit gPS]. rewrite pages_app, Hpages.
  cbn [gPS gXSecFile_ref0]. rewrite !pages_app.
  change (pages [EvClose]) with 0. change (pages [EvNewPage]) with 1.
  change (pages [EvUpdate]) with 0.
  change (pages [EvFrontPage _]) with 0. change (pages []) with 0. lia.
Qed.

Lemma main_pages_witness :
  exists g,
    main (H := root_with two_files) (H0 := pdg_numbering)
      (command_line [("f"%char, "new.root")]) = Ret g /\
    pages (gPS g) = 2 + 1.
Proof.
  replace (2 + 1) with
    (2 + sum_list (map (directory_pages (H := pdg_numbering)
                          (OpenFile (RootSystem := root_with two_files) "new.root") None)
                     (map fst (OpenFile (RootSystem := root_with two_files) "new.root"))))
    by (vm_compute; reflexivity).
  apply (main_pages (H := root_with two_files) (H0 := pdg_numbering)
           (command_line [("f"%char, "new.root")])
           (mkCmdLine "new.root" "" "xsec.ps" false "current" "")).
  - vm_compute. reflexivity.
  - repeat constructor. eexists. vm_compute. reflexivity.
  - intros name dir0 plot Hdir0. discriminate.
Defined.


(** X12: [Draw] reads the first abscissa of the reference graph through
    [TrimGraph] before it looks at its size: when the reference directory
    holds a graph of no point for the category, the call has no defined
    behaviour, whatever the current directory holds. *)
Theorem Draw_empty_reference `{RootSystem} (plot title : string) (g : Globals)
    (dir : TDirectory) :
  gDirCurr g = Some dir ->
  reference_graph g plot = Some [] ->
  Draw plot (Some title) g = Undef.
Proof.
  intros Hdir Href. unfold Draw, reference_graph in *. cbn [emit gDirCurr gDirRef0].
  rewrite Hdir, Href. cbn [from_option]. unfold mbind at 1, outcome_bind at 1.
  replace (bool_decide (Some ([] : TGraph) = None)) with false
    by (symmetry; now apply bool_decide_eq_false).
  rewrite andb_false_r.
  replace (bool_decide (Some title = None)) with false
    by (symmetry; now apply bool_decide_eq_false).
  reflexivity.
Qed.

Lemma Draw_empty_reference_witness :
  Draw (H := root_with []) "tot_cc" (Some "TOT CC") empty_reference_state = Undef.
Proof.
  apply (Draw_empty_reference (H := root_with []) "tot_cc" "TOT CC" empty_reference_state
           {[ "tot_cc" := sparse_curve ]}); reflexivity.
Defined.


(** ** DirNameToTarget *)

Section Strings.

Lemma length_append (p s : string) :
  String.length (p +:+ s) = String.length p + String.length s.
Proof. induction p as [|c p IH]; simpl; [reflexivity | now rewrite IH]. Qed.

Lemma append_empty (p : string) : p +:+ "" = p.
Proof.
  induction p as [|c p IH]; [reflexivity|].
  change (String c (p +:+ "") = String c p). now rewrite IH.
Qed.

Lemma prefix_append (p s : string) : String.prefix p (p +:+ s) = true.
Proof.
  induction p as [|c p IH]; [destruct s; reflexivity|]. simpl.
  destruct (ascii_dec c c); [exact IH | contradiction].
Qed.

Lemma find_at_start (p s : string) : find (p +:+ s) p = Some 0.
Proof.
  unfold find. destruct (p +:+ s) as [|c r] eqn:Hps.
  - destruct p; [reflexivity | discriminate].
  - cbn [String.index]. rewrite <- Hps, prefix_append. reflexivity.
Qed.

Lemma substring_skip (p s : string) (n : nat) :
  substring (String.length p) n (p +:+ s) = substring 0 n s.
Proof. induction p as [|c p IH]; [reflexivity | exact IH]. Qed.

Lemma substring_all (s : string) : forall n,
  String.length s <= n -> substring 0 n s = s.
Proof.
  induction s as [|c s IH]; intros n Hn.
  - destruct n; reflexivity.
  - destruct n; simpl in *; [lia|]. f_equal. apply IH. lia.
Qed.

Lemma substring_head (p s : string) :
  substring 0 (String.length p) (p +:+ s) = p.
Proof.
  induction p as [|c p IH]; simpl; [apply substring_0_0 | now rewrite IH].
Qed.

Lemma substring_none (s : string) : forall m, substring m 0 s = "".
Proof.
  induction s as [|c s IH]; intros [|m]; try reflexivity. simpl. apply IH.
Qed.

Lemma free_neutron (s : string) :
  (String.length s =? 1) && contains s "n" = String.eqb s "n".
Proof.
  destruct s as [|c [|c' s]]; try reflexivity.
  - unfold contains, find. cbn [String.length Nat.eqb andb String.index String.prefix].
    cbn [String.eqb]. destruct (ascii_dec "n" c) as [<-|Hc].
    + reflexivity.
    + destruct (Ascii.eqb_spec c "n") as [->|_]; [contradiction | reflexivity].
  - cbn [String.length Nat.eqb andb String.eqb].
    destruct (Ascii.eqb c "n"); reflexivity.
Qed.

Lemma free_proton (s : string) :
  (String.length s =? 2) && contains s "H1" = String.eqb s "H1".
Proof.
  destruct s as [|c [|c' [|c'' s]]]; try reflexivity.
  - cbn [String.length Nat.eqb andb String.eqb]. destruct (Ascii.eqb c "H"); reflexivity.
  - unfold contains, find. cbn [String.length Nat.eqb andb String.index String.prefix].
    cbn [String.eqb].
    destruct (ascii_dec "H" c) as [<-|Hc]; [destruct (ascii_dec "1" c') as [<-|Hc']|].
    + reflexivity.
    + destruct (ascii_dec "H" c'); cbn;
        destruct (Ascii.eqb_spec c' "1") as [->|_]; try contradiction; reflexivity.
    + destruct (Ascii.eqb_spec c "H") as [->|_]; [contradiction|].
      destruct (ascii_dec "H" c'); reflexivity.
  - cbn [String.length Nat.eqb andb String.eqb].
    destruct (Ascii.eqb c "H"); [destruct (Ascii.eqb c' "1")|]; reflexivity.
Qed.

End Strings.

Section Targets.
Context `{PDGLibrary}.

Lemma probe_codes_differ :
  pdg_codes_distinct ->
  (kPdgAntiNuE <> kPdgNuE /\ kPdgAntiNuE <> kPdgAntiNuMu /\ kPdgAntiNuE <> kPdgNuMu /\
   kPdgAntiNuE <> kPdgAntiNuTau /\ kPdgAntiNuE <> kPdgNuTau) /\
  (kPdgNuE <> kPdgAntiNuMu /\ kPdgNuE <> kPdgNuMu /\ kPdgNuE <> kPdgAntiNuTau /\
   kPdgNuE <> kPdgNuTau) /\
  (kPdgAntiNuMu <> kPdgNuMu /\ kPdgAntiNuMu <> kPdgAntiNuTau /\ kPdgAntiNuMu <> kPdgNuTau) /\
  (kPdgNuMu <> kPdgAntiNuTau /\ kPdgNuMu <> kPdgNuTau) /\
  kPdgAntiNuTau <> kPdgNuTau.
Proof.
  unfold pdg_codes_distinct, probe_names. cbn [fmap list_fmap snd].
  rewrite !NoDup_cons, !not_elem_of_cons. tauto.
Qed.

Ltac probe_tests :=
  repeat match goal with
         | |- context [(?a =? ?b)%Z] =>
             destruct (Z.eqb_spec a b);
               [try (exfalso; congruence) | try congruence]
         end.

Lemma substring_after (p tgt : string) (sep : ascii) (n : nat) :
  substring (String.length p + 1) n (p +:+ String sep tgt) = substring 0 n tgt.
Proof. induction p as [|c p IH]; [reflexivity | exact IH]. Qed.

Lemma substr_after (p tgt : string) (sep : ascii) (k : nat) :
  k = String.length p + 1 ->
  substr (p +:+ String sep tgt) (find_plus (p +:+ String sep tgt) p k)
    (String.length (p +:+ String sep tgt)) = Ret tgt.
Proof.
  intros ->. unfold find_plus, substr. rewrite find_at_start, length_append.
  cbn [String.length Nat.add].
  destruct (Nat.ltb_spec (String.length p + S (String.length tgt))
              (String.length p + 1)) as [Hlt|_]; [lia|].
  rewrite substring_after, substring_all by lia. reflexivity.
Qed.

Lemma substr_bare (p : string) (k : nat) :
  k = String.length p + 1 ->
  substr p (find_plus p p k) (String.length p) = Abort.
Proof.
  intros ->. unfold find_plus, substr.
  replace (find p p) with (Some 0).
  - cbn [Nat.add]. destruct (Nat.ltb_spec (String.length p) (String.length p + 1)); [reflexivity | lia].
  - symmetry. rewrite <- (append_empty p) at 1. apply find_at_start.
Qed.

Lemma DirNameToTarget_label (dirname : string) (pdg : Z) (name : string) :
  pdg_codes_distinct ->
  (name, pdg) ∈ probe_names ->
  DirNameToTarget dirname pdg =
    substr dirname (find_plus dirname name (String.length name + 1))
      (String.length dirname) ≫= fun label => Ret (decoded_target label).
Proof.
  intros Hd Hin. apply probe_codes_differ in Hd. destruct_and!.
  unfold DirNameToTarget, decoded_target.
  unfold probe_names in Hin. rewrite !elem_of_cons, elem_of_nil in Hin.
  destruct Hin as [Hin|[Hin|[Hin|[Hin|[Hin|[Hin|[]]]]]]]; injection Hin as -> ->;
    cbn [String.length Nat.add]; probe_tests;
    match goal with |- context [substr ?s ?p ?n] => destruct (substr s p n) as [label| | | |] end;
    unfold mbind, outcome_bind; try reflexivity;
    rewrite free_neutron, free_proton;
    destruct (String.eqb label "n"), (String.eqb label "H1"); reflexivity.
Qed.

End Targets.

(** X13: [DirNameToTarget] on a directory name made of the name of the
    probe, one more character and a text: the target is decoded from the
    text, whatever the character in between is.  The text "n" gives the free
    neutron and "H1" the free proton, both without label; any other text
    gives a nucleus with protons and neutrons, labelled by the text in
    parentheses. *)
Theorem DirNameToTarget_decodes `{PDGLibrary} (name tgt : string) (sep : ascii) (pdg : Z) :
  pdg_codes_distinct ->
  (name, pdg) ∈ probe_names ->
  DirNameToTarget (name +:+ String sep tgt) pdg = Ret (decoded_target tgt).
Proof.
  intros Hd Hin. rewrite (DirNameToTarget_label _ pdg name Hd Hin).
  rewrite substr_after by reflexivity. reflexivity.
Qed.

Lemma DirNameToTarget_decodes_witness :
  DirNameToTarget (H := pdg_numbering) "nu_mu_C12" 14 = Ret (decoded_target "C12").
Proof.
  apply (DirNameToTarget_decodes (H := pdg_numbering) "nu_mu" "C12" "_" 14).
  - apply (bool_decide_unpack _). vm_compute. reflexivity.
  - apply (bool_decide_unpack _). vm_compute. reflexivity.
Defined.


(** X14: on a directory name that ends with the name of the probe,
    [DirNameToTarget] asks [substr] for a position one beyond the end of the
    name, which throws [std::out_of_range]: the program is aborted. *)
Theorem DirNameToTarget_bare_probe `{PDGLibrary} (name : string) (pdg : Z) :
  pdg_codes_distinct ->
  (name, pdg) ∈ probe_names ->
  DirNameToTarget name pdg = Abort.
Proof.
  intros Hd Hin. rewrite (DirNameToTarget_label _ pdg name Hd Hin).
  rewrite substr_bare by reflexivity. reflexivity.
Qed.

Lemma DirNameToTarget_bare_probe_witness :
  DirNameToTarget (H := pdg_numbering) "nu_tau_bar" (-16) = Abort.
Proof.
  apply (DirNameToTarget_bare_probe (H := pdg_numbering) "nu_tau_bar" (-16)).
  - apply (bool_decide_unpack _). vm_compute. reflexivity.
  - apply (bool_decide_unpack _). vm_compute. reflexivity.
Defined.


(** ** The plots of MakePlotsCurrDir *)

(** X15: the four graphs "dis_cc_p_sbarsea", "dis_cc_p_dbarsea",
    "dis_cc_p_uval" and "dis_cc_p_usea" are never asked for, whatever the
    probe and the target. *)
Theorem MakePlotsCurrDir_proton_plots_never_requested (p : Probe) (t : Target) :
  Forall (fun plot => times_requested plot (requested_plots p t) = 0)
    ["dis_cc_p_sbarsea"; "dis_cc_p_dbarsea"; "dis_cc_p_uval"; "dis_cc_p_usea"].
Proof.
  unfold requested_plots, MakePlotsCurrDir_calls.
  destruct (gCurrTargetIsFreeNuc t), (gCurrTargetHasN t), (gCurrTargetHasP t),
    (gCurrProbeIsNu p), (gCurrProbeIsNuBar p);
    repeat constructor.
Qed.


(** X16: for an antineutrino on a target with protons, the block of the
    proton asks for the four graphs "dis_cc_n_sbarsea", "dis_cc_n_dbarsea",
    "dis_cc_n_uval" and "dis_cc_n_usea" of the neutron: each is asked for
    twice on a target that has neutrons too, once on the free proton. *)
Theorem MakePlotsCurrDir_neutron_plots_repeated (p : Probe) (t : Target) :
  gCurrProbeIsNuBar p = true ->
  gCurrTargetHasP t = true ->
  Forall (fun plot => times_requested plot (requested_plots p t)
                      = if gCurrTargetHasN t then 2 else 1)
    ["dis_cc_n_sbarsea"; "dis_cc_n_dbarsea"; "dis_cc_n_uval"; "dis_cc_n_usea"].
Proof.
  unfold requested_plots, MakePlotsCurrDir_calls. intros Hbar Hp. rewrite Hbar, Hp.
  destruct (gCurrTargetIsFreeNuc t), (gCurrTargetHasN t), (gCurrProbeIsNu p);
    repeat constructor.
Qed.

Lemma MakePlotsCurrDir_neutron_plots_repeated_witness :
  Forall (fun plot =>
            times_requested plot
              (requested_plots (mkProbe "#bar{#nu_{#mu}}" (-14) false true)
                 (decoded_target "C12")) = 2)
    ["dis_cc_n_sbarsea"; "dis_cc_n_dbarsea"; "dis_cc_n_uval"; "dis_cc_n_usea"].
Proof.
  apply (MakePlotsCurrDir_neutron_plots_repeated (mkProbe "#bar{#nu_{#mu}}" (-14) false true)
           (decoded_target "C12")); reflexivity.
Defined.


(** ** GetCommandLineArgs *)

(** X17: what [main] can rely on after [GetCommandLineArgs] has returned:
    the option -f was given, the name of the current file is not empty and
    the file is accessible; a reference is in use exactly when -r was given,
    and then its name is not empty and the file is accessible; the output
    name is the argument of -o, "xsec.ps" without it. *)
Theorem GetCommandLineArgs_returns `{RootSystem} (parser : CmdLnArgParser) (opt : CmdLine) :
  GetCommandLineArgs parser = Ret opt ->
  OptionExists parser "f" = true /\
  gOptXSecFilename_curr opt <> "" /\
  AccessPathName (gOptXSecFilename_curr opt) = false /\
  gOptHaveRef opt = OptionExists parser "r" /\
  (gOptHaveRef opt = true ->
     gOptXSecFilename_ref0 opt <> "" /\
     AccessPathName (gOptXSecFilename_ref0 opt) = false) /\
  gOptOutputFilename opt =
    (if OptionExists parser "o" then ArgAsString parser "o" else "xsec.ps").
Proof.
  assert (Hcheck : forall name, CheckRootFilename name = true ->
            name <> "" /\ AccessPathName name = false).
  { intros name. unfold CheckRootFilename.
    destruct name as [|c name]; [discriminate|]. cbn [String.length Nat.eqb].
    destruct (AccessPathName (String c name)); [discriminate|]. now split. }
  unfold GetCommandLineArgs. intros Hrun.
  destruct (OptionExists parser "f"); [|discriminate].
  destruct (file_and_label (ArgAsString parser "f") "current") as [[f l]| | | |];
    outcome_simpl; try discriminate.
  destruct (CheckRootFilename f) eqn:Hf; cbn [negb] in Hrun; [|discriminate].
  apply Hcheck in Hf as [Hf1 Hf2].
  destruct (OptionExists parser "r").
  - destruct (file_and_label (ArgAsString parser "r") "reference") as [[f0 l0]| | | |];
      try discriminate.
    destruct (CheckRootFilename f0) eqn:Hf0; cbn [negb] in Hrun; [|discriminate].
    apply Hcheck in Hf0 as [Hr1 Hr2].
    injection Hrun as <-. cbn. auto 10.
  - injection Hrun as <-. cbn. repeat split; auto; discriminate.
Qed.

Lemma GetCommandLineArgs_returns_witness :
  let parser := command_line [("f"%char, "new.root"); ("r"%char, "old.root,v2")] in
  let opt := mkCmdLine "new.root" "old.root" "xsec.ps" true "current" "v2" in
  OptionExists parser "f" = true /\
  gOptXSecFilename_curr opt <> "" /\
  AccessPathName (RootSystem := root_with two_files) (gOptXSecFilename_curr opt) = false /\
  gOptHaveRef opt = OptionExists parser "r" /\
  (gOptHaveRef opt = true ->
     gOptXSecFilename_ref0 opt <> "" /\
     AccessPathName (RootSystem := root_with two_files) (gOptXSecFilename_ref0 opt) = false) /\
  gOptOutputFilename opt =
    (if OptionExists parser "o" then ArgAsString parser "o" else "xsec.ps").
Proof.
  apply (GetCommandLineArgs_returns (H := root_with two_files)
           (command_line [("f"%char, "new.root"); ("r"%char, "old.root,v2")])
           (mkCmdLine "new.root" "old.root" "xsec.ps" true "current" "v2")).
  vm_compute. reflexivity.
Defined.


(** ** OutputFileName *)

Section OutputFileName_facts.
Variable BaseName : string -> string.

Lemma contains_root (tail : string) :
  String.length tail = 4 -> contains tail "root" = String.eqb tail "root".
Proof.
  destruct tail as [|a [|b [|c [|d [|e tail]]]]]; try discriminate. intros _.
  unfold contains, find. cbn [String.index String.prefix String.eqb].
  destruct (ascii_dec "r" a) as [<-|Ha], (ascii_dec "o" b) as [<-|Hb],
    (ascii_dec "o" c) as [<-|Hc], (ascii_dec "t" d) as [<-|Hd];
    repeat match goal with
           | H : ?x <> ?y |- context [Ascii.eqb ?y ?x] =>
               destruct (Ascii.eqb_spec y x) as [E|_]; [symmetry in E; contradiction|]
           end;
    cbn [Ascii.eqb Bool.eqb andb];
    repeat match goal with
           | |- context [ascii_dec ?x ?y] => destruct (ascii_dec x y)
           end; reflexivity.
Qed.

Lemma unsigned_positions (n : nat) :
  (N.of_nat n + 4 < 2 ^ 32)%N ->
  let L := (N.of_nat (n + 4) mod 2 ^ 32)%N in
  L = N.of_nat (n + 4) /\ ((L + 2 ^ 32 - 4) mod 2 ^ 32)%N = N.of_nat n.
Proof.
  intros Hn L. assert (HL : L = N.of_nat (n + 4)).
  { unfold L. apply N.mod_small. lia. }
  split; [exact HL|]. rewrite HL.
  replace (N.of_nat (n + 4) + 2 ^ 32 - 4)%N with (N.of_nat n + 1 * 2 ^ 32)%N by lia.
  rewrite N.Div0.mod_add. apply N.mod_small. lia.
Qed.

Lemma OutputFileName_tail (base tail : string) :
  (N.of_nat (String.length base) + 4 < 2 ^ 32)%N ->
  String.length tail = 4 ->
  OutputFileName BaseName (base +:+ tail) =
    Ret (BaseName ((if String.eqb tail "root" then base else base +:+ tail)
                   +:+ "nuxsec_test.ps")).
Proof.
  intros Hn Htail. unfold OutputFileName.
  rewrite length_append, Htail.
  destruct (unsigned_positions (String.length base) Hn) as [-> ->].
  destruct (N.ltb_spec (N.of_nat (String.length base + 4))
              (N.of_nat (String.length base))) as [Hlt|_]; [lia|].
  rewrite !Nat2N.id. unfold substr. rewrite length_append, Htail.
  destruct (Nat.ltb_spec (String.length base + 4) (String.length base)) as [Hlt|_]; [lia|].
  unfold mbind at 1, outcome_bind at 1.
  rewrite substring_skip, substring_all by lia. rewrite (contains_root tail Htail).
  destruct (String.eqb tail "root"); [|reflexivity].
  unfold erase. rewrite length_append, Htail.
  destruct (Nat.ltb_spec (String.length base + 4) (String.length base)) as [Hlt|_]; [lia|].
  unfold mbind, outcome_bind. rewrite substring_head.
  replace (String.length base + 4 - (String.length base + (String.length base + 4)))
    with 0 by lia.
  now rewrite substring_none, append_empty.
Qed.

End OutputFileName_facts.

(** X18: [OutputFileName] on a name of fewer than four characters: [L-4]
    wraps around in [unsigned int], [substr] throws [std::out_of_range] and
    the program is aborted. *)
Theorem OutputFileName_short (BaseName : string -> string) (inpname : string) :
  String.length inpname < 4 ->
  OutputFileName BaseName inpname = Abort.
Proof.
  intros Hlen. unfold OutputFileName.
  destruct (String.length inpname) as [|[|[|[|n]]]]; try reflexivity. lia.
Qed.

Lemma OutputFileName_short_witness :
  OutputFileName (fun s => s) "a.r" = Abort.
Proof. apply (OutputFileName_short (fun s => s) "a.r"). simpl. lia. Defined.


(** X19: [OutputFileName] on a name of four characters or more: the last
    four characters are taken out when they are "root" (the dot before them
    stays), "nuxsec_test.ps" is appended and the base name of the result is
    returned. *)
Theorem OutputFileName_conversion (BaseName : string -> string) (base tail : string) :
  (N.of_nat (String.length base) + 4 < 2 ^ 32)%N ->
  String.length tail = 4 ->
  OutputFileName BaseName (base +:+ tail) =
    Ret (BaseName ((if String.eqb tail "root" then base else base +:+ tail)
                   +:+ "nuxsec_test.ps")).
Proof. apply OutputFileName_tail. Qed.

Lemma OutputFileName_conversion_witness :
  OutputFileName (fun s => s) "xsec.root" = Ret "xsec.nuxsec_test.ps".
Proof.
  apply (OutputFileName_conversion (fun s => s) "xsec." "root"); reflexivity.
Defined.


(** ** MultiGraph: the legend, calls without defined behaviour, aliasing *)

Section MultiGraph_more.
Implicit Types (mg : MultiGraph) (h : heap) (l : positive).

Lemma FillLegend_loop_rows option mg : forall n i legend,
  well_formed mg ->
  i + n = length (_mgraph mg) ->
  FillLegend_loop n i option mg legend =
    Ret (mkLegend (legend_box legend) (legend_fill legend)
           (legend_rows legend ++ drop i (rows_of option mg))).
Proof.
  induction n as [|n IH]; intros i legend Hwf Hn.
  - simpl. unfold rows_of. rewrite drop_ge, app_nil_r; [now destruct legend|].
    rewrite length_fmap, length_zip. unfold well_formed in Hwf. lia.
  - simpl. unfold index.
    destruct (lookup_lt_is_Some_2 (_mgraph mg) i) as [p Hp]; [lia|].
    destruct (lookup_lt_is_Some_2 (_legend_entries mg) i) as [e He].
    { unfold well_formed in Hwf. lia. }
    rewrite Hp, He. outcome_simpl. rewrite IH by (try exact Hwf; lia).
    cbn [legend_box legend_fill legend_rows]. rewrite <- app_assoc. do 3 f_equal.
    symmetry. apply drop_S. unfold rows_of.
    rewrite list_lookup_fmap, lookup_zip_with, Hp. simpl. rewrite He. reflexivity.
Qed.

Lemma FormatGraph_undefined (i : nat) mg h :
  140 <= i \/ (exists p, _mgraph mg !! i = Some p /\ ~ live h p) ->
  FormatGraph (N.of_nat i) mg h = Undef.
Proof.
  intros Hbad. unfold FormatGraph, index, n_colors.
  rewrite N2Nat.inj_mod, N2Nat.inj_div, Nat2N.id. change (N.to_nat 10) with 10.
  destruct (lookup_lt_is_Some_2 colors (i mod 10)) as [c Hc].
  { change (length colors) with 10. apply Nat.mod_upper_bound. lia. }
  rewrite Hc. unfold mbind at 1, outcome_bind at 1.
  destruct (markers !! (i / 10)) as [m|] eqn:Hm; [|reflexivity].
  unfold mbind at 1, outcome_bind at 1.
  destruct Hbad as [Hi|(p & Hp & Hdead)].
  - apply lookup_lt_Some in Hm. change (length markers) with 14 in Hm.
    assert (14 <= i / 10) by (apply Nat.div_le_lower_bound; lia). lia.
  - rewrite Hp. unfold mbind at 1, outcome_bind at 1.
    destruct p as [l|]; [|reflexivity].
    destruct (h !! l) as [g|] eqn:Hg.
    + exfalso. apply Hdead. exists l. split; [reflexivity | eauto].
    + unfold set_attribute, mbind, outcome_bind. cbn [from_option]. rewrite Hg. reflexivity.
Qed.

End MultiGraph_more.

(** X20: [AddGraph] has no defined behaviour when the aggregator already
    holds 140 graphs or more (the marker table is read out of range) or when
    the graph is null or not in the store (it is dereferenced). *)
Theorem AddGraph_undefined (legend : string) (graph : pointer) (mg : MultiGraph) (h : heap) :
  (N.of_nat (length (_mgraph mg)) < 2 ^ 32)%N ->
  140 <= length (_mgraph mg) \/ ~ live h graph ->
  AddGraph legend graph mg h = Undef.
Proof.
  intros Hsize Hbad. unfold AddGraph. cbn [_mgraph]. rewrite length_app. cbn [length].
  replace (N.of_nat (length (_mgraph mg) + 1) - 1)%N
    with (N.of_nat (length (_mgraph mg))) by lia.
  unfold to_unsigned_int. rewrite N.mod_small by exact Hsize.
  rewrite FormatGraph_undefined; [reflexivity|].
  destruct Hbad as [Hfull|Hdead]; [left; exact Hfull | right].
  exists graph. split; [|exact Hdead]. cbn [_mgraph].
  rewrite lookup_app_r by lia. now rewrite Nat.sub_diag.
Qed.

Lemma AddGraph_undefined_witness :
  AddGraph "null" None two_entries two_graphs = Undef.
Proof.
  apply (AddGraph_undefined "null" None two_entries two_graphs).
  - reflexivity.
  - right. intros (l & Hl & _). discriminate.
Defined.


(** X21: the legend of a well-formed aggregator has the box (0.6, 0.4, 0.9,
    0.9), the fill colour 0 and one row for each entry, in order: the graph,
    its label and the drawing option. *)
Theorem GetLegend_rows (option : string) (mg : MultiGraph) :
  well_formed mg ->
  (N.of_nat (length (_mgraph mg)) < 2 ^ 32)%N ->
  GetLegend option mg =
    Ret (mkLegend (0.6, 0.4, 0.9, 0.9)%Q 0 (rows_of option mg)).
Proof.
  intros Hwf Hsize. unfold GetLegend, FillLegend, NGraphs, to_unsigned_int.
  rewrite N.mod_small by exact Hsize. rewrite Nat2N.id.
  rewrite FillLegend_loop_rows by (try exact Hwf; reflexivity). reflexivity.
Qed.

Lemma GetLegend_rows_witness :
  GetLegend "LP" two_entries =
    Ret (mkLegend (0.6, 0.4, 0.9, 0.9)%Q 0
           [(Some 1%positive, "first", "LP"); (Some 2%positive, "second", "LP")]).
Proof.
  apply (GetLegend_rows "LP" two_entries); reflexivity.
Defined.


Section MultiGraph_aliasing.
Implicit Types (mg : MultiGraph) (h : heap) (l : positive).

Lemma style_at_tables (i : nat) (c m : Z) :
  colors !! (i mod 10) = Some c ->
  markers !! (i / 10) = Some m ->
  style_at i = Some (1%Q, c, m, c, 2%Z, 1%Z).
Proof. intros Hc Hm. unfold style_at. rewrite Hc, Hm. reflexivity. Qed.

Lemma AddGraphs_styles (adds : list (string * pointer)) : forall mg h,
  length (_mgraph mg) + length adds <= 140 ->
  Forall (fun a => live h a.2) adds ->
  exists mg' h',
    AddGraphs adds mg h = Ret (mg', h') /\
    forall l g, h !! l = Some g ->
      exists g',
        h' !! l = Some g' /\
        fPoints g' = fPoints g /\
        (forall i legend,
           adds !! i = Some (legend, Some l) ->
           (forall j legend', i < j -> adds !! j <> Some (legend', Some l)) ->
           Some (style_of g') = style_at (length (_mgraph mg) + i)) /\
        ((forall i legend, adds !! i <> Some (legend, Some l)) -> g' = g).
Proof.
  induction adds as [|[legend0 graph] adds IH]; intros mg h Hn Hlive.
  - exists mg, h. split; [reflexivity|]. intros l g Hg. exists g.
    split; [exact Hg|]. split; [reflexivity|]. split; [|reflexivity].
    intros i legend Hi. rewrite lookup_nil in Hi. discriminate.
  - apply Forall_cons in Hlive as [(l0 & Hl0 & [g0 Hg0]) Hlive].
    cbn [snd length] in Hl0, Hn. subst graph.
    destruct (AddGraph_live legend0 l0 mg h g0) as (c & m & Hc & Hm & Hadd);
      [lia | exact Hg0 |].
    set (g1 := mkGraph (fPoints g0) 1 c m c 2 1) in *.
    set (mg1 := mkMultiGraph (_mgraph mg ++ [Some l0]) (_legend_entries mg ++ [legend0])) in *.
    assert (Hlen1 : length (_mgraph mg1) = S (length (_mgraph mg))).
    { unfold mg1. cbn [_mgraph]. rewrite length_app. simpl. lia. }
    destruct (IH mg1 (<[l0 := g1]> h)) as (mg' & h' & Hrun & Hall).
    { lia. }
    { eapply Forall_impl; [exact Hlive|]. intros a (l' & Ha & Hsome).
      exists l'. split; [exact Ha|].
      destruct (decide (l0 = l')) as [<-|Hne];
        [rewrite lookup_insert_eq; eauto | now rewrite lookup_insert_ne]. }
    exists mg', h'. split.
    { simpl. rewrite Hadd. outcome_simpl. exact Hrun. }
    intros l g Hg. destruct (decide (l0 = l)) as [<-|Hne].
    + rewrite Hg0 in Hg. injection Hg as <-.
      destruct (Hall l0 g1) as (g' & Hg' & Hpts & Hlast & Hnone);
        [apply lookup_insert_eq|].
      exists g'. split; [exact Hg'|]. split; [exact Hpts|]. split.
      * intros [|i] legend Hi Hafter.
        -- rewrite Hnone.
           ++ rewrite Nat.add_0_r. symmetry. now apply style_at_tables.
           ++ intros j legend' Hj. apply (Hafter (S j) legend'); [lia | exact Hj].
        -- rewrite Hlen1 in Hlast. rewrite Nat.add_succ_r.
           apply (Hlast i legend Hi). intros j legend' Hj.
           apply (Hafter (S j) legend'). lia.
      * intros Habsent. exfalso. now apply (Habsent 0 legend0).
    + destruct (Hall l g) as (g' & Hg' & Hpts & Hlast & Hnone);
        [now rewrite lookup_insert_ne|].
      exists g'. split; [exact Hg'|]. split; [exact Hpts|]. split.
      * intros [|i] legend Hi Hafter.
        -- simpl in Hi. congruence.
        -- rewrite Hlen1 in Hlast. rewrite Nat.add_succ_r.
           apply (Hlast i legend Hi). intros j legend' Hj.
           apply (Hafter (S j) legend'). lia.
      * intros Habsent. apply Hnone. intros i legend. apply (Habsent (S i) legend).
Qed.

End MultiGraph_aliasing.

(** X22: a sequence of [AddGraph] calls on a new aggregator, of live graphs
    and at most 140 of them, returns.  Every graph of the store keeps its
    points; a graph that was added, once or more often, has the style of the
    last index it was added at; a graph that was not added is unchanged. *)
Theorem AddGraphs_last_index_style (adds : list (string * pointer)) (h : heap) :
  length adds <= 140 ->
  Forall (fun a => live h a.2) adds ->
  exists mg h',
    AddGraphs adds new_MultiGraph h = Ret (mg, h') /\
    forall l g, h !! l = Some g ->
      exists g',
        h' !! l = Some g' /\
        fPoints g' = fPoints g /\
        (forall i legend,
           adds !! i = Some (legend, Some l) ->
           (forall j legend', i < j -> adds !! j <> Some (legend', Some l)) ->
           Some (style_of g') = style_at i) /\
        ((forall i legend, adds !! i <> Some (legend, Some l)) -> g' = g).
Proof.
  intros Hn Hlive.
  destruct (AddGraphs_styles adds new_MultiGraph h) as (mg & h' & Hrun & Hall);
    [simpl; lia | exact Hlive |].
  exists mg, h'. split; [exact Hrun|]. exact Hall.
Qed.

Lemma AddGraphs_last_index_style_witness :
  let adds := [("a", Some 1%positive); ("b", Some 2%positive); ("c", Some 1%positive)] in
  exists mg h',
    AddGraphs adds new_MultiGraph two_graphs = Ret (mg, h') /\
    forall l g, two_graphs !! l = Some g ->
      exists g',
        h' !! l = Some g' /\
        fPoints g' = fPoints g /\
        (forall i legend,
           adds !! i = Some (legend, Some l) ->
           (forall j legend', i < j -> adds !! j <> Some (legend', Some l)) ->
           Some (style_of g') = style_at i) /\
        ((forall i legend, adds !! i <> Some (legend, Some l)) -> g' = g).
Proof.
  apply (AddGraphs_last_index_style
           [("a", Some 1%positive); ("b", Some 2%positive); ("c", Some 1%positive)]
           two_graphs).
  - simpl. lia.
  - repeat constructor; eexists; (split; [reflexivity|]); eexists; reflexivity.
Defined.
